(** * Branch/commit version tree of [tarea2.py]: model and verification

    The development embeds the [Commit], [BranchNode] and [BranchManager]
    classes of [src/tarea2.py].  Python objects live in an explicit store
    (a finite map from object identities to node records), so that the
    [current] cursor, the [parent] back-references and the [children]
    lists alias each other exactly as they do in the program. *)

From Stdlib Require Import ZArith Lia Ascii.
From stdpp Require Import gmap strings list.

Local Open Scope string_scope.
Local Open Scope nat_scope.
Local Open Scope list_scope.
Set Warnings "-register-all".

(** ** Byte strings

    A Python [str] is modelled by its UTF-8 byte string, so
    [str.encode()] is the list of the bytes of the string. *)

Definition encode (s : string) : list Z :=
  (λ c, Z.of_N (Ascii.N_of_ascii c)) <$> String.list_ascii_of_string s.

Fixpoint string_take (n : nat) (s : string) : string :=
  match n, s with
  | S n', String c s' => String c (string_take n' s')
  | _, _ => EmptyString
  end.

Fixpoint concat_strings (l : list string) : string :=
  match l with
  | [] => ""
  | s :: l' => s +:+ concat_strings l'
  end.

(** ** SHA-1 ([hashlib.sha1]), on 32-bit words held in [Z] *)

Module Sha1.
Local Open Scope Z_scope.

Definition w32 (x : Z) : Z := Z.land x 0xFFFFFFFF.
Definition add32 (x y : Z) : Z := w32 (x + y).
Definition not32 (x : Z) : Z := Z.lxor (w32 x) 0xFFFFFFFF.
Definition rotl (n x : Z) : Z :=
  w32 (Z.lor (Z.shiftl x n) (Z.shiftr x (32 - n))).

Definition be64 (n : Z) : list Z :=
  (λ i, Z.land (Z.shiftr n (8 * i)) 255) <$> [7; 6; 5; 4; 3; 2; 1; 0].

(** Message padding: a [0x80] byte, zeros up to 56 modulo 64, and the
    bit length as a big-endian 64-bit integer. *)
Definition pad (msg : list Z) : list Z :=
  let len := Z.of_nat (length msg) in
  msg ++ [128] ++ replicate (Z.to_nat ((55 - len) mod 64)) 0 ++ be64 (8 * len).

Fixpoint blocks (fuel : nat) (l : list Z) : list (list Z) :=
  match fuel, l with
  | S f, _ :: _ => take 64 l :: blocks f (drop 64 l)
  | _, _ => []
  end.

Definition word_at (blk : list Z) (i : nat) : Z :=
  let b k := nth (4 * i + k) blk 0 in
  Z.lor (Z.shiftl (b 0%nat) 24)
    (Z.lor (Z.shiftl (b 1%nat) 16) (Z.lor (Z.shiftl (b 2%nat) 8) (b 3%nat))).

(** The message schedule, kept newest word first while it is built. *)
Fixpoint expand (n : nat) (rev_w : list Z) : list Z :=
  match n with
  | O => rev_w
  | S n' =>
      let x := Z.lxor (Z.lxor (nth 2 rev_w 0) (nth 7 rev_w 0))
                      (Z.lxor (nth 13 rev_w 0) (nth 15 rev_w 0)) in
      expand n' (rotl 1 x :: rev_w)
  end.

Definition schedule (blk : list Z) : list Z :=
  reverse (expand 64 (reverse (word_at blk <$> seq 0 16))).

Definition round_fk (t : nat) (b c d : Z) : Z * Z :=
  if (t <? 20)%nat then (Z.lor (Z.land b c) (Z.land (not32 b) d), 0x5A827999)
  else if (t <? 40)%nat then (Z.lxor (Z.lxor b c) d, 0x6ED9EBA1)
  else if (t <? 60)%nat then
    (Z.lor (Z.lor (Z.land b c) (Z.land b d)) (Z.land c d), 0x8F1BBCDC)
  else (Z.lxor (Z.lxor b c) d, 0xCA62C1D6).

Record state := State { h0 : Z; h1 : Z; h2 : Z; h3 : Z; h4 : Z }.

Definition init : state :=
  State 0x67452301 0xEFCDAB89 0x98BADCFE 0x10325476 0xC3D2E1F0.

Definition round (s : state) (tw : nat * Z) : state :=
  let '(State a b c d e) := s in
  let '(f, k) := round_fk tw.1 b c d in
  let temp := add32 (add32 (add32 (add32 (rotl 5 a) f) e) k) tw.2 in
  State temp a (rotl 30 b) c d.

Definition compress (s : state) (blk : list Z) : state :=
  let '(State a b c d e) := foldl round s (zip (seq 0 80) (schedule blk)) in
  State (add32 (h0 s) a) (add32 (h1 s) b) (add32 (h2 s) c)
        (add32 (h3 s) d) (add32 (h4 s) e).

Definition digest (msg : list Z) : state :=
  let p := pad msg in
  foldl compress init (blocks (length p) p).

Definition hex_digit (n : Z) : ascii :=
  nth (Z.to_nat n) (String.list_ascii_of_string "0123456789abcdef") "0"%char.

Definition hex8 (w : Z) : string :=
  String.string_of_list_ascii
    ((λ i, hex_digit (Z.land (Z.shiftr w (4 * i)) 15)) <$> [7; 6; 5; 4; 3; 2; 1; 0]).

Definition hexdigest (msg : list Z) : string :=
  let '(State a b c d e) := digest msg in
  hex8 a +:+ hex8 b +:+ hex8 c +:+ hex8 d +:+ hex8 e.
End Sha1.

(** ** Python values held in a file table

    File contents are strings; [None] is what [dict.get] answers for a
    missing key, and [_calculate_diff] can store that answer in a table. *)

Inductive pyval :=
  | PyNone
  | PyStr (s : string).

Global Instance pyval_eq_dec : EqDecision pyval.
Proof. solve_decision. Defined.

(** Truth value of a Python object: [None] and the empty string are false. *)
Definition truthy (v : pyval) : bool :=
  match v with
  | PyNone => false
  | PyStr s => negb (bool_decide (s = ""))
  end.

(** [a or b] *)
Definition py_or (a b : pyval) : pyval := if truthy a then a else b.

(** ** Dictionaries: insertion-ordered association lists *)

Abbreviation dict := (list (string * pyval)).

Fixpoint dict_lookup (d : dict) (k : string) : option pyval :=
  match d with
  | [] => None
  | (k', v) :: d' => if decide (k' = k) then Some v else dict_lookup d' k
  end.

(** [d.get(k)] *)
Definition dict_get (d : dict) (k : string) : pyval :=
  match dict_lookup d k with
  | Some v => v
  | None => PyNone
  end.

(** [d[k] = v]: an existing key keeps its position, a new key goes last. *)
Fixpoint dict_set (d : dict) (k : string) (v : pyval) : dict :=
  match d with
  | [] => [(k, v)]
  | (k', v') :: d' =>
      if decide (k' = k) then (k', v) :: d' else (k', v') :: dict_set d' k v
  end.

(** [d.update(other)] *)
Definition dict_update (d other : dict) : dict :=
  foldl (λ acc kv, dict_set acc kv.1 kv.2) d other.

(** [d.copy()] *)
Definition dict_copy (d : dict) : dict := d.

Definition dict_keys (d : dict) : list string := d.*1.

(** ** [repr] and [str]

    [repr] of a string follows CPython's [unicode_repr].  The string is
    written between single quotes, or between double quotes when it has
    a single quote and no double quote; the quote and the backslash are
    escaped, as are tab, newline, carriage return and the other control
    characters below 128.  A code point above 127 is copied when it is
    printable ([str.isprintable]) and escaped otherwise, as [\xhh],
    [\uhhhh] or [\Uhhhhhhhh].  Which code points are printable is laid
    down by the Unicode database of the interpreter: the functions take
    it as the parameter [isprintable]. *)

Definition squote : ascii := "'"%char.
Definition dquote : ascii := ascii_of_nat 34.
Definition backslash : ascii := "\"%char.

Definition hex2 (n : nat) : string :=
  String (Sha1.hex_digit (Z.of_nat (n / 16)))
    (String (Sha1.hex_digit (Z.of_nat (n mod 16))) "").

(** [n] in lower-case hexadecimal, on [digits] digits. *)
Definition hex_of (digits : nat) (n : N) : string :=
  String.string_of_list_ascii
    ((λ i, Sha1.hex_digit (Z.land (Z.shiftr (Z.of_N n) (4 * Z.of_nat i)) 15))
       <$> reverse (seq 0 digits)).

(** The code points of a string, each with the bytes that encode it.  A
    byte that neither is below 128 nor opens a sequence of the form
    UTF-8 prescribes is [Stray]: no Python [str] encodes to it. *)
Inductive uchar :=
  | Char (cp : N) (bytes : string)
  | Stray (b : ascii).

(** The payload of a continuation byte [10xxxxxx]. *)
Definition continuation (c : ascii) : option N :=
  let n := N_of_ascii c in
  if (128 <=? n)%N && (n <? 192)%N then Some (n - 128)%N else None.

Fixpoint utf8_decode (bs : list ascii) : list uchar :=
  match bs with
  | [] => []
  | b0 :: bs1 =>
      let n0 := N_of_ascii b0 in
      let stray := Stray b0 :: utf8_decode bs1 in
      if (n0 <? 128)%N then Char n0 (String b0 "") :: utf8_decode bs1
      else if (n0 <? 192)%N then stray
      else
        match bs1 with
        | [] => stray
        | b1 :: bs2 =>
            match continuation b1 with
            | None => stray
            | Some n1 =>
                if (n0 <? 224)%N then
                  Char ((n0 - 192) * 64 + n1)%N (String b0 (String b1 ""))
                    :: utf8_decode bs2
                else
                  match bs2 with
                  | [] => stray
                  | b2 :: bs3 =>
                      match continuation b2 with
                      | None => stray
                      | Some n2 =>
                          if (n0 <? 240)%N then
                            Char (((n0 - 224) * 64 + n1) * 64 + n2)%N
                                 (String b0 (String b1 (String b2 "")))
                              :: utf8_decode bs3
                          else
                            match bs3 with
                            | [] => stray
                            | b3 :: bs4 =>
                                match continuation b3 with
                                | None => stray
                                | Some n3 =>
                                    Char ((((n0 - 240) * 64 + n1) * 64 + n2) * 64 + n3)%N
                                         (String b0 (String b1 (String b2 (String b3 ""))))
                                      :: utf8_decode bs4
                                end
                            end
                      end
                  end
            end
        end
  end.

(** [repr] of a character below 128. *)
Definition repr_ascii (quote c : ascii) : string :=
  let n := nat_of_ascii c in
  if bool_decide (c = quote) || bool_decide (c = backslash)
  then String backslash (String c "")
  else if (n =? 9)%nat then "\t"
  else if (n =? 10)%nat then "\n"
  else if (n =? 13)%nat then "\r"
  else if (n <? 32)%nat || (n =? 127)%nat then "\x" +:+ hex2 n
  else String c "".

Definition repr_uchar (isprintable : N → bool) (quote : ascii) (u : uchar) : string :=
  match u with
  | Stray b => String b ""
  | Char cp bytes =>
      if (cp <? 128)%N then repr_ascii quote (ascii_of_N cp)
      else if isprintable cp then bytes
      else if (cp <? 256)%N then "\x" +:+ hex_of 2 cp
      else if (cp <? 65536)%N then "\u" +:+ hex_of 4 cp
      else "\U" +:+ hex_of 8 cp
  end.

Definition repr_str (isprintable : N → bool) (s : string) : string :=
  let cs := String.list_ascii_of_string s in
  let quote :=
    if bool_decide (squote ∈ cs) && negb (bool_decide (dquote ∈ cs))
    then dquote else squote in
  String quote (concat_strings (repr_uchar isprintable quote <$> utf8_decode cs))
    +:+ String quote "".

Definition repr (isprintable : N → bool) (v : pyval) : string :=
  match v with
  | PyNone => "None"
  | PyStr s => repr_str isprintable s
  end.

Fixpoint join (sep : string) (l : list string) : string :=
  match l with
  | [] => ""
  | [s] => s
  | s :: l' => s +:+ sep +:+ join sep l'
  end.

(** [str(d)] for a dictionary *)
Definition str_dict (isprintable : N → bool) (d : dict) : string :=
  "{" +:+ join ", " ((λ kv, repr_str isprintable kv.1 +:+ ": " +:+ repr isprintable kv.2) <$> d)
    +:+ "}".

(** [hashlib.sha1(str(d).encode()).hexdigest()[:7]] *)
Definition short_hash (isprintable : N → bool) (d : dict) : string :=
  string_take 7 (Sha1.hexdigest (encode (str_dict isprintable d))).

(** The string of the given bytes. *)
Definition of_bytes (l : list nat) : string :=
  String.string_of_list_ascii (ascii_of_nat <$> l).

(** A table with text beyond ASCII, in UTF-8: a no-break space (U+00A0),
    a zero-width space (U+200B), a tag character (U+E0001), the letter
    e with acute accent (U+00E9), an emoticon (U+1F600), and the
    characters U+007F, U+0080 and U+00AD. *)
Definition unicode_files : dict :=
  [("nbsp", PyStr (of_bytes [97; 194; 160; 98]));
   ("z", PyStr (of_bytes [226; 128; 139]));
   ("x", PyStr (of_bytes [243; 160; 128; 129]));
   ("k", PyStr (of_bytes [195; 169]));
   ("e", PyStr (of_bytes [240; 159; 152; 128]));
   ("s", PyStr (of_bytes [127; 194; 128; 194; 173]))].

(** One printability table: of the code points up to 255 the printable
    ones, every code point beyond taken as printable. *)
Definition sample_printable (cp : N) : bool :=
  (160 <? cp)%N && negb (cp =? 173)%N.

(** ** Objects and the object store *)

Abbreviation loc := nat.

(** [class Commit] *)
Record Commit := mkCommit {
  id : string;
  message : string;
  files : dict
}.

(** The dictionary built by [Commit.to_dict], with its three keys. *)
Record commit_doc := mkCommitDoc {
  doc_id : string;
  doc_message : string;
  doc_files : dict
}.

Definition to_dict (c : Commit) : commit_doc :=
  {| doc_id := id c; doc_message := message c; doc_files := files c |}.

(** The [Commit] built from the keyword arguments of such a dictionary. *)
Definition Commit_of_dict (c : commit_doc) : Commit :=
  {| id := doc_id c; message := doc_message c; files := doc_files c |}.

(** [class BranchNode]: [parent] and [children] hold object references. *)
Record BranchNode := mkBranchNode {
  name : string;
  parent : option loc;
  children : list loc;
  commits : list Commit
}.

(** The document written by [save]: the nested dictionaries of
    [_serialize], each with the keys [name], [commits] and [children].
    [json.dump] followed by [json.load] gives back an equal document. *)
Inductive doc :=
  | Doc (doc_name : string) (doc_commits : list commit_doc) (doc_children : list doc).

(** [class BranchManager].  [heap] is the store of [BranchNode] objects,
    [file] the content of the file named by [self.file], if it exists. *)
Record BranchManager := mkBranchManager {
  heap : gmap loc BranchNode;
  root : loc;
  current : loc;
  file : option doc
}.

Definition set_heap (self : BranchManager) (h : gmap loc BranchNode) : BranchManager :=
  {| heap := h; root := root self; current := current self; file := file self |}.

Definition set_current (self : BranchManager) (l : loc) : BranchManager :=
  {| heap := heap self; root := root self; current := l; file := file self |}.

Definition set_file (self : BranchManager) (d : option doc) : BranchManager :=
  {| heap := heap self; root := root self; current := current self; file := d |}.

Definition set_children (n : BranchNode) (l : list loc) : BranchNode :=
  {| name := name n; parent := parent n; children := l; commits := commits n |}.

Definition set_commits (n : BranchNode) (l : list Commit) : BranchNode :=
  {| name := name n; parent := parent n; children := children n; commits := l |}.

(** ** Outcomes of a call

    A call returns, raises, or is [Stuck]: the recursion budget of the
    model ran out, or a reference designates no object.  Neither happens
    to the program on a store that holds a finite tree. *)

Inductive exn :=
  | ValueError (msg : string)
  | AttributeError (msg : string).

Inductive outcome (A : Type) :=
  | Ok (a : A)
  | Raise (e : exn)
  | Stuck.
Arguments Ok {A} a.
Arguments Raise {A} e.
Arguments Stuck {A}.

Definition bind {A B} (m : outcome A) (f : A → outcome B) : outcome B :=
  match m with
  | Ok a => f a
  | Raise e => Raise e
  | Stuck => Stuck
  end.

Declare Scope outcome_scope.
Delimit Scope outcome_scope with outcome.
Bind Scope outcome_scope with outcome.
Notation "x ← y ; z" := (bind y (λ x : _, z))
  (at level 20, y at level 100, z at level 200, only parsing) : outcome_scope.
Notation "' x ← y ; z" := (bind y (λ x : _, z))
  (at level 20, x pattern, y at level 100, z at level 200, only parsing) : outcome_scope.
Local Open Scope outcome_scope.

Definition deref (h : gmap loc BranchNode) (l : loc) : outcome BranchNode :=
  match h !! l with
  | Some n => Ok n
  | None => Stuck
  end.

Fixpoint map_outcome {A B} (f : A → outcome B) (l : list A) : outcome (list B) :=
  match l with
  | [] => Ok []
  | x :: l' => y ← f x; ys ← map_outcome f l'; Ok (y :: ys)
  end.

(** [l.remove(x)]: the first occurrence goes; [None] when there is none
    (Python raises [ValueError]). *)
Fixpoint list_remove (x : loc) (l : list loc) : option (list loc) :=
  match l with
  | [] => None
  | y :: l' => if decide (x = y) then Some l' else (y ::.) <$> list_remove x l'
  end.

(** ** Persistence codec *)

Fixpoint _serialize (fuel : nat) (h : gmap loc BranchNode) (node : loc) : outcome doc :=
  match fuel with
  | O => Stuck
  | S fuel' =>
      n ← deref h node;
      kids ← map_outcome (_serialize fuel' h) (children n);
      Ok (Doc (name n) (to_dict <$> commits n) kids)
  end.

(** [_deserialize] allocates one object per dictionary: the node is
    created first (no parent, no children, no commits), then its commits
    and its children are assigned.  No child is given a parent. *)
Fixpoint _deserialize (h : gmap loc BranchNode) (data : doc) : gmap loc BranchNode * loc :=
  match data with
  | Doc nm cs kids =>
      let node := fresh (dom h) in
      let h1 := <[node := mkBranchNode nm None [] []]> h in
      let h2 := <[node := mkBranchNode nm None [] (Commit_of_dict <$> cs)]> h1 in
      let '(h3, ks) :=
        (fix children_of (h : gmap loc BranchNode) (l : list doc) :=
           match l with
           | [] => (h, [])
           | d :: l' =>
               let '(h', k) := _deserialize h d in
               let '(h'', ks) := children_of h' l' in
               (h'', k :: ks)
           end) h2 kids in
      (<[node := mkBranchNode nm None ks (Commit_of_dict <$> cs)]> h3, node)
  end.

Definition save (fuel : nat) (self : BranchManager) : outcome BranchManager :=
  data ← _serialize fuel (heap self) (root self);
  Ok (set_file self (Some data)).

(** [load]: a missing file ([FileNotFoundError]) is passed over. *)
Definition load (self : BranchManager) : outcome BranchManager :=
  match file self with
  | None => Ok self
  | Some data =>
      let '(h, r) := _deserialize (heap self) data in
      Ok {| heap := h; root := r; current := r; file := file self |}
  end.

(** [BranchManager.__init__], with [store] the content of [branches.json]. *)
Definition __init__ (store : option doc) : outcome BranchManager :=
  let r := fresh (dom (∅ : gmap loc BranchNode)) in
  load {| heap := {[ r := mkBranchNode "main" None [] [] ]};
          root := r; current := r; file := store |}.

(** ** Traversals *)

(** The loop of [_find_branch_postorder]: the first child whose search
    answers a node settles the loop. *)
Fixpoint first_found (f : loc → outcome (option loc)) (l : list loc)
  : outcome (option loc) :=
  match l with
  | [] => Ok None
  | child :: l' =>
      result ← f child;
      match result with
      | Some r => Ok (Some r)
      | None => first_found f l'
      end
  end.

Fixpoint _find_branch_postorder (fuel : nat) (h : gmap loc BranchNode)
    (node : loc) (nm : string) : outcome (option loc) :=
  match fuel with
  | O => Stuck
  | S fuel' =>
      n ← deref h node;
      result ← first_found (λ child, _find_branch_postorder fuel' h child nm) (children n);
      match result with
      | Some r => Ok (Some r)
      | None => if decide (name n = nm) then Ok (Some node) else Ok None
      end
  end.

(** [_list_preorder], with the printed lines as its result. *)
Fixpoint string_repeat (s : string) (n : nat) : string :=
  match n with
  | O => ""
  | S n' => s +:+ string_repeat s n'
  end.

Fixpoint _list_preorder (fuel : nat) (h : gmap loc BranchNode) (node : loc)
    (level : nat) : outcome (list string) :=
  match fuel with
  | O => Stuck
  | S fuel' =>
      n ← deref h node;
      rest ← map_outcome (λ child, _list_preorder fuel' h child (level + 1)) (children n);
      Ok ((string_repeat "  " level +:+ name n) :: concat rest)
  end.

Definition list_branches_preorder (fuel : nat) (self : BranchManager)
  : outcome (list string) :=
  _list_preorder fuel (heap self) (root self) 0.

(** The [for i, child in enumerate(node.children)] loop of
    [_checkout_inorder]; [len] is [len(node.children)].  The test
    [i < len - 1] is on naturals: for [len = 0] the loop has no
    iteration, so truncated subtraction changes nothing. *)
Fixpoint checkout_loop (f : BranchManager → loc → outcome (bool * BranchManager))
    (len : nat) (self : BranchManager) (l : list (nat * loc))
  : outcome (bool * BranchManager) :=
  match l with
  | [] => Ok (false, self)
  | (i, child) :: l' =>
      if (i <? len - 1)%nat then
        '(found, self') ← f self child;
        if found then Ok (true, self') else checkout_loop f len self' l'
      else checkout_loop f len self l'
  end.

Definition enumerate {A} (l : list A) : list (nat * A) := zip (seq 0 (length l)) l.

Fixpoint _checkout_inorder (fuel : nat) (self : BranchManager) (node : loc)
    (nm : string) : outcome (bool * BranchManager) :=
  match fuel with
  | O => Stuck
  | S fuel' =>
      n ← deref (heap self) node;
      if decide (name n = nm) then Ok (true, set_current self node)
      else
        '(found, self') ←
          checkout_loop (λ s child, _checkout_inorder fuel' s child nm)
            (length (children n)) self (enumerate (children n));
        if found then Ok (true, self')
        else
          match last (children n) with
          | Some c => _checkout_inorder fuel' self' c nm
          | None => Ok (false, self')
          end
  end.

(** The ordinary left-to-right depth-first search the specification
    compares [_checkout_inorder] with: the node itself, then its
    children in order. *)
Fixpoint dfs_loop (f : BranchManager → loc → outcome (bool * BranchManager))
    (self : BranchManager) (l : list loc) : outcome (bool * BranchManager) :=
  match l with
  | [] => Ok (false, self)
  | child :: l' =>
      '(found, self') ← f self child;
      if found then Ok (true, self') else dfs_loop f self' l'
  end.

Fixpoint spec_plain_dfs (fuel : nat) (self : BranchManager) (node : loc)
    (nm : string) : outcome (bool * BranchManager) :=
  match fuel with
  | O => Stuck
  | S fuel' =>
      n ← deref (heap self) node;
      if decide (name n = nm) then Ok (true, set_current self node)
      else dfs_loop (λ s child, spec_plain_dfs fuel' s child nm) self (children n)
  end.

(** ** Diff and merge *)

(** The file table of the latest commit of a branch, empty without one. *)
Definition latest_files (n : BranchNode) : dict :=
  match last (commits n) with
  | Some c => files c
  | None => []
  end.

(** The body of the loop of [_calculate_diff], over the keys in the
    order the set hands them out. *)
Definition diff_step (source_files target_files : dict) (diff : dict) (file : string) : dict :=
  if decide (dict_get source_files file ≠ dict_get target_files file)
  then dict_set diff file (py_or (dict_get source_files file) (dict_get target_files file))
  else diff.

Definition diff_loop (keys : list string) (source_files target_files : dict) : dict :=
  foldl (diff_step source_files target_files) [] keys.

Section Operations.

(** The order in which Python iterates over [set(a) | set(b)] is not
    fixed by the language: it is a parameter, given the keys of [a]
    and of [b] in their insertion order. *)
Variable set_union_iter : list string → list string → list string.

(** Which code points [repr] takes as printable is laid down by the
    Unicode database of the interpreter: it is a parameter too. *)
Variable isprintable : N → bool.

Definition _calculate_diff (h : gmap loc BranchNode) (source target : loc)
  : outcome dict :=
  s ← deref h source;
  t ← deref h target;
  let source_files := latest_files s in
  let target_files := latest_files t in
  Ok (diff_loop (set_union_iter (dict_keys source_files) (dict_keys target_files))
        source_files target_files).

Definition append_commit (self : BranchManager) (cur : BranchNode) (c : Commit)
  : BranchManager :=
  set_heap self (<[current self := set_commits cur (commits cur ++ [c])]> (heap self)).

Definition _apply_merge (self : BranchManager) (diff : dict) : outcome BranchManager :=
  cur ← deref (heap self) (current self);
  let current_files :=
    match last (commits cur) with
    | Some c => dict_copy (files c)
    | None => []
    end in
  let current_files := dict_update current_files diff in
  let new_commit :=
    {| id := short_hash isprintable current_files;
       message := "Merge commit";
       files := current_files |} in
  Ok (append_commit self cur new_commit).

Definition merge (fuel : nat) (self : BranchManager) (source_name : string)
  : outcome BranchManager :=
  source ← _find_branch_postorder fuel (heap self) (root self) source_name;
  match source with
  | None => Raise (ValueError "Source branch not found")
  | Some source =>
      diff ← _calculate_diff (heap self) source (current self);
      self ← _apply_merge self diff;
      cur ← deref (heap self) (current self);
      let merge_commit :=
        {| id := short_hash isprintable diff;
           message := "Merge " +:+ source_name +:+ " into " +:+ name cur;
           files := diff |} in
      save fuel (append_commit self cur merge_commit)
  end.

(** ** Branch operations *)

(** [any(child.name == name for child in children)] *)
Fixpoint any_child_named (h : gmap loc BranchNode) (nm : string) (l : list loc)
  : outcome bool :=
  match l with
  | [] => Ok false
  | child :: l' =>
      c ← deref h child;
      if decide (name c = nm) then Ok true else any_child_named h nm l'
  end.

Definition create_branch (fuel : nat) (self : BranchManager) (nm : string)
  : outcome BranchManager :=
  cur ← deref (heap self) (current self);
  dup ← any_child_named (heap self) nm (children cur);
  if dup then Raise (ValueError ("Branch " +:+ nm +:+ " already exists"))
  else
    let new_branch := fresh (dom (heap self)) in
    let h := <[new_branch := mkBranchNode nm (Some (current self)) [] []]> (heap self) in
    let h := <[current self := set_children cur (children cur ++ [new_branch])]> h in
    save fuel (set_heap self h).

Definition delete_branch (fuel : nat) (self : BranchManager) (nm : string)
  : outcome BranchManager :=
  branch ← _find_branch_postorder fuel (heap self) (root self) nm;
  match branch with
  | None => Ok self
  | Some branch =>
      b ← deref (heap self) branch;
      match children b with
      | [] =>
          match parent b with
          | None => Raise (AttributeError "'NoneType' object has no attribute 'children'")
          | Some p =>
              pn ← deref (heap self) p;
              match list_remove branch (children pn) with
              | None => Raise (ValueError "list.remove(x): x not in list")
              | Some l =>
                  save fuel (set_heap self (<[p := set_children pn l]> (heap self)))
              end
          end
      | _ :: _ => Ok self
      end
  end.

Definition checkout (fuel : nat) (self : BranchManager) (nm : string)
  : outcome (bool * BranchManager) :=
  '(found, self) ← _checkout_inorder fuel self (root self) nm;
  if found then self ← save fuel self; Ok (true, self) else Ok (false, self).

Definition get_current_branch (self : BranchManager) : outcome string :=
  cur ← deref (heap self) (current self);
  Ok (name cur).

(** ** Sequences of public operations *)

Inductive op :=
  | CreateBranch (nm : string)
  | DeleteBranch (nm : string)
  | Checkout (nm : string)
  | Merge (source_name : string)
  | ListBranches
  | Load.

Definition exec (fuel : nat) (o : op) (self : BranchManager) : outcome BranchManager :=
  match o with
  | CreateBranch nm => create_branch fuel self nm
  | DeleteBranch nm => delete_branch fuel self nm
  | Checkout nm => r ← checkout fuel self nm; Ok r.2
  | Merge nm => merge fuel self nm
  | ListBranches => _ ← list_branches_preorder fuel self; Ok self
  | Load => load self
  end.

(** Every [raise] of the manager comes before its first assignment, so
    a caller that catches the exception goes on with the manager as it
    was. *)
Fixpoint run (fuel : nat) (ops : list op) (self : BranchManager)
  : outcome BranchManager :=
  match ops with
  | [] => Ok self
  | o :: ops' =>
      match exec fuel o self with
      | Ok self' => run fuel ops' self'
      | Raise _ => run fuel ops' self
      | Stuck => Stuck
      end
  end.

End Operations.

(** ** Shape of the store

    [Shape l nm kids] describes the part of a store reachable from the
    object [l]: its name and, recursively, its children in list order. *)

Inductive shape :=
  | Shape (l : loc) (nm : string) (kids : list shape).

Definition sloc (t : shape) : loc := match t with Shape l _ _ => l end.
Definition sname (t : shape) : string := match t with Shape _ nm _ => nm end.
Definition skids (t : shape) : list shape := match t with Shape _ _ kids => kids end.

Fixpoint tree_at (h : gmap loc BranchNode) (t : shape) : Prop :=
  match t with
  | Shape l nm kids =>
      (∃ n, h !! l = Some n ∧ name n = nm ∧ children n = sloc <$> kids) ∧
      (fix all (l : list shape) : Prop :=
         match l with
         | [] => True
         | k :: l' => tree_at h k ∧ all l'
         end) kids
  end.

Fixpoint depth (t : shape) : nat :=
  match t with
  | Shape _ _ kids => S (foldr (λ k d, max (depth k) d) 0 kids)
  end.

(** [has_name nm t]: some node of [t] is named [nm]. *)
Fixpoint has_name (nm : string) (t : shape) : bool :=
  match t with
  | Shape _ nm' kids =>
      bool_decide (nm' = nm) ||
      (fix any (l : list shape) : bool :=
         match l with
         | [] => false
         | k :: l' => has_name nm k || any l'
         end) kids
  end.

(** [subtree s t]: [s] is [t] or lies below it. *)
Inductive subtree (s : shape) : shape → Prop :=
  | subtree_here : subtree s s
  | subtree_below l nm kids k : k ∈ kids → subtree s k → subtree s (Shape l nm kids).

(** A chain is a single root-to-leaf path: no node has two children. *)
Fixpoint chain (t : shape) : Prop :=
  match t with
  | Shape _ _ [] => True
  | Shape _ _ [k] => chain k
  | Shape _ _ _ => False
  end.

(** The deepest node of a chain that bears the name. *)
Fixpoint deepest_named (nm : string) (t : shape) : option loc :=
  match t with
  | Shape l nm' kids =>
      match (fix first (ks : list shape) : option loc :=
               match ks with
               | [] => None
               | k :: _ => deepest_named nm k
               end) kids with
      | Some r => Some r
      | None => if decide (nm' = nm) then Some l else None
      end
  end.

(** [reachable h l l']: [l'] is [l] or a descendant of it in the store. *)
Inductive reachable (h : gmap loc BranchNode) : loc → loc → Prop :=
  | reachable_refl l : is_Some (h !! l) → reachable h l l
  | reachable_step l n c l' :
      h !! l = Some n → c ∈ children n → reachable h c l' → reachable h l l'.

(** [same_tree h1 h2 l1 l2]: the trees below [l1] in [h1] and [l2] in
    [h2] have the same names, the same commits and the same shape. *)
Inductive same_tree (h1 h2 : gmap loc BranchNode) : loc → loc → Prop :=
  | same_tree_node l1 l2 n1 n2 :
      h1 !! l1 = Some n1 → h2 !! l2 = Some n2 →
      name n1 = name n2 → commits n1 = commits n2 →
      Forall2 (same_tree h1 h2) (children n1) (children n2) →
      same_tree h1 h2 l1 l2.

(** The first answer of [f] along a list. *)
Fixpoint first_some {A B} (f : A → option B) (l : list A) : option B :=
  match l with
  | [] => None
  | x :: l' =>
      match f x with
      | Some r => Some r
      | None => first_some f l'
      end
  end.

(** What the two searches answer, read off the shape: children before
    the node for [post_find], the node before its children for
    [pre_find]. *)
Fixpoint post_find (nm : string) (t : shape) : option loc :=
  match t with
  | Shape l nm' kids =>
      match (fix first (ks : list shape) : option loc :=
               match ks with
               | [] => None
               | k :: ks' =>
                   match post_find nm k with
                   | Some r => Some r
                   | None => first ks'
                   end
               end) kids with
      | Some r => Some r
      | None => if decide (nm' = nm) then Some l else None
      end
  end.

Fixpoint pre_find (nm : string) (t : shape) : option loc :=
  match t with
  | Shape l nm' kids =>
      if decide (nm' = nm) then Some l
      else (fix first (ks : list shape) : option loc :=
              match ks with
              | [] => None
              | k :: ks' =>
                  match pre_find nm k with
                  | Some r => Some r
                  | None => first ks'
                  end
              end) kids
  end.

(** The manager after a search that answered [r]. *)
Definition moved (self : BranchManager) (r : option loc) : bool * BranchManager :=
  match r with
  | Some l => (true, set_current self l)
  | None => (false, self)
  end.


(** ** Sample stores *)

(** [main] with the children [a] and [b]; [a] has the child [x], and [b]
    is itself named [x]: the name [x] occurs in two subtrees. *)
Definition sample_heap : gmap loc BranchNode :=
  list_to_map
    [(0, mkBranchNode "main" None [1; 2] []);
     (1, mkBranchNode "a" (Some 0) [3] []);
     (2, mkBranchNode "x" (Some 0) [] []);
     (3, mkBranchNode "x" (Some 1) [] [])].

Definition sample_shape : shape :=
  Shape 0 "main" [Shape 1 "a" [Shape 3 "x" []]; Shape 2 "x" []].

Definition sample_manager : BranchManager :=
  {| heap := sample_heap; root := 0; current := 0; file := None |}.


Definition hex_digits : list ascii := String.list_ascii_of_string "0123456789abcdef".

Definition hex_string (s : string) : Prop :=
  Forall (λ c, c ∈ hex_digits) (String.list_ascii_of_string s).

(** One iteration order for the union of two key sets: the keys of both
    tables in sequence, a repeated key standing at its last place. *)
Definition sample_iter (a b : list string) : list string := remove_dups (a ++ b).

(** [main] holds [a.txt] and [b.txt]; its child [feature] holds an empty
    [a.txt] and a file [c.txt]. *)
Definition main_files : dict := [("a.txt", PyStr "1"); ("b.txt", PyStr "2")].
Definition feature_files : dict := [("a.txt", PyStr ""); ("c.txt", PyStr "3")].

Definition merge_heap : gmap loc BranchNode :=
  list_to_map
    [(0, mkBranchNode "main" None [1] [mkCommit "0000001" "first" main_files]);
     (1, mkBranchNode "feature" (Some 0) [] [mkCommit "0000002" "second" feature_files])].

Definition merge_shape : shape := Shape 0 "main" [Shape 1 "feature" []].

Definition merge_manager : BranchManager :=
  {| heap := merge_heap; root := 0; current := 0; file := None |}.

(** The current branch after a call that returned, and its commit log. *)
Definition current_node (r : outcome BranchManager) : option BranchNode :=
  match r with
  | Ok self => heap self !! current self
  | _ => None
  end.

Definition current_log (r : outcome BranchManager) : option (list Commit) :=
  commits <$> current_node r.

(** The diff [merge] computes between the source node [s] and the
    current node [cur], and the two commits it builds from it. *)
Definition merge_diff (iter : list string → list string → list string)
    (s cur : BranchNode) : dict :=
  diff_loop (iter (dict_keys (latest_files s)) (dict_keys (latest_files cur)))
    (latest_files s) (latest_files cur).

Definition full_commit (isprintable : N → bool) (cur : BranchNode) (diff : dict)
  : Commit :=
  {| id := short_hash isprintable (dict_update (latest_files cur) diff);
     message := "Merge commit";
     files := dict_update (latest_files cur) diff |}.

Definition marker_commit (isprintable : N → bool) (source_name : string)
    (cur : BranchNode) (diff : dict) : Commit :=
  {| id := short_hash isprintable diff;
     message := "Merge " +:+ source_name +:+ " into " +:+ name cur;
     files := diff |}.

(** Two stores with the same names and the same [children] lists hold
    the same trees. *)
Definition same_links (h h' : gmap loc BranchNode) : Prop :=
  ∀ l n, h !! l = Some n →
         ∃ n', h' !! l = Some n' ∧ name n' = name n ∧ children n' = children n.


(** The manager [merge_manager] after merging [feature] into [main]. *)
Definition merged_manager : BranchManager :=
  match merge sample_iter sample_printable 2 merge_manager "feature" with
  | Ok self => self
  | _ => merge_manager
  end.

(** A manager whose only branch holds one commit with the table [d]. *)
Definition table_manager (d : dict) : BranchManager :=
  {| heap := {[ 0 := mkBranchNode "main" None [] [mkCommit "0000001" "first" d] ]};
     root := 0; current := 0; file := None |}.

(** The table [main_files] with its two keys inserted the other way round. *)
Definition main_files_swapped : dict := [("b.txt", PyStr "2"); ("a.txt", PyStr "1")].

(** [graft cur new nm t]: the shape [t] with a new leaf [new], named
    [nm], as the last child of the node [cur]. *)
Fixpoint graft (cur new : loc) (nm : string) (t : shape) : shape :=
  match t with
  | Shape l nm' kids =>
      let kids' := (fix go (ks : list shape) : list shape :=
                      match ks with
                      | [] => []
                      | k :: ks' => graft cur new nm k :: go ks'
                      end) kids in
      Shape l nm' (if decide (l = cur) then kids' ++ [Shape new nm []] else kids')
  end.

(** Some direct child of the node [n] is named [nm]. *)
Definition has_child_named (h : gmap loc BranchNode) (n : BranchNode) (nm : string) : Prop :=
  ∃ c cn, c ∈ children n ∧ h !! c = Some cn ∧ name cn = nm.

(** Every child reference of the node designates an object. *)
Definition children_live (h : gmap loc BranchNode) (n : BranchNode) : Prop :=
  Forall (λ c, is_Some (h !! c)) (children n).

(** The children loop of [_deserialize]. *)
Fixpoint deserialize_list (h : gmap loc BranchNode) (l : list doc)
  : gmap loc BranchNode * list loc :=
  match l with
  | [] => (h, [])
  | d :: l' =>
      let '(h', k) := _deserialize h d in
      let '(h'', ks) := deserialize_list h' l' in
      (h'', k :: ks)
  end.

(** [represents h l d]: the document [d] is the image of the tree below
    [l]: same name, same commits, and the children's documents in the
    order of the [children] list. *)
Fixpoint represents (h : gmap loc BranchNode) (l : loc) (d : doc) : Prop :=
  match d with
  | Doc nm cs kids =>
      ∃ n, h !! l = Some n ∧ name n = nm ∧ to_dict <$> commits n = cs ∧
           (fix all (ds : list doc) (ls : list loc) : Prop :=
              match ds, ls with
              | [], [] => True
              | d' :: ds', l' :: ls' => represents h l' d' ∧ all ds' ls'
              | _, _ => False
              end) kids (children n)
  end.

Definition sample_doc : doc :=
  Doc "main" [mkCommitDoc "0000001" "first" main_files]
    [Doc "feature" [mkCommitDoc "0000002" "second" feature_files] []].

(** What [_deserialize] allocates: the store it is given is kept, the
    node it returns is new, every new node has no parent, and any store
    that holds the new nodes holds a tree whose image is the document. *)
Definition deserialize_post (h h' : gmap loc BranchNode) : Prop :=
  h ⊆ h' ∧ ∀ l n, h' !! l = Some n → h !! l = None → parent n = None.

Definition holds_new (h h' h'' : gmap loc BranchNode) : Prop :=
  ∀ l n, h' !! l = Some n → h !! l = None → h'' !! l = Some n.


(** The manager that [__init__] builds, over a given content of
    [branches.json]; [__init__] never raises. *)
Definition started (store : option doc) : BranchManager :=
  match __init__ store with
  | Ok self => self
  | _ => mkBranchManager ∅ 0 0 None
  end.

(** A fresh manager after [create_branch("feature")]. *)
Definition created_feature : BranchManager :=
  match create_branch 2 (started None) "feature" with
  | Ok self => self
  | _ => started None
  end.

(** ** The cursor *)

(** [delete_branch] is about to take the node [current] points at out
    of the tree: its search resolves to that node, and the node has no
    children. *)
Definition detaches_current (fuel : nat) (o : op) (self : BranchManager) : bool :=
  match o with
  | DeleteBranch nm =>
      match _find_branch_postorder fuel (heap self) (root self) nm with
      | Ok (Some b) =>
          bool_decide (b = current self) &&
          match heap self !! b with
          | Some bn => bool_decide (children bn = [])
          | None => false
          end
      | _ => false
      end
  | _ => false
  end.

(** The call is about to put [current] on a node of the tree: a
    [checkout] that finds its name, a [load] that reads a file. *)
Definition places_current (fuel : nat) (o : op) (self : BranchManager) : bool :=
  match o with
  | Checkout nm =>
      match checkout fuel self nm with
      | Ok (true, _) => true
      | _ => false
      end
  | Load =>
      match file self with
      | Some _ => true
      | None => false
      end
  | _ => false
  end.

(** Where the calls of the sequence that return leave the cursor: on the
    tree ([true]) or off it.  A call that places the cursor puts it on
    the tree, a [delete_branch] that detaches its node takes it off, and
    every other call leaves it where it was; [on] tells where it is
    before the sequence. *)
Fixpoint cursor_on_tree (iter : list string → list string → list string)
    (isprintable : N → bool) (fuel : nat) (ops : list op) (self : BranchManager)
    (on : bool) : bool :=
  match ops with
  | [] => on
  | o :: ops' =>
      match exec iter isprintable fuel o self with
      | Ok self' =>
          cursor_on_tree iter isprintable fuel ops' self'
            (places_current fuel o self || on && negb (detaches_current fuel o self))
      | Raise _ => cursor_on_tree iter isprintable fuel ops' self on
      | Stuck => on
      end
  end.

(** No [children] list of the store holds the node. *)
Definition orphan (h : gmap loc BranchNode) (c : loc) : Prop :=
  ∀ l n, h !! l = Some n → c ∉ children n.

(** The [children] lists of the store form a forest: no list holds a
    node twice, every entry designates an object, and no node stands in
    two lists. *)
Definition forest (h : gmap loc BranchNode) : Prop :=
  (∀ l n, h !! l = Some n →
          NoDup (children n) ∧ Forall (λ c, is_Some (h !! c)) (children n)) ∧
  (∀ l l' n n' c, h !! l = Some n → h !! l' = Some n' →
                  c ∈ children n → c ∈ children n' → l = l').

(** The store of a manager: a forest whose root is an object that no
    list holds. *)
Definition tidy (self : BranchManager) : Prop :=
  forest (heap self) ∧ is_Some (heap self !! root self) ∧
  orphan (heap self) (root self).

(** What [_deserialize] allocates keeps the forest: the node it returns
    is new and no list holds it, and an object that no list held is
    still held by none. *)
Definition deserialize_forest (h h' : gmap loc BranchNode) : Prop :=
  forest h' ∧ h ⊆ h' ∧ ∀ c, is_Some (h !! c) → orphan h c → orphan h' c.

(** The cursor designates an object; the cursor is attached to the tree. *)
Definition current_live (self : BranchManager) : Prop :=
  is_Some (heap self !! current self).

Definition current_attached (self : BranchManager) : Prop :=
  reachable (heap self) (root self) (current self).

(** A fresh manager after creating [a], checking it out and deleting it. *)
Definition detached_manager : BranchManager :=
  match run sample_iter sample_printable 3
          [CreateBranch "a"; Checkout "a"; DeleteBranch "a"] (started None) with
  | Ok self => self
  | _ => started None
  end.

Definition sample_ops : list op :=
  [CreateBranch "a"; Checkout "a"; CreateBranch "b"; CreateBranch "b";
   DeleteBranch "b"; Merge "main"; Merge "nowhere"; ListBranches;
   Checkout "main"; DeleteBranch "a"; Load].

(** The manager after the operations [sample_ops] on a fresh one. *)
Definition sample_final : BranchManager :=
  match run sample_iter sample_printable 3 sample_ops (started None) with
  | Ok self => self
  | _ => started None
  end.

(** ** More on shapes *)

(** [has_loc l t]: the object [l] is a node of [t]. *)
Fixpoint has_loc (l : loc) (t : shape) : bool :=
  match t with
  | Shape l' _ kids =>
      bool_decide (l' = l) ||
      (fix any (ks : list shape) : bool :=
         match ks with
         | [] => false
         | k :: ks' => has_loc l k || any ks'
         end) kids
  end.

(** The number of nodes of a shape. *)
Fixpoint size (t : shape) : nat :=
  match t with
  | Shape _ _ kids =>
      S ((fix sum (ks : list shape) : nat :=
            match ks with
            | [] => 0
            | k :: ks' => size k + sum ks'
            end) kids)
  end.

(** The names of a shape in preorder, each indented by two spaces per
    level. *)
Fixpoint shape_lines (level : nat) (t : shape) : list string :=
  match t with
  | Shape _ nm kids =>
      (string_repeat "  " level +:+ nm) ::
      (fix go (ks : list shape) : list string :=
         match ks with
         | [] => []
         | k :: ks' => shape_lines (level + 1) k ++ go ks'
         end) kids
  end.

(** The nesting depth of a document. *)
Fixpoint doc_depth (d : doc) : nat :=
  match d with
  | Doc _ _ kids =>
      S ((fix mx (ds : list doc) : nat :=
            match ds with
            | [] => 0
            | d' :: ds' => doc_depth d' `max` mx ds'
            end) kids)
  end.

(** [a or b], spelled out: [a] when it is a non-empty string. *)
Definition source_or_target (a b : pyval) : pyval :=
  match a with
  | PyStr c => if decide (c = "") then b else PyStr c
  | PyNone => b
  end.

(** The manager has its file in step with its tree. *)
Definition file_in_step (fuel : nat) (self : BranchManager) : Prop :=
  ∃ data, file self = Some data ∧ _serialize fuel (heap self) (root self) = Ok data.

(** A fresh manager after [create_branch("a")]. *)
Definition created_a : BranchManager :=
  match exec sample_iter sample_printable 2 (CreateBranch "a") (started None) with
  | Ok self => self
  | _ => started None
  end.

(** * The collaborator directory ([class CollaboratorBST])

    Python compares strings by code point; on UTF-8 byte strings that is
    the lexicographic order of the bytes, [String.ltb]. *)

From Stdlib Require OrderedTypeEx.

Module CollaboratorBST.

(** [class Collaborator]: [left] and [right] are [None] or a node. *)
Inductive Collaborator :=
  | mkCollaborator (name role : string) (left right : option Collaborator).

Definition c_name (c : Collaborator) : string :=
  match c with mkCollaborator name _ _ _ => name end.
Definition c_role (c : Collaborator) : string :=
  match c with mkCollaborator _ role _ _ => role end.
Definition c_left (c : Collaborator) : option Collaborator :=
  match c with mkCollaborator _ _ l _ => l end.
Definition c_right (c : Collaborator) : option Collaborator :=
  match c with mkCollaborator _ _ _ r => r end.

(** The nested dictionaries of [to_dict]. *)
Inductive collab_doc :=
  | mkDoc (name role : string) (left right : option collab_doc).

Fixpoint to_dict (c : Collaborator) : collab_doc :=
  match c with
  | mkCollaborator name role l r =>
      mkDoc name role
        (match l with Some x => Some (to_dict x) | None => None end)
        (match r with Some x => Some (to_dict x) | None => None end)
  end.

Fixpoint from_doc (d : collab_doc) : Collaborator :=
  match d with
  | mkDoc name role l r =>
      mkCollaborator name role
        (match l with Some x => Some (from_doc x) | None => None end)
        (match r with Some x => Some (from_doc x) | None => None end)
  end.

(** [Collaborator.from_dict]: [None] for a missing dictionary. *)
Definition from_dict (data : option collab_doc) : option Collaborator :=
  match data with
  | None => None
  | Some d => Some (from_doc d)
  end.

Fixpoint _insert (node : Collaborator) (name role : string) : Collaborator :=
  match node with
  | mkCollaborator n r l rt =>
      if String.ltb name n then
        match l with
        | Some c => mkCollaborator n r (Some (_insert c name role)) rt
        | None => mkCollaborator n r (Some (mkCollaborator name role None None)) rt
        end
      else
        match rt with
        | Some c => mkCollaborator n r l (Some (_insert c name role))
        | None => mkCollaborator n r l (Some (mkCollaborator name role None None))
        end
  end.

Fixpoint _min_value_node (node : Collaborator) : Collaborator :=
  match node with
  | mkCollaborator _ _ (Some l) _ => _min_value_node l
  | mkCollaborator _ _ None _ => node
  end.

(** [_remove_node] on a node; [_remove_node] itself adds the [None] case. *)
Fixpoint remove_from (node : Collaborator) (name : string) : option Collaborator :=
  match node with
  | mkCollaborator n r l rt =>
      if String.ltb name n then
        Some (mkCollaborator n r
                (match l with Some c => remove_from c name | None => None end) rt)
      else if String.ltb n name then
        Some (mkCollaborator n r l
                (match rt with Some c => remove_from c name | None => None end))
      else
        match l, rt with
        | None, _ => rt
        | Some _, None => l
        | Some _, Some c =>
            let temp := _min_value_node c in
            Some (mkCollaborator (c_name temp) (c_role temp) l
                    (remove_from c (c_name temp)))
        end
  end.

Definition _remove_node (node : option Collaborator) (name : string)
  : option Collaborator :=
  match node with
  | None => None
  | Some c => remove_from c name
  end.

Fixpoint find_from (node : Collaborator) (name : string) : option Collaborator :=
  match node with
  | mkCollaborator n r l rt =>
      if decide (n = name) then Some node
      else if String.ltb name n then
        match l with Some c => find_from c name | None => None end
      else
        match rt with Some c => find_from c name | None => None end
  end.

Definition _find_node (node : option Collaborator) (name : string)
  : option Collaborator :=
  match node with
  | None => None
  | Some c => find_from c name
  end.

(** [_preorder_traversal], with the printed lines as its result. *)
Fixpoint preorder_lines (node : Collaborator) : list string :=
  match node with
  | mkCollaborator n r l rt =>
      ("- " +:+ n +:+ " (" +:+ r +:+ ")") ::
      (match l with Some c => preorder_lines c | None => [] end) ++
      (match rt with Some c => preorder_lines c | None => [] end)
  end.

Definition _preorder_traversal (node : option Collaborator) : list string :=
  match node with
  | None => []
  | Some c => preorder_lines c
  end.

(** The file [collaborators.json]: absent, not JSON, or a document
    ([null] for an empty directory). *)
Inductive stored :=
  | Missing
  | Malformed
  | Stored (data : option collab_doc).

Record manager := mkManager {
  root : option Collaborator;
  file : stored
}.

Definition save (self : manager) : manager :=
  {| root := root self;
     file := Stored (match root self with
                     | Some c => Some (to_dict c)
                     | None => None
                     end) |}.

(** [load]: a missing or malformed file gives the empty directory. *)
Definition load (self : manager) : manager :=
  match file self with
  | Stored data => {| root := from_dict data; file := file self |}
  | Missing | Malformed => {| root := None; file := file self |}
  end.

Definition __init__ (store : stored) : manager :=
  load {| root := None; file := store |}.

Definition add (self : manager) (name role : string) : manager :=
  save {| root := match root self with
                  | None => Some (mkCollaborator name role None None)
                  | Some c => Some (_insert c name role)
                  end;
          file := file self |}.

Definition remove (self : manager) (name : string) : manager :=
  save {| root := _remove_node (root self) name; file := file self |}.

Definition find (self : manager) (name : string) : option Collaborator :=
  _find_node (root self) name.

Definition list_preorder (self : manager) : list string :=
  ["=== Colaboradores ==="] ++ _preorder_traversal (root self) ++
  ["===================="].

(** The names of a tree, left to right. *)
Fixpoint names (c : Collaborator) : list string :=
  match c with
  | mkCollaborator n _ l rt =>
      (match l with Some x => names x | None => [] end) ++
      n :: (match rt with Some x => names x | None => [] end)
  end.

Definition names_opt (o : option Collaborator) : list string :=
  match o with
  | Some c => names c
  | None => []
  end.

(** The search-tree order the code keeps: smaller names to the left,
    greater or equal names to the right. *)
Fixpoint bst (c : Collaborator) : Prop :=
  match c with
  | mkCollaborator n _ l rt =>
      Forall (λ x, String.ltb x n = true) (names_opt l) ∧
      Forall (λ x, String.ltb x n = false) (names_opt rt) ∧
      (match l with Some x => bst x | None => True end) ∧
      (match rt with Some x => bst x | None => True end)
  end.

Definition bst_opt (o : option Collaborator) : Prop :=
  match o with
  | Some c => bst c
  | None => True
  end.

Definition sample : manager :=
  add (add (add (__init__ Missing) "mia" "dev") "ana" "lead") "zoe" "qa".

End CollaboratorBST.

(** What [_insert] puts in the place of a child: the child with the new
    entry inserted, or the new leaf where there was no child. *)
Definition collab_child_after (o : option CollaboratorBST.Collaborator)
    (name role : string) : CollaboratorBST.Collaborator :=
  match o with
  | Some c => CollaboratorBST._insert c name role
  | None => CollaboratorBST.mkCollaborator name role None None
  end.

(** * The file store ([class BTree]) *)

Module BTree.

(** [class BTreeNode] *)
Inductive BTreeNode :=
  | mkNode (leaf : bool) (keys values : list string) (children : list BTreeNode).

Definition n_leaf (n : BTreeNode) : bool :=
  match n with mkNode leaf _ _ _ => leaf end.
Definition n_keys (n : BTreeNode) : list string :=
  match n with mkNode _ keys _ _ => keys end.
Definition n_values (n : BTreeNode) : list string :=
  match n with mkNode _ _ values _ => values end.
Definition n_children (n : BTreeNode) : list BTreeNode :=
  match n with mkNode _ _ _ children => children end.

Inductive exn :=
  | AttributeError (msg : string)
  | IndexError (msg : string).

Inductive result (A : Type) :=
  | Ok (a : A)
  | Raise (e : exn).
Arguments Ok {A} a.
Arguments Raise {A} e.

(** The [while] loop of [_search]: the first index whose key is not
    below [key]. *)
Fixpoint scan (key : string) (keys : list string) : nat :=
  match keys with
  | [] => 0
  | k :: keys' => if String.ltb k key then S (scan key keys') else 0
  end.

Fixpoint _search (node : BTreeNode) (key : string) : result (option string) :=
  match node with
  | mkNode leaf keys values children =>
      let i := scan key keys in
      let descend :=
        if leaf then Ok None
        else (fix child_at (cs : list BTreeNode) (j : nat) : result (option string) :=
                match cs, j with
                | c :: _, O => _search c key
                | _ :: cs', S j' => child_at cs' j'
                | [], _ => Raise (IndexError "list index out of range")
                end) children i in
      match keys !! i with
      | Some k =>
          if decide (key = k) then
            match values !! i with
            | Some v => Ok (Some v)
            | None => Raise (IndexError "list index out of range")
            end
          else descend
      | None => descend
      end
  end.

(** The document of [_serialize]; a stored file holds such a document. *)
Inductive btree_doc :=
  | mkDoc (leaf : bool) (keys values : list string) (children : list btree_doc).

Fixpoint _serialize (node : BTreeNode) : btree_doc :=
  match node with
  | mkNode leaf keys values children =>
      mkDoc leaf keys values
        ((fix go (cs : list BTreeNode) : list btree_doc :=
            match cs with
            | [] => []
            | c :: cs' => _serialize c :: go cs'
            end) children)
  end.

Fixpoint _deserialize (data : btree_doc) : BTreeNode :=
  match data with
  | mkDoc leaf keys values children =>
      mkNode leaf keys values
        ((fix go (ds : list btree_doc) : list BTreeNode :=
            match ds with
            | [] => []
            | d :: ds' => _deserialize d :: go ds'
            end) children)
  end.

(** [class BTree]; [file] is the content of [btree.json], if it exists. *)
Record manager := mkManager {
  root : BTreeNode;
  t : Z;
  file : option btree_doc
}.

Definition save (self : manager) : manager :=
  {| root := root self; t := t self; file := Some (_serialize (root self)) |}.

Definition load (self : manager) : manager :=
  match file self with
  | Some data => {| root := _deserialize data; t := t self; file := file self |}
  | None => self
  end.

Definition __init__ (t : Z) (store : option btree_doc) : manager :=
  load {| root := mkNode true [] [] []; t := t; file := store |}.

(** [_insert_non_full] is [pass]. *)
Definition _insert_non_full (self : manager) (node : BTreeNode) (key value : string)
  : manager := self.

(** [insert]: on a full root the call of [self._split_child], a method
    the class does not have, raises before [self.root] is assigned. *)
Definition insert (self : manager) (key value : string) : result manager :=
  if decide (Z.of_nat (length (n_keys (root self))) = (2 * t self - 1)%Z)
  then Raise (AttributeError "'BTree' object has no attribute '_split_child'")
  else Ok (save (_insert_non_full self (root self) key value)).

Definition search (self : manager) (key : string) : result (option string) :=
  _search (root self) key.

(** Inserting a list of entries, one after the other. *)
Fixpoint insert_all (self : manager) (entries : list (string * string))
  : result manager :=
  match entries with
  | [] => Ok self
  | (key, value) :: entries' =>
      match insert self key value with
      | Ok self' => insert_all self' entries'
      | Raise e => Raise e
      end
  end.

(** [inside n root]: [n] is [root] or a node below it. *)
Inductive inside (n : BTreeNode) : BTreeNode → Prop :=
  | inside_here : inside n n
  | inside_child leaf keys values children c :
      c ∈ children → inside n c → inside n (mkNode leaf keys values children).

(** Every key of the tree, node first, then the children in order. *)
Fixpoint all_keys (node : BTreeNode) : list string :=
  match node with
  | mkNode _ keys _ children =>
      keys ++ (fix go (cs : list BTreeNode) : list string :=
                 match cs with
                 | [] => []
                 | c :: cs' => all_keys c ++ go cs'
                 end) children
  end.

Fixpoint sorted (keys : list string) : bool :=
  match keys with
  | [] => true
  | k :: keys' =>
      match keys' with
      | [] => true
      | k' :: _ => String.ltb k k' && sorted keys'
      end
  end.

Definition in_range (lo hi : option string) (x : string) : bool :=
  match lo with Some l => String.ltb l x | None => true end &&
  match hi with Some h => String.ltb x h | None => true end.

(** The search-tree shape [_search] is written for: in every node the
    keys ascend, each key has its value, a leaf has no child and an
    inner node one child more than keys, the keys of child [j] lying
    between key [j - 1] and key [j]. *)
Fixpoint wf (lo hi : option string) (node : BTreeNode) : bool :=
  match node with
  | mkNode leaf keys values children =>
      sorted keys && forallb (in_range lo hi) keys &&
      (length values =? length keys) &&
      if leaf then match children with [] => true | _ => false end
      else (fix go (lo : option string) (ks : list string) (cs : list BTreeNode)
              {struct cs} : bool :=
              match cs, ks with
              | [c], [] => wf lo hi c
              | c :: cs', k :: ks' => wf lo (Some k) c && go (Some k) ks' cs'
              | _, _ => false
              end) lo keys children
  end.

(** A stored tree: two keys in the root, three leaves below. *)
Definition sample_doc : btree_doc :=
  mkDoc false ["d"; "m"] ["4"; "13"]
    [mkDoc true ["a"; "b"] ["1"; "2"] [];
     mkDoc true ["f"] ["6"] [];
     mkDoc true ["p"; "x"] ["16"; "24"] []].

Definition sample : manager := __init__ 3 (Some sample_doc).

End BTree.

(** * Roles and permissions ([class RoleManager], an AVL tree) *)

Module RoleManager.

(** [Optional[AVLNode]]: [Null] is [None]. *)
Inductive AVLNode :=
  | Null
  | Node (email role : string) (permissions : list string)
         (left right : AVLNode) (height : Z).

Definition none_has_no (attr : string) : exn :=
  AttributeError ("'NoneType' object has no attribute '" ++ attr ++ "'").

Definition _height (node : AVLNode) : Z :=
  match node with
  | Null => 0
  | Node _ _ _ _ _ h => h
  end.

Definition _get_balance (node : AVLNode) : outcome Z :=
  match node with
  | Null => Raise (none_has_no "left")
  | Node _ _ _ l r _ => Ok (_height l - _height r)%Z
  end.

Definition _left_rotate (z : AVLNode) : outcome AVLNode :=
  match z with
  | Null => Raise (none_has_no "right")
  | Node ze zr zp zl y _ =>
      match y with
      | Null => Raise (none_has_no "left")
      | Node ye yr yp T2 yrt _ =>
          let z' := Node ze zr zp zl T2 (1 + Z.max (_height zl) (_height T2)) in
          Ok (Node ye yr yp z' yrt (1 + Z.max (_height z') (_height yrt)))
      end
  end.

Definition _right_rotate (z : AVLNode) : outcome AVLNode :=
  match z with
  | Null => Raise (none_has_no "left")
  | Node ze zr zp y zrt _ =>
      match y with
      | Null => Raise (none_has_no "right")
      | Node ye yr yp yl T3 _ =>
          let z' := Node ze zr zp T3 zrt (1 + Z.max (_height T3) (_height zrt)) in
          Ok (Node ye yr yp yl z' (1 + Z.max (_height yl) (_height z')))
      end
  end.

(** [node.left = ...] and [node.right = ...] on a node. *)
Definition set_left (node l : AVLNode) : AVLNode :=
  match node with
  | Null => Null
  | Node e r p _ rt h => Node e r p l rt h
  end.

Definition set_right (node rt : AVLNode) : AVLNode :=
  match node with
  | Null => Null
  | Node e r p l _ h => Node e r p l rt h
  end.

Fixpoint _insert (node : AVLNode) (email role : string) (permissions : list string)
  : outcome AVLNode :=
  match node with
  | Null => Ok (Node email role permissions Null Null 1)
  | Node e r p l rt _ =>
      '(l, rt) ← (if String.ltb email e
                  then l' ← _insert l email role permissions; Ok (l', rt)
                  else rt' ← _insert rt email role permissions; Ok (l, rt'));
      let node := Node e r p l rt (1 + Z.max (_height l) (_height rt)) in
      balance ← _get_balance node;
      if (1 <? balance)%Z then
        match l with
        | Null => Raise (none_has_no "email")
        | Node le _ _ _ _ _ =>
            if String.ltb email le then _right_rotate node
            else l' ← _left_rotate l; _right_rotate (set_left node l')
        end
      else if (balance <? -1)%Z then
        match rt with
        | Null => Raise (none_has_no "email")
        | Node re _ _ _ _ _ =>
            if String.ltb re email then _left_rotate node
            else rt' ← _right_rotate rt; _left_rotate (set_right node rt')
        end
      else Ok node
  end.

Fixpoint _min_value_node (node : AVLNode) : outcome AVLNode :=
  match node with
  | Null => Raise (none_has_no "left")
  | Node _ _ _ l _ _ =>
      match l with
      | Null => Ok node
      | Node _ _ _ _ _ _ => _min_value_node l
      end
  end.

(** The tail of [_delete_node]: the height is recomputed and the node
    rotated where its balance has left [-1 .. 1]. *)
Definition rebalance (root : AVLNode) : outcome AVLNode :=
  match root with
  | Null => Raise (none_has_no "left")
  | Node e r p l rt _ =>
      let root := Node e r p l rt (1 + Z.max (_height l) (_height rt)) in
      balance ← _get_balance root;
      if (1 <? balance)%Z then
        bl ← _get_balance l;
        if (0 <=? bl)%Z then _right_rotate root
        else l' ← _left_rotate l; _right_rotate (set_left root l')
      else if (balance <? -1)%Z then
        br ← _get_balance rt;
        if (br <=? 0)%Z then _left_rotate root
        else rt' ← _right_rotate rt; _left_rotate (set_right root rt')
      else Ok root
  end.

Fixpoint _delete_node (root : AVLNode) (email : string) : outcome AVLNode :=
  match root with
  | Null => Ok Null
  | Node e r p l rt h =>
      if String.ltb email e then
        l' ← _delete_node l email; rebalance (Node e r p l' rt h)
      else if String.ltb e email then
        rt' ← _delete_node rt email; rebalance (Node e r p l rt' h)
      else
        match l, rt with
        | Null, _ => Ok rt
        | _, Null => Ok l
        | _, _ =>
            temp ← _min_value_node rt;
            match temp with
            | Null => Raise (none_has_no "email")
            | Node te tr tp _ _ _ =>
                rt' ← _delete_node rt te; rebalance (Node te tr tp l rt' h)
            end
        end
  end.

Fixpoint _search (node : AVLNode) (email : string) : AVLNode :=
  match node with
  | Null => Null
  | Node e _ _ l rt _ =>
      if decide (e = email) then node
      else if String.ltb email e then _search l email
      else _search rt email
  end.

(** [node.role = new_role; node.permissions = new_permissions] on the
    node [_search] returns, seen from the root. *)
Fixpoint assign_role (node : AVLNode) (email new_role : string)
  (new_permissions : list string) : AVLNode :=
  match node with
  | Null => Null
  | Node e r p l rt h =>
      if decide (e = email) then Node e new_role new_permissions l rt h
      else if String.ltb email e
      then Node e r p (assign_role l email new_role new_permissions) rt h
      else Node e r p l (assign_role rt email new_role new_permissions) h
  end.

(** [f"{node.email} ({node.role}): {', '.join(node.permissions)}"] *)
Definition role_line (email role : string) (permissions : list string) : string :=
  (email ++ " (" ++ role ++ "): " ++ String.concat ", " permissions)%string.

Fixpoint _postorder_traversal (node : AVLNode) (result : list string) : list string :=
  match node with
  | Null => result
  | Node e r p l rt _ =>
      _postorder_traversal rt (_postorder_traversal l result) ++ [role_line e r p]
  end.

(** The document of [_serialize]; [DNull] is JSON [null]. *)
Inductive role_doc :=
  | DNull
  | DNode (email role : string) (permissions : list string)
          (left right : role_doc) (height : Z).

Fixpoint _serialize (node : AVLNode) : role_doc :=
  match node with
  | Null => DNull
  | Node e r p l rt h => DNode e r p (_serialize l) (_serialize rt) h
  end.

Fixpoint _deserialize (data : role_doc) : AVLNode :=
  match data with
  | DNull => Null
  | DNode e r p l rt h => Node e r p (_deserialize l) (_deserialize rt) h
  end.

(** [class RoleManager]; [file] is the content of [roles.json], if it
    exists. *)
Record manager := mkManager {
  root : AVLNode;
  file : option role_doc
}.

Definition save (self : manager) : manager :=
  {| root := root self; file := Some (_serialize (root self)) |}.

Definition load (self : manager) : manager :=
  match file self with
  | Some data => {| root := _deserialize data; file := file self |}
  | None => self
  end.

Definition __init__ (store : option role_doc) : manager :=
  load {| root := Null; file := store |}.

Definition add_role (self : manager) (email role : string)
  (permissions : list string) : outcome manager :=
  root' ← _insert (root self) email role permissions;
  Ok (save {| root := root'; file := file self |}).

Definition update_role (self : manager) (email new_role : string)
  (new_permissions : list string) : manager :=
  match _search (root self) email with
  | Null => self
  | Node _ _ _ _ _ _ =>
      save {| root := assign_role (root self) email new_role new_permissions;
              file := file self |}
  end.

Definition remove_role (self : manager) (email : string) : outcome manager :=
  root' ← _delete_node (root self) email;
  Ok (save {| root := root'; file := file self |}).

Definition show_role (self : manager) (email : string)
  : option (string * list string) :=
  match _search (root self) email with
  | Null => None
  | Node _ r p _ _ _ => Some (r, p)
  end.

(** [check_permission] returns [node and action in node.permissions]:
    [None] when no node is found, a boolean otherwise. *)
Definition check_permission (self : manager) (email action : string)
  : option bool :=
  match _search (root self) email with
  | Null => None
  | Node _ _ p _ _ _ => Some (bool_decide (action ∈ p))
  end.

Definition list_roles_postorder (self : manager) : list string :=
  _postorder_traversal (root self) [].

(** The children of a node and the entry it holds. *)
Definition n_left (node : AVLNode) : AVLNode :=
  match node with
  | Null => Null
  | Node _ _ _ l _ _ => l
  end.

Definition n_right (node : AVLNode) : AVLNode :=
  match node with
  | Null => Null
  | Node _ _ _ _ rt _ => rt
  end.

Definition n_entry (node : AVLNode) : option (string * (string * list string)) :=
  match node with
  | Null => None
  | Node e r p _ _ _ => Some (e, (r, p))
  end.

(** The stored heights of the tree, left to right. *)
Fixpoint heights (node : AVLNode) : list Z :=
  match node with
  | Null => []
  | Node _ _ _ l rt h => heights l ++ h :: heights rt
  end.

(** The entries of the tree, left to right. *)
Fixpoint entries (node : AVLNode) : list (string * (string * list string)) :=
  match node with
  | Null => []
  | Node e r p l rt _ => entries l ++ (e, (r, p)) :: entries rt
  end.

Definition emails (node : AVLNode) : list string := (entries node).*1.

Definition in_range (lo hi : option string) (x : string) : bool :=
  match lo with Some l => String.ltb l x | None => true end &&
  match hi with Some h => String.ltb x h | None => true end.

(** The AVL shape: the emails ascend from left to right within the
    bounds, every node stores one more than the larger height of its
    children, and these two heights differ by one at most. *)
Fixpoint avl (lo hi : option string) (node : AVLNode) : bool :=
  match node with
  | Null => true
  | Node e _ _ l rt h =>
      in_range lo hi e && avl lo (Some e) l && avl (Some e) hi rt &&
      (h =? 1 + Z.max (_height l) (_height rt))%Z &&
      (-1 <=? _height l - _height rt)%Z && (_height l - _height rt <=? 1)%Z
  end.

(** The shape of a subtree an insertion of [email] has made higher: the
    new leaf, or a node whose higher side is the side of [email]. *)
Definition grown (email : string) (node : AVLNode) : Prop :=
  match node with
  | Null => False
  | Node e _ _ l rt _ =>
      (l = Null ∧ rt = Null) ∨
      (String.ltb email e = true ∧ _height l = (_height rt + 1)%Z) ∨
      (String.ltb e email = true ∧ _height rt = (_height l + 1)%Z)
  end.

(** Adding a list of roles, one after the other. *)
Fixpoint add_all (self : manager) (l : list (string * (string * list string)))
  : outcome manager :=
  match l with
  | [] => Ok self
  | (email, (role, permissions)) :: l' =>
      self' ← add_role self email role permissions; add_all self' l'
  end.

(** Three roles added to an empty store. *)
Definition sample : manager :=
  match add_all (__init__ None)
          [("ana@x.org", ("admin", ["read"; "write"; "merge"]));
           ("bo@x.org", ("dev", ["read"; "write"]));
           ("cy@x.org", ("guest", ["read"]))] with
  | Ok self => self
  | _ => __init__ None
  end.

End RoleManager.
(** * Proofs *)

(** ** Test vectors

    The three SHA-1 vectors of FIPS 180, and the rendering of a
    dictionary by [str]. *)

Example sha1_empty :
  Sha1.hexdigest (encode "") = "da39a3ee5e6b4b0d3255bfef95601890afd80709".
Proof. vm_compute. reflexivity. Qed.

Example sha1_abc :
  Sha1.hexdigest (encode "abc") = "a9993e364706816aba3e25717850c26c9cd0d89d".
Proof. vm_compute. reflexivity. Qed.

Example sha1_two_blocks :
  Sha1.hexdigest
    (encode "abcdbcdecdefdefgefghfghighijhijkijkljklmklmnlmnomnopnopq")
  = "84983e441c3bd26ebaae4aa1f95129e5e54670f1".
Proof. vm_compute. reflexivity. Qed.

Example str_dict_sample :
  str_dict sample_printable [("a.txt", PyStr "1"); ("it's", PyNone);
            ("tab", PyStr (String (ascii_of_nat 9) "\"))]
  = "{'a.txt': '1', " +:+ String dquote "it's" +:+ String dquote ": None, 'tab': '\t\\'}".
Proof. vm_compute. reflexivity. Qed.

Example short_hash_sample :
  short_hash sample_printable [] = "bf21a9e" ∧
  short_hash sample_printable
    [("a.txt", PyStr "1"); ("b.txt", PyStr "2"); ("c.txt", PyStr "3")] = "13ff487".
Proof. split; vm_compute; reflexivity. Qed.

(** Text beyond ASCII: under every table that has U+00E9 and U+1F600
    printable and U+0080, U+00A0, U+00AD, U+200B and U+E0001 not, as
    the Unicode database has them, the code points that are not
    printable are written as escapes, and the identifier is the one
    [hashlib] gives for that rendering. *)
Lemma str_dict_unicode (isprintable : N → bool) :
  isprintable 233%N = true → isprintable 128512%N = true →
  isprintable 128%N = false → isprintable 160%N = false →
  isprintable 173%N = false → isprintable 8203%N = false →
  isprintable 917505%N = false →
  str_dict isprintable unicode_files
  = "{'nbsp': 'a\xa0b', 'z': '\u200b', 'x': '\U000e0001', 'k': '"
      +:+ of_bytes [195; 169] +:+ "', 'e': '" +:+ of_bytes [240; 159; 152; 128]
      +:+ "', 's': '\x7f\x80\xad'}" ∧
  short_hash isprintable unicode_files = "994d706".
Proof.
  intros H1 H2 H3 H4 H5 H6 H7.
  assert (str_dict isprintable unicode_files
          = "{'nbsp': 'a\xa0b', 'z': '\u200b', 'x': '\U000e0001', 'k': '"
              +:+ of_bytes [195; 169] +:+ "', 'e': '" +:+ of_bytes [240; 159; 152; 128]
              +:+ "', 's': '\x7f\x80\xad'}") as Hstr.
  { vm_compute. rewrite H1, H2, H3, H4, H5, H6, H7. reflexivity. }
  split; [exact Hstr|]. unfold short_hash. rewrite Hstr. vm_compute. reflexivity.
Qed.

Example list_branches_sample :
  list_branches_preorder 3 sample_manager = Ok ["main"; "  a"; "    x"; "  x"].
Proof. vm_compute. reflexivity. Qed.


(** ** The outcome monad *)

Lemma bind_Ok {A B} (m : outcome A) (f : A → outcome B) (b : B) :
  bind m f = Ok b ↔ ∃ a, m = Ok a ∧ f a = Ok b.
Proof.
  destruct m; simpl; split; try (intros (? & ? & ?)); try discriminate; eauto.
  intros; simplify_eq; done.
Qed.

Lemma deref_Ok h l n : deref h l = Ok n ↔ h !! l = Some n.
Proof. unfold deref. destruct (h !! l); split; intros; simplify_eq; done. Qed.

Lemma deref_lookup h l n : h !! l = Some n → deref h l = Ok n.
Proof. apply deref_Ok. Qed.

(** ** Shapes *)

Lemma shape_ind' (P : shape → Prop) :
  (∀ l nm kids, Forall P kids → P (Shape l nm kids)) → ∀ t, P t.
Proof.
  intros step. fix IH 1. intros [l nm kids]. apply step.
  induction kids as [|k kids IHk]; constructor; [apply IH | apply IHk].
Qed.

Lemma tree_at_unfold h l nm kids :
  tree_at h (Shape l nm kids) ↔
  (∃ n, h !! l = Some n ∧ name n = nm ∧ children n = sloc <$> kids) ∧
  Forall (tree_at h) kids.
Proof.
  simpl. apply and_iff_compat_l.
  induction kids as [|k kids IH]; [by split; [constructor|] |].
  rewrite Forall_cons. by rewrite IH.
Qed.

Lemma depth_unfold l nm kids :
  depth (Shape l nm kids) = S (max_list (depth <$> kids)).
Proof.
  simpl. f_equal. induction kids as [|k kids IH]; simpl; [done|]. by rewrite IH.
Qed.

Lemma depth_kid l nm kids k :
  k ∈ kids → depth k < depth (Shape l nm kids).
Proof.
  intros Hk. rewrite depth_unfold.
  assert (depth k ≤ max_list (depth <$> kids)); [|lia].
  apply max_list_elem_of_le, list_elem_of_fmap. eauto.
Qed.

Lemma depth_pos t : 0 < depth t.
Proof. destruct t. rewrite depth_unfold. lia. Qed.

Lemma has_name_unfold nm l nm' kids :
  has_name nm (Shape l nm' kids) =
  bool_decide (nm' = nm) || existsb (has_name nm) kids.
Proof.
  simpl. f_equal; try (induction kids as [|k kids IH]; simpl; [done|]; by rewrite IH).
Qed.

Lemma post_find_unfold nm l nm' kids :
  post_find nm (Shape l nm' kids) =
  match first_some (post_find nm) kids with
  | Some r => Some r
  | None => if decide (nm' = nm) then Some l else None
  end.
Proof.
  simpl.
  replace (first_some (post_find nm) kids) with
    ((fix first (ks : list shape) : option loc :=
        match ks with
        | [] => None
        | k :: ks' =>
            match post_find nm k with
            | Some r => Some r
            | None => first ks'
            end
        end) kids); [done|].
  induction kids as [|k kids IH]; simpl; [done|]. by rewrite IH.
Qed.

Lemma pre_find_unfold nm l nm' kids :
  pre_find nm (Shape l nm' kids) =
  if decide (nm' = nm) then Some l else first_some (pre_find nm) kids.
Proof.
  simpl. destruct (decide (nm' = nm)); [done|].
  induction kids as [|k kids IH]; simpl; [done|]. by rewrite IH.
Qed.

Lemma subtree_trans s t u : subtree s t → subtree t u → subtree s u.
Proof.
  intros Hst Htu. induction Htu; [done|]. eapply subtree_below; eauto.
Qed.

Lemma subtree_tree_at h s t : subtree s t → tree_at h t → tree_at h s.
Proof.
  induction 1 as [|l nm kids k Hk Hs IH]; [done|].
  rewrite tree_at_unfold. intros [_ Hkids].
  apply IH. by eapply Forall_forall in Hkids.
Qed.

Lemma subtree_depth s t : subtree s t → depth s ≤ depth t.
Proof.
  induction 1 as [|l nm kids k Hk Hs IH]; [done|].
  pose proof (depth_kid l nm kids k Hk). lia.
Qed.

(** ** The searches on a store that holds a tree *)

Lemma first_found_shapes (f : loc → outcome (option loc)) (g : shape → option loc) kids :
  Forall (λ k, f (sloc k) = Ok (g k)) kids →
  first_found f (sloc <$> kids) = Ok (first_some g kids).
Proof.
  induction 1 as [|k kids Hk _ IH]; simpl; [done|].
  rewrite Hk. simpl. by destruct (g k).
Qed.

Lemma find_branch_postorder_shape h nm t :
  ∀ fuel, tree_at h t → depth t ≤ fuel →
  _find_branch_postorder fuel h (sloc t) nm = Ok (post_find nm t).
Proof.
  induction t as [l nm' kids IH] using shape_ind'.
  intros fuel [(n & Hn & Hnm & Hch) Hkids]%tree_at_unfold Hd.
  destruct fuel as [|fuel]; [pose proof (depth_pos (Shape l nm' kids)); lia|].
  simpl sloc. simpl _find_branch_postorder.
  rewrite (deref_lookup _ _ _ Hn). simpl bind. rewrite Hch.
  rewrite (first_found_shapes _ (post_find nm)).
  - rewrite post_find_unfold. simpl. destruct (first_some _ _); [done|].
    rewrite Hnm. by destruct (decide _).
  - apply Forall_forall. intros k Hk.
    eapply Forall_forall in IH; [|done]. apply IH.
    + by eapply Forall_forall in Hkids.
    + pose proof (depth_kid l nm' kids k Hk). lia.
Qed.

Lemma dfs_loop_shapes f (g : shape → option loc) self kids :
  Forall (λ k, f self (sloc k) = Ok (moved self (g k))) kids →
  dfs_loop f self (sloc <$> kids) = Ok (moved self (first_some g kids)).
Proof.
  induction 1 as [|k kids Hk _ IH]; simpl; [done|].
  rewrite Hk. destruct (g k); simpl; [done|]. apply IH.
Qed.

Lemma spec_plain_dfs_shape self nm t :
  ∀ fuel, tree_at (heap self) t → depth t ≤ fuel →
  spec_plain_dfs fuel self (sloc t) nm = Ok (moved self (pre_find nm t)).
Proof.
  induction t as [l nm' kids IH] using shape_ind'.
  intros fuel [(n & Hn & Hnm & Hch) Hkids]%tree_at_unfold Hd.
  destruct fuel as [|fuel]; [pose proof (depth_pos (Shape l nm' kids)); lia|].
  simpl sloc. simpl spec_plain_dfs.
  rewrite (deref_lookup _ _ _ Hn). simpl bind.
  rewrite pre_find_unfold, Hnm. destruct (decide _); [done|].
  rewrite Hch. apply dfs_loop_shapes.
  apply Forall_forall. intros k Hk.
  eapply Forall_forall in IH; [|done]. apply IH.
  - by eapply Forall_forall in Hkids.
  - pose proof (depth_kid l nm' kids k Hk). lia.
Qed.

(** ** The deferred last child *)

Lemma dfs_loop_ext f g self l :
  (∀ s c, f s c = g s c) → dfs_loop f self l = dfs_loop g self l.
Proof.
  intros Hfg. revert self. induction l as [|c l IH]; intros self; simpl; [done|].
  rewrite Hfg. destruct (g self c) as [[[] s]| |]; simpl; auto.
Qed.

Lemma dfs_loop_cons f self c l :
  dfs_loop f self (c :: l) =
  ('(found, self') ← f self c;
   if found then Ok (true, self') else dfs_loop f self' l).
Proof. done. Qed.

Lemma checkout_loop_dfs f l :
  ∀ k self,
  checkout_loop f (k + length l) self (zip (seq k (length l)) l)
  = dfs_loop f self (removelast l).
Proof.
  induction l as [|x [|y l] IH]; intros k self; [done| |].
  - simpl. replace (k + 1 - 1) with k by lia.
    by rewrite (proj2 (Nat.ltb_ge k k)) by lia.
  - simpl length. simpl zip. simpl removelast.
    cbn [checkout_loop dfs_loop].
    rewrite (proj2 (Nat.ltb_lt k (k + S (S (length l)) - 1))) by lia.
    destruct (f self x) as [[[] s]| |]; simpl bind; [done| |done|done].
    specialize (IH (S k) s). simpl length in IH. simpl zip in IH.
    replace (S k + S (length l)) with (k + S (S (length l))) in IH by lia.
    apply IH.
Qed.

Lemma dfs_loop_last f l :
  ∀ self,
  dfs_loop f self l =
  ('(found, self') ← dfs_loop f self (removelast l);
   if found then Ok (true, self')
   else match last l with
        | Some c => f self' c
        | None => Ok (false, self')
        end).
Proof.
  induction l as [|x [|y l] IH]; intros self; [done| |].
  - simpl. by destruct (f self x) as [[[] s]| |].
  - change (removelast (x :: y :: l)) with (x :: removelast (y :: l)).
    change (last (x :: y :: l)) with (last (y :: l)).
    rewrite !(dfs_loop_cons f _ x).
    destruct (f self x) as [[[] s]| |]; simpl bind; [done| |done|done].
    apply IH.
Qed.

Lemma checkout_inorder_plain_dfs nm :
  ∀ fuel self node,
  _checkout_inorder fuel self node nm = spec_plain_dfs fuel self node nm.
Proof.
  induction fuel as [|fuel IH]; intros self node; [done|].
  simpl. destruct (deref (heap self) node) as [n| |]; simpl; [|done|done].
  destruct (decide _); [done|].
  unfold enumerate.
  rewrite (checkout_loop_dfs _ (children n) 0 self).
  rewrite (dfs_loop_last _ (children n)).
  rewrite (dfs_loop_ext _ (λ s child, spec_plain_dfs fuel s child nm)) by done.
  destruct (dfs_loop _ _ _) as [[[] s]| |]; simpl; [done| |done|done].
  destruct (last (children n)); [apply IH|done].
Qed.

(** ** What the postorder search answers *)

Lemma first_some_None {A B} (f : A → option B) l :
  first_some f l = None ↔ Forall (λ x, f x = None) l.
Proof.
  induction l as [|x l IH]; simpl; [by split; [constructor|] |].
  rewrite Forall_cons. destruct (f x); [|by rewrite IH; intuition].
  split; [done|]. by intros [? _].
Qed.

Lemma first_some_Some {A B} (f : A → option B) l r :
  first_some f l = Some r → ∃ x, x ∈ l ∧ f x = Some r.
Proof.
  induction l as [|x l IH]; simpl; [done|].
  destruct (f x) eqn:Hx.
  - intros [= ->]. exists x. split; [left|done].
  - intros (y & Hy & Hfy)%IH. exists y. split; [by right|done].
Qed.

Lemma first_some_skip {A B} (f : A → option B) pre l :
  Forall (λ x, f x = None) pre → first_some f (pre ++ l) = first_some f l.
Proof. induction 1 as [|x pre Hx _ IH]; simpl; [done|]. by rewrite Hx. Qed.

Lemma existsb_false {A} (f : A → bool) l :
  existsb f l = false ↔ Forall (λ x, f x = false) l.
Proof.
  induction l as [|x l IH]; simpl; [by split; [constructor|] |].
  rewrite Forall_cons, orb_false_iff. by rewrite IH.
Qed.

Lemma post_find_None nm t : post_find nm t = None ↔ has_name nm t = false.
Proof.
  induction t as [l nm' kids IH] using shape_ind'.
  rewrite post_find_unfold, has_name_unfold, orb_false_iff, existsb_false.
  assert (first_some (post_find nm) kids = None ↔
          Forall (λ k, has_name nm k = false) kids) as Hkids.
  { rewrite first_some_None. rewrite !Forall_forall.
    rewrite Forall_forall in IH. split; intros H k Hk; apply IH; auto. }
  destruct (first_some _ _).
  - split; [done|]. intros [_ H]. by apply Hkids in H.
  - destruct (decide (nm' = nm)).
    + split; [done|]. intros [H _]. by apply bool_decide_eq_false in H.
    + split; [|done]. intros _. split; [by apply bool_decide_eq_false|].
      by apply Hkids.
Qed.

Lemma post_find_Some nm t : is_Some (post_find nm t) ↔ has_name nm t = true.
Proof.
  rewrite <-not_eq_None_Some, post_find_None. by destruct (has_name nm t).
Qed.

Lemma post_find_result nm t r :
  post_find nm t = Some r →
  ∃ s, subtree s t ∧ sloc s = r ∧ sname s = nm ∧
       Forall (λ k, has_name nm k = false) (skids s).
Proof.
  revert r. induction t as [l nm' kids IH] using shape_ind'. intros r.
  rewrite post_find_unfold. destruct (first_some _ _) as [r'|] eqn:Hfirst.
  - intros [= ->]. apply first_some_Some in Hfirst as (k & Hk & Hr).
    rewrite Forall_forall in IH.
    destruct (IH k Hk r Hr) as (s & Hs & ? & ? & ?).
    exists s. split; [by eapply subtree_below|done].
  - destruct (decide (nm' = nm)) as [->|]; [|done]. intros [= <-].
    exists (Shape l nm kids). split; [constructor|]. do 2 (split; [done|]).
    apply first_some_None in Hfirst. simpl.
    eapply Forall_impl; [done|]. intros k. apply post_find_None.
Qed.

Lemma post_find_chain nm t : chain t → post_find nm t = deepest_named nm t.
Proof.
  induction t as [l nm' kids IH] using shape_ind'.
  rewrite post_find_unfold. destruct kids as [|k [|k' kids]].
  - intros _. reflexivity.
  - intros Hk. apply Forall_inv in IH. simpl. rewrite (IH Hk).
    by destruct (deepest_named nm k).
  - intros [].
Qed.

(** C3: on a store that holds a tree, the postorder search answers from
    the first child subtree, in list order, that holds a node of that
    name; it compares the name of the node itself only when no child
    subtree holds one; the node it answers bears the name and has no
    descendant that does, so it is never an ancestor of another match;
    and on a chain (a single root-to-leaf path) it answers the deepest
    node of that name. *)
Theorem find_branch_postorder_first_match h t nm fuel :
  tree_at h t → depth t ≤ fuel →
  (∀ pre k post,
     skids t = pre ++ k :: post →
     Forall (λ s, has_name nm s = false) pre → has_name nm k = true →
     ∃ r s, _find_branch_postorder fuel h (sloc t) nm = Ok (Some r) ∧
            _find_branch_postorder fuel h (sloc k) nm = Ok (Some r) ∧
            subtree s k ∧ sloc s = r) ∧
  (Forall (λ s, has_name nm s = false) (skids t) →
     _find_branch_postorder fuel h (sloc t) nm
     = Ok (if decide (sname t = nm) then Some (sloc t) else None)) ∧
  (∃ res, _find_branch_postorder fuel h (sloc t) nm = Ok res ∧
     (is_Some res ↔ has_name nm t = true) ∧
     ∀ r, res = Some r →
       ∃ s, subtree s t ∧ sloc s = r ∧ sname s = nm ∧
            Forall (λ k, has_name nm k = false) (skids s)) ∧
  (chain t → _find_branch_postorder fuel h (sloc t) nm = Ok (deepest_named nm t)).
Proof.
  intros Ht Hd. rewrite (find_branch_postorder_shape h nm t fuel Ht Hd).
  destruct t as [l nm' kids]. simpl skids. simpl sname. simpl sloc.
  repeat split.
  - intros pre k post -> Hpre Hk.
    apply tree_at_unfold in Ht as [_ Hkids].
    assert (k ∈ pre ++ k :: post) as Hin by (apply elem_of_app; right; left).
    assert (tree_at h k) as Htk by (by eapply Forall_forall in Hkids).
    pose proof (depth_kid l nm' _ k Hin) as Hdk.
    rewrite (find_branch_postorder_shape h nm k fuel Htk) by lia.
    apply post_find_Some in Hk as [r Hr].
    destruct (post_find_result nm k r Hr) as (s & Hs & Hloc & _).
    exists r, s. rewrite post_find_unfold, first_some_skip.
    + simpl. rewrite Hr. done.
    + eapply Forall_impl; [done|]. intros s'. apply post_find_None.
  - intros Hkids. rewrite post_find_unfold.
    replace (first_some (post_find nm) kids) with (@None loc); [done|].
    symmetry. apply first_some_None.
    eapply Forall_impl; [done|]. intros s'. apply post_find_None.
  - eexists. split; [done|]. split; [apply post_find_Some|].
    apply post_find_result.
  - intros Hc. by rewrite post_find_chain.
Qed.

Lemma sample_heap_tree : tree_at sample_heap sample_shape.
Proof.
  simpl. repeat split; eexists; (split; [vm_compute; reflexivity|done]).
Defined.

Lemma find_branch_postorder_first_match_witness :
  ∃ res, _find_branch_postorder 3 sample_heap 0 "x" = Ok res ∧
     (is_Some res ↔ has_name "x" sample_shape = true) ∧
     ∀ r, res = Some r →
       ∃ s, subtree s sample_shape ∧ sloc s = r ∧ sname s = "x" ∧
            Forall (λ k, has_name "x" k = false) (skids s).
Proof.
  apply (find_branch_postorder_first_match sample_heap sample_shape "x" 3).
  - apply sample_heap_tree.
  - simpl. lia.
Defined.

Example find_branch_postorder_sample :
  _find_branch_postorder 3 sample_heap 0 "x" = Ok (Some 3).
Proof. vm_compute. reflexivity. Qed.

(** C7: on a store that holds a tree, the search of [checkout] with its
    deferred last child and the plain left-to-right depth-first search
    return the same answer and leave the same manager, hence the same
    [current]. *)
Theorem checkout_inorder_refines_plain_dfs fuel self t nm :
  tree_at (heap self) t → depth t ≤ fuel →
  ∃ found self',
    _checkout_inorder fuel self (sloc t) nm = Ok (found, self') ∧
    spec_plain_dfs fuel self (sloc t) nm = Ok (found, self') ∧
    heap self' = heap self ∧ root self' = root self ∧
    (found = false → self' = self).
Proof.
  intros Ht Hd. rewrite checkout_inorder_plain_dfs.
  rewrite (spec_plain_dfs_shape self nm t fuel Ht Hd).
  destruct (pre_find nm t) as [r|]; simpl.
  - exists true, (set_current self r). by repeat split.
  - exists false, self. by repeat split.
Qed.

Lemma checkout_inorder_refines_plain_dfs_witness :
  ∃ found self',
    _checkout_inorder 3 sample_manager 0 "x" = Ok (found, self') ∧
    spec_plain_dfs 3 sample_manager 0 "x" = Ok (found, self') ∧
    heap self' = heap sample_manager ∧ root self' = root sample_manager ∧
    (found = false → self' = sample_manager).
Proof.
  apply (checkout_inorder_refines_plain_dfs 3 sample_manager sample_shape "x").
  - apply sample_heap_tree.
  - simpl. lia.
Defined.

Example checkout_inorder_sample :
  _checkout_inorder 3 sample_manager 0 "x" = Ok (true, set_current sample_manager 3).
Proof. vm_compute. reflexivity. Qed.

(** ** Dictionaries *)

Lemma dict_lookup_set d k v k' :
  dict_lookup (dict_set d k v) k' =
  if decide (k = k') then Some v else dict_lookup d k'.
Proof.
  induction d as [|[k0 v0] d IH]; simpl.
  - by destruct (decide (k = k')).
  - destruct (decide (k0 = k)) as [->|Hne]; simpl.
    + by destruct (decide (k = k')).
    + rewrite IH. destruct (decide (k0 = k')) as [->|]; [|done].
      by destruct (decide (k = k')).
Qed.

Lemma dict_lookup_None d k : dict_lookup d k = None ↔ k ∉ dict_keys d.
Proof.
  induction d as [|[k0 v0] d IH]; simpl.
  - split; [intros _; apply not_elem_of_nil|done].
  - rewrite not_elem_of_cons. destruct (decide (k0 = k)) as [->|].
    + split; [done|]. by intros [? _].
    + rewrite IH. split; [by split|by intros [_ ?]].
Qed.

Lemma dict_get_absent d k : k ∉ dict_keys d → dict_get d k = PyNone.
Proof. intros H%dict_lookup_None. unfold dict_get. by rewrite H. Qed.



Lemma diff_loop_lookup S T keys :
  ∀ d path,
  dict_lookup (foldl (diff_step S T) d keys) path =
  if decide (path ∈ keys ∧ dict_get S path ≠ dict_get T path)
  then Some (py_or (dict_get S path) (dict_get T path))
  else dict_lookup d path.
Proof.
  induction keys as [|k keys IH]; intros d path; [done|].
  cbn [foldl]. rewrite IH. unfold diff_step.
  { 
    destruct (decide (path ∈ keys ∧ dict_get S path ≠ dict_get T path))
      as [[Hin Hne]|Hno].
    + rewrite decide_True; [done|]. split; [by right|done].
    + destruct (decide (dict_get S k ≠ dict_get T k)) as [Hk|Hk].
      * rewrite dict_lookup_set. destruct (decide (k = path)) as [->|Hkp].
        -- rewrite decide_True; [done|]. split; [left|done].
        -- rewrite decide_False; [done|]. intros [[->|?]%elem_of_cons ?]; tauto.
      * destruct (decide (path ∈ k :: keys ∧ dict_get S path ≠ dict_get T path))
          as [[[->|?]%elem_of_cons ?]|]; [done|tauto|done]. }
Qed.

Lemma py_or_nonempty a b :
  py_or a b =
  match a with
  | PyStr c => if decide (c = "") then b else PyStr c
  | PyNone => b
  end.
Proof.
  unfold py_or. destruct a as [|c]; simpl; [done|].
  destruct (decide (c = "")); [by rewrite bool_decide_eq_true_2|].
  by rewrite bool_decide_eq_false_2.
Qed.


Lemma sample_iter_union a b x : x ∈ sample_iter a b ↔ x ∈ a ∨ x ∈ b.
Proof. unfold sample_iter. by rewrite elem_of_remove_dups, elem_of_app. Qed.


Example calculate_diff_sample :
  _calculate_diff sample_iter merge_heap 1 0
  = Ok [("c.txt", PyStr "3"); ("a.txt", PyStr "1"); ("b.txt", PyStr "2")].
Proof. vm_compute. reflexivity. Qed.

(** ** Saving a store that holds a tree *)

Lemma map_outcome_total {A B} (f : A → outcome B) l :
  Forall (λ x, ∃ y, f x = Ok y) l → ∃ ys, map_outcome f l = Ok ys.
Proof.
  induction 1 as [|x l [y Hy] _ [ys IH]]; simpl; [by eexists|].
  rewrite Hy, IH. simpl. by eexists.
Qed.

Lemma serialize_total h t :
  ∀ fuel, tree_at h t → depth t ≤ fuel → ∃ d, _serialize fuel h (sloc t) = Ok d.
Proof.
  induction t as [l nm kids IH] using shape_ind'.
  intros fuel [(n & Hn & Hnm & Hch) Hkids]%tree_at_unfold Hd.
  destruct fuel as [|fuel]; [pose proof (depth_pos (Shape l nm kids)); lia|].
  simpl. rewrite (deref_lookup _ _ _ Hn). simpl. rewrite Hch.
  destruct (map_outcome_total (_serialize fuel h) (sloc <$> kids)) as [ds Hds].
  - apply Forall_fmap, Forall_forall. intros k Hk. simpl.
    eapply Forall_forall in IH; [|done]. apply IH.
    + by eapply Forall_forall in Hkids.
    + pose proof (depth_kid l nm kids k Hk). lia.
  - rewrite Hds. simpl. by eexists.
Qed.

Lemma save_total fuel self t :
  tree_at (heap self) t → sloc t = root self → depth t ≤ fuel →
  ∃ data, save fuel self = Ok (set_file self (Some data)).
Proof.
  intros Ht Hroot Hd. unfold save. rewrite <-Hroot.
  destruct (serialize_total _ _ fuel Ht Hd) as [d ->]. by exists d.
Qed.

Lemma tree_at_same_links h h' t : same_links h h' → tree_at h t → tree_at h' t.
Proof.
  intros Hl. induction t as [l nm kids IH] using shape_ind'.
  rewrite !tree_at_unfold. intros [(n & Hn & Hnm & Hch) Hkids]. split.
  - destruct (Hl l n Hn) as (n' & Hn' & Hnm' & Hch').
    exists n'. by rewrite Hnm', Hch'.
  - rewrite Forall_forall in IH, Hkids. apply Forall_forall. auto.
Qed.

Lemma same_links_insert h l n n' :
  h !! l = Some n → name n' = name n → children n' = children n →
  same_links h (<[l := n']> h).
Proof.
  intros Hn Hnm Hch l0 n0 Hn0. destruct (decide (l = l0)) as [<-|Hne].
  - rewrite lookup_insert_eq. simplify_eq. by exists n'.
  - rewrite lookup_insert_ne by done. by exists n0.
Qed.

(** ** Merge *)

Lemma merge_unfold (iter : list string → list string → list string)
    (isprintable : N → bool)
    fuel self source_name src s cur :
  _find_branch_postorder fuel (heap self) (root self) source_name = Ok (Some src) →
  heap self !! src = Some s → heap self !! current self = Some cur →
  merge iter isprintable fuel self source_name =
  save fuel
    (set_heap self
       (<[current self :=
            set_commits cur
              (commits cur ++
               [full_commit isprintable cur (merge_diff iter s cur);
                marker_commit isprintable source_name cur (merge_diff iter s cur)])]> (heap self))).
Proof.
  intros Hfind Hs Hcur. unfold merge. rewrite Hfind. simpl.
  unfold _calculate_diff, _apply_merge.
  rewrite (deref_lookup _ _ _ Hs), (deref_lookup _ _ _ Hcur). simpl.
  unfold deref. rewrite lookup_insert_eq. simpl.
  unfold append_commit, set_heap. simpl. rewrite insert_insert_eq.
  unfold set_commits. simpl. rewrite <-app_assoc. done.
Qed.

Lemma find_branch_postorder_live fuel h node nm r :
  _find_branch_postorder fuel h node nm = Ok (Some r) → is_Some (h !! r).
Proof.
  revert node r. induction fuel as [|fuel IH]; intros node r; [done|].
  simpl. destruct (deref h node) as [n| |] eqn:Hn; simpl; [|done|done].
  apply deref_Ok in Hn.
  assert (∀ l res, first_found (λ child, _find_branch_postorder fuel h child nm) l
                   = Ok (Some res) → is_Some (h !! res)) as Hloop.
  { induction l as [|c l IHl]; intros res; simpl; [done|].
    destruct (_find_branch_postorder fuel h c nm) as [[r'|]| |] eqn:Hc;
      simpl; try done.
    - intros [= <-]. by eapply IH.
    - apply IHl. }
  destruct (first_found _ _) as [[r'|]| |] eqn:Hf; simpl; try done.
  - intros [= <-]. by eapply Hloop.
  - destruct (decide _); [|done]. intros [= <-]. by eexists.
Qed.

Lemma merge_Ok_inv (iter : list string → list string → list string)
    (isprintable : N → bool)
    fuel self source_name self' :
  merge iter isprintable fuel self source_name = Ok self' →
  ∃ src s cur,
    _find_branch_postorder fuel (heap self) (root self) source_name = Ok (Some src) ∧
    heap self !! src = Some s ∧ heap self !! current self = Some cur ∧
    root self' = root self ∧ current self' = current self ∧
    heap self' =
      <[current self :=
          set_commits cur
            (commits cur ++
             [full_commit isprintable cur (merge_diff iter s cur);
              marker_commit isprintable source_name cur (merge_diff iter s cur)])]> (heap self).
Proof.
  intros Hm.
  destruct (_find_branch_postorder fuel (heap self) (root self) source_name)
    as [[src|]| |] eqn:Hfind;
    try (unfold merge in Hm; rewrite Hfind in Hm; simpl in Hm; discriminate).
  destruct (find_branch_postorder_live _ _ _ _ _ Hfind) as [s Hs].
  destruct (heap self !! current self) as [cur|] eqn:Hcur.
  - rewrite (merge_unfold iter isprintable fuel self source_name src s cur Hfind Hs Hcur) in Hm.
    unfold save in Hm. apply bind_Ok in Hm as (data & _ & [= <-]).
    exists src, s, cur. by repeat split.
  - unfold merge in Hm. rewrite Hfind in Hm. simpl in Hm.
    unfold _calculate_diff, deref in Hm. rewrite Hs, Hcur in Hm. discriminate.
Qed.

(** C1 as the code has it: when the source branch is found, [merge]
    appends two commits to the log of the current branch, first the
    commit built from the full merged table (message "Merge commit"),
    then the marker commit (message "Merge <source> into <current>",
    files and hash from the diff); nothing else in the store changes. *)
Theorem merge_appends_both_commits (iter : list string → list string → list string)
    (isprintable : N → bool)
    fuel self t source_name src s cur :
  tree_at (heap self) t → sloc t = root self → depth t ≤ fuel →
  _find_branch_postorder fuel (heap self) (root self) source_name = Ok (Some src) →
  heap self !! src = Some s → heap self !! current self = Some cur →
  ∃ self' diff,
    merge iter isprintable fuel self source_name = Ok self' ∧
    _calculate_diff iter (heap self) src (current self) = Ok diff ∧
    root self' = root self ∧ current self' = current self ∧
    heap self' =
      <[current self :=
          set_commits cur
            (commits cur ++
             [ {| id := short_hash isprintable (dict_update (latest_files cur) diff);
                  message := "Merge commit";
                  files := dict_update (latest_files cur) diff |};
               {| id := short_hash isprintable diff;
                  message := "Merge " +:+ source_name +:+ " into " +:+ name cur;
                  files := diff |} ])]> (heap self).
Proof.
  intros Ht Hroot Hd Hfind Hs Hcur.
  rewrite (merge_unfold iter isprintable fuel self source_name src s cur Hfind Hs Hcur).
  edestruct (save_total fuel) as [data Hsave]; [| |done|].
  3:{ eexists _, (merge_diff iter s cur). split; [exact Hsave|].
      split; [|by repeat split].
      unfold _calculate_diff.
      by rewrite (deref_lookup _ _ _ Hs), (deref_lookup _ _ _ Hcur). }
  - simpl. eapply tree_at_same_links; [|done].
    by apply (same_links_insert _ _ cur).
  - done.
Qed.

Lemma merge_appends_both_commits_witness :
  ∃ self' diff,
    merge sample_iter sample_printable 2 merge_manager "feature" = Ok self' ∧
    _calculate_diff sample_iter (heap merge_manager) 1 (current merge_manager) = Ok diff ∧
    root self' = root merge_manager ∧ current self' = current merge_manager ∧
    heap self' =
      <[current merge_manager :=
          set_commits (mkBranchNode "main" None [1] [mkCommit "0000001" "first" main_files])
            ([mkCommit "0000001" "first" main_files] ++
             [ {| id := short_hash sample_printable (dict_update main_files diff);
                  message := "Merge commit";
                  files := dict_update main_files diff |};
               {| id := short_hash sample_printable diff;
                  message := "Merge " +:+ "feature" +:+ " into " +:+ "main";
                  files := diff |} ])]> (heap merge_manager).
Proof.
  apply (merge_appends_both_commits sample_iter sample_printable 2 merge_manager merge_shape "feature" 1
           (mkBranchNode "feature" (Some 0) [] [mkCommit "0000002" "second" feature_files])
           (mkBranchNode "main" None [1] [mkCommit "0000001" "first" main_files])).
  - simpl. repeat split; eexists; (split; [vm_compute; reflexivity|done]).
  - reflexivity.
  - simpl. lia.
  - vm_compute. reflexivity.
  - vm_compute. reflexivity.
  - vm_compute. reflexivity.
Defined.

(** C1 fails on the code: the marker commit is stored.  Merging
    [feature] into [main] leaves three commits in the log of [main], the
    last of them the marker. *)
Lemma merge_stores_marker_commit :
  current_log (Ok merge_manager) = Some [mkCommit "0000001" "first" main_files] ∧
  current_log (merge sample_iter sample_printable 2 merge_manager "feature") =
    Some [mkCommit "0000001" "first" main_files;
          mkCommit "13ff487" "Merge commit"
            [("a.txt", PyStr "1"); ("b.txt", PyStr "2"); ("c.txt", PyStr "3")];
          mkCommit "e668ecb" "Merge feature into main"
            [("c.txt", PyStr "3"); ("a.txt", PyStr "1"); ("b.txt", PyStr "2")]].
Proof. split; vm_compute; reflexivity. Qed.

(** ** Commit identifiers *)

Lemma hex_digit_land x : Sha1.hex_digit (Z.land x 15) ∈ hex_digits.
Proof.
  unfold Sha1.hex_digit. apply list_elem_of_In, nth_In.
  change 15%Z with (Z.ones 4). rewrite Z.land_ones by lia.
  pose proof (Z.mod_pos_bound x (2 ^ 4) ltac:(lia)).
  change (length _) with 16. lia.
Qed.

Lemma short_hash_digits (isprintable : N → bool) d :
  ∃ a, short_hash isprintable d =
       String.string_of_list_ascii
         ((λ i, Sha1.hex_digit (Z.land (Z.shiftr a (4 * i)) 15))
            <$> [7; 6; 5; 4; 3; 2; 1]%Z).
Proof.
  unfold short_hash, Sha1.hexdigest.
  destruct (Sha1.digest _) as [a b c e f]. exists a. reflexivity.
Qed.

Lemma short_hash_length (isprintable : N → bool) d : String.length (short_hash isprintable d) = 7.
Proof. destruct (short_hash_digits isprintable d) as [a ->]. reflexivity. Qed.

Lemma short_hash_hex (isprintable : N → bool) d : hex_string (short_hash isprintable d).
Proof.
  destruct (short_hash_digits isprintable d) as [a ->]. unfold hex_string.
  rewrite String.list_ascii_of_string_of_list_ascii.
  apply Forall_fmap, Forall_forall. intros i _. apply hex_digit_land.
Qed.

(** C10 as the code has it: the identifier of each commit that [merge]
    stores is the first 7 hexadecimal characters of the SHA-1 digest of
    [str] of its file table, the rendering of the dictionary in
    insertion order, with [repr] of every key and value; tables with
    the same rendering get the same identifier.  This holds whatever
    the code points are that the interpreter takes as printable. *)
Theorem merge_commit_ids_hash_str (iter : list string → list string → list string)
    (isprintable : N → bool) fuel self source_name self' :
  merge iter isprintable fuel self source_name = Ok self' →
  ∃ cur c1 c2,
    heap self !! current self = Some cur ∧
    current_log (Ok self') = Some (commits cur ++ [c1; c2]) ∧
    Forall (λ c,
      id c = string_take 7 (Sha1.hexdigest (encode (str_dict isprintable (files c)))) ∧
      String.length (id c) = 7 ∧ hex_string (id c) ∧
      ∀ d, str_dict isprintable d = str_dict isprintable (files c) →
           short_hash isprintable d = id c) [c1; c2].
Proof.
  intros (src & s & cur & _ & _ & Hcur & _ & Hc & Hheap)%merge_Ok_inv.
  exists cur, (full_commit isprintable cur (merge_diff iter s cur)),
    (marker_commit isprintable source_name cur (merge_diff iter s cur)).
  split; [done|]. split.
  { unfold current_log, current_node. rewrite Hc, Hheap, lookup_insert_eq. done. }
  repeat constructor; simpl;
    try apply short_hash_length; try apply short_hash_hex;
    intros d Hd; unfold short_hash; by rewrite Hd.
Qed.

Lemma merge_commit_ids_hash_str_witness :
  ∃ cur c1 c2,
    heap merge_manager !! current merge_manager = Some cur ∧
    current_log (Ok merged_manager) = Some (commits cur ++ [c1; c2]) ∧
    Forall (λ c,
      id c = string_take 7
               (Sha1.hexdigest (encode (str_dict sample_printable (files c)))) ∧
      String.length (id c) = 7 ∧ hex_string (id c) ∧
      ∀ d, str_dict sample_printable d = str_dict sample_printable (files c) →
           short_hash sample_printable d = id c) [c1; c2].
Proof.
  apply (merge_commit_ids_hash_str sample_iter sample_printable 2 merge_manager
           "feature" merged_manager).
  vm_compute. reflexivity.
Defined.

(** C10 fails on the code: two file tables with the same entries, the
    keys inserted in a different order, get different identifiers for
    the commit that [merge] builds from them. *)
Lemma merge_commit_id_depends_on_insertion_order :
  main_files ≡ₚ main_files_swapped ∧
  (∀ path, dict_lookup main_files path = dict_lookup main_files_swapped path) ∧
  current_log (merge sample_iter sample_printable 1 (table_manager main_files) "main") =
    Some [mkCommit "0000001" "first" main_files;
          mkCommit "d01ea65" "Merge commit" main_files;
          mkCommit "bf21a9e" "Merge main into main" []] ∧
  current_log (merge sample_iter sample_printable 1 (table_manager main_files_swapped) "main") =
    Some [mkCommit "0000001" "first" main_files_swapped;
          mkCommit "b849e21" "Merge commit" main_files_swapped;
          mkCommit "bf21a9e" "Merge main into main" []].
Proof.
  split; [apply perm_swap|]. split.
  { intros path. simpl. repeat case_decide; congruence. }
  split; vm_compute; reflexivity.
Qed.

(** ** Creating a branch *)

Lemma graft_unfold cur new nm l nm' kids :
  graft cur new nm (Shape l nm' kids) =
  Shape l nm' (if decide (l = cur)
               then (graft cur new nm <$> kids) ++ [Shape new nm []]
               else graft cur new nm <$> kids).
Proof. reflexivity. Qed.

Lemma graft_sloc cur new nm t : sloc (graft cur new nm t) = sloc t.
Proof. by destruct t. Qed.

Lemma max_list_snoc l x : max_list (l ++ [x]) = max_list l `max` x.
Proof.
  induction l as [|y l IH]; simpl; unfold Datatypes.id in *; [lia|].
  rewrite IH. lia.
Qed.

Lemma graft_depth cur new nm t : depth (graft cur new nm t) ≤ S (depth t).
Proof.
  induction t as [l nm' kids IH] using shape_ind'.
  rewrite graft_unfold, !depth_unfold.
  assert (max_list (depth <$> (graft cur new nm <$> kids)) ≤ S (max_list (depth <$> kids)))
    as Hkids.
  { induction IH as [|k kids Hk _ IHk]; [simpl; lia|].
    rewrite !fmap_cons. cbn [max_list]. unfold Datatypes.id in *. lia. }
  destruct (decide (l = cur)); [|lia].
  rewrite fmap_app. change (depth <$> [Shape new nm []]) with [1].
  rewrite max_list_snoc. lia.
Qed.

Lemma tree_at_graft h t cur cn new nm :
  tree_at h t → h !! cur = Some cn → h !! new = None →
  tree_at
    (<[cur := set_children cn (children cn ++ [new])]>
       (<[new := mkBranchNode nm (Some cur) [] []]> h))
    (graft cur new nm t).
Proof.
  intros Ht Hcur Hnew. assert (cur ≠ new) as Hne by congruence.
  induction t as [l nm' kids IH] using shape_ind'.
  apply tree_at_unfold in Ht as [(n & Hn & Hnm & Hch) Hkids].
  assert (l ≠ new) as Hl by congruence.
  assert (Forall (tree_at (<[cur := set_children cn (children cn ++ [new])]>
                             (<[new := mkBranchNode nm (Some cur) [] []]> h)))
            (graft cur new nm <$> kids)) as Hgkids.
  { apply Forall_fmap, Forall_forall. intros k Hk. simpl.
    rewrite Forall_forall in IH, Hkids. by apply IH; [|apply Hkids]. }
  assert (sloc <$> (graft cur new nm <$> kids) = sloc <$> kids) as Hlocs.
  { rewrite <-list_fmap_compose. apply list_fmap_ext. intros _ k _. apply graft_sloc. }
  rewrite graft_unfold. apply tree_at_unfold.
  destruct (decide (l = cur)) as [->|Hlc].
  - split.
    + rewrite lookup_insert_eq. eexists. split; [done|]. simplify_eq. simpl.
      split; [done|]. by rewrite fmap_app, Hlocs, Hch.
    + apply Forall_app. split; [done|]. constructor; [|constructor].
      apply tree_at_unfold. split; [|constructor].
      rewrite lookup_insert_ne, lookup_insert_eq by done. by eexists.
  - split; [|done].
    rewrite !lookup_insert_ne by done. exists n. by rewrite Hlocs.
Qed.

Lemma any_child_named_spec h nm l :
  Forall (λ c, is_Some (h !! c)) l →
  ∃ b, any_child_named h nm l = Ok b ∧
       (b = true ↔ ∃ c cn, c ∈ l ∧ h !! c = Some cn ∧ name cn = nm).
Proof.
  induction 1 as [|c l [cn Hc] _ (b & Hb & Hiff)]; simpl.
  - exists false. split; [done|]. split; [done|].
    intros (c & cn & Hin & _). by apply elem_of_nil in Hin.
  - rewrite (deref_lookup _ _ _ Hc). simpl.
    destruct (decide (name cn = nm)) as [Hnm|Hnm].
    + exists true. split; [done|]. split; [|done]. intros _.
      exists c, cn. split; [left|done].
    + exists b. split; [done|]. rewrite Hiff. split.
      * intros (c' & cn' & Hin & H'). exists c', cn'. split; [by right|done].
      * intros (c' & cn' & [->|Hin]%elem_of_cons & Hc' & Hnm').
        -- simplify_eq.
        -- by exists c', cn'.
Qed.

(** The two cases of [create_branch], on a store that holds a tree. *)
Lemma create_branch_cases fuel self t nm cur :
  tree_at (heap self) t → sloc t = root self → S (depth t) ≤ fuel →
  heap self !! current self = Some cur → children_live (heap self) cur →
  (has_child_named (heap self) cur nm →
   create_branch fuel self nm
   = Raise (ValueError ("Branch " +:+ nm +:+ " already exists"))) ∧
  (¬ has_child_named (heap self) cur nm →
   ∃ data,
     create_branch fuel self nm =
     Ok {| heap :=
             <[current self :=
                 set_children cur (children cur ++ [fresh (dom (heap self))])]>
               (<[fresh (dom (heap self)) :=
                    mkBranchNode nm (Some (current self)) [] []]> (heap self));
           root := root self; current := current self; file := Some data |}).
Proof.
  intros Ht Hroot Hd Hcur Hlive.
  destruct (any_child_named_spec (heap self) nm (children cur) Hlive)
    as (b & Hany & Hiff).
  unfold create_branch. rewrite (deref_lookup _ _ _ Hcur). simpl.
  rewrite Hany. simpl. split.
  - intros Hdup. apply Hiff in Hdup as ->. done.
  - intros Hdup. destruct b; [destruct Hdup; by apply Hiff|].
    assert (heap self !! fresh (dom (heap self)) = None) as Hnew.
    { apply not_elem_of_dom, is_fresh. }
    destruct (save_total fuel
      (set_heap self
         (<[current self :=
              set_children cur (children cur ++ [fresh (dom (heap self))])]>
            (<[fresh (dom (heap self)) :=
                 mkBranchNode nm (Some (current self)) [] []]> (heap self))))
      (graft (current self) (fresh (dom (heap self))) nm t)) as [data Hsave].
    + simpl. by apply tree_at_graft.
    + by rewrite graft_sloc.
    + pose proof (graft_depth (current self) (fresh (dom (heap self))) nm t). lia.
    + exists data. rewrite Hsave. done.
Qed.

Lemma lookup_after_create (h : gmap loc BranchNode) cur cn new nm l :
  h !! cur = Some cn → h !! new = None → is_Some (h !! l) →
  ∃ n n',
    h !! l = Some n ∧
    (<[cur := set_children cn (children cn ++ [new])]>
       (<[new := mkBranchNode nm (Some cur) [] []]> h)) !! l = Some n' ∧
    name n' = name n ∧ (l ≠ cur → n' = n).
Proof.
  intros Hcur Hnew [n Hn]. assert (l ≠ new) by congruence.
  destruct (decide (l = cur)) as [->|Hne].
  - rewrite lookup_insert_eq. simplify_eq. by eexists _, _.
  - rewrite !lookup_insert_ne by done. by exists n, n.
Qed.

Lemma classic_dup h cur nm :
  children_live h cur → has_child_named h cur nm ∨ ¬ has_child_named h cur nm.
Proof.
  intros Hlive. destruct (any_child_named_spec h nm (children cur) Hlive)
    as ([] & _ & Hiff).
  - left. by apply Hiff.
  - right. intros H. by apply Hiff in H.
Qed.

(** C8: [create_branch] raises its [ValueError] ("Branch ... already
    exists") exactly when a direct child of the current branch bears
    the name; otherwise it returns, having added under [current] a new
    node of that name with [current] as parent, no children and an empty
    commit log.  After that, the same name is refused under the same
    parent, and accepted under any other parent that has no such child. *)
Theorem create_branch_duplicate_among_siblings fuel self t nm cur :
  tree_at (heap self) t → sloc t = root self → depth t + 2 ≤ fuel →
  heap self !! current self = Some cur → children_live (heap self) cur →
  (has_child_named (heap self) cur nm ↔
   create_branch fuel self nm
   = Raise (ValueError ("Branch " +:+ nm +:+ " already exists"))) ∧
  (¬ has_child_named (heap self) cur nm →
   ∃ self' new,
     create_branch fuel self nm = Ok self' ∧
     heap self !! new = None ∧
     root self' = root self ∧ current self' = current self ∧
     heap self' =
       <[current self := set_children cur (children cur ++ [new])]>
         (<[new := mkBranchNode nm (Some (current self)) [] []]> (heap self)) ∧
     create_branch fuel self' nm
     = Raise (ValueError ("Branch " +:+ nm +:+ " already exists")) ∧
     ∀ p pn,
       p ≠ current self → heap self !! p = Some pn →
       children_live (heap self) pn → ¬ has_child_named (heap self) pn nm →
       ∃ self'', create_branch fuel (set_current self' p) nm = Ok self'').
Proof.
  intros Ht Hroot Hd Hcur Hlive.
  destruct (create_branch_cases fuel self t nm cur Ht Hroot ltac:(lia) Hcur Hlive)
    as [Hdup Hnew].
  split.
  { split; [done|]. intros Hraise.
    destruct (classic_dup (heap self) cur nm Hlive) as [|Hno]; [done|].
    destruct (Hnew Hno) as [data Hok]. congruence. }
  intros Hno. destruct (Hnew Hno) as [data Hok].
  set (new := fresh (dom (heap self))) in *.
  assert (heap self !! new = None) as Hfresh by apply not_elem_of_dom, is_fresh.
  set (h' := <[current self := set_children cur (children cur ++ [new])]>
               (<[new := mkBranchNode nm (Some (current self)) [] []]> (heap self))) in *.
  assert (current self ≠ new) as Hcn by congruence.
  assert (tree_at h' (graft (current self) new nm t)) as Ht'
    by by apply tree_at_graft.
  pose proof (graft_depth (current self) new nm t) as Hgd.
  assert (∀ l, is_Some (heap self !! l) → is_Some (h' !! l)) as Hmono.
  { intros l Hl.
    destruct (lookup_after_create (heap self) (current self) cur new nm l Hcur Hfresh Hl)
      as (n & n' & _ & Hn' & _). by eexists. }
  assert (h' !! new = Some (mkBranchNode nm (Some (current self)) [] [])) as Hnewl.
  { unfold h'. by rewrite lookup_insert_ne, lookup_insert_eq by done. }
  assert (h' !! current self = Some (set_children cur (children cur ++ [new])))
    as Hcur' by apply lookup_insert_eq.
  eexists _, new. split; [exact Hok|]. do 4 (split; [done|]). split.
  - (* the same parent, a second time *)
    eapply (create_branch_cases fuel _ (graft (current self) new nm t) nm
              (set_children cur (children cur ++ [new]))); simpl.
    + done.
    + by rewrite graft_sloc.
    + lia.
    + exact Hcur'.
    + apply Forall_app. split.
      * eapply Forall_impl; [exact Hlive|]. apply Hmono.
      * constructor; [|constructor]. by eexists.
    + exists new, (mkBranchNode nm (Some (current self)) [] []).
      split; [apply elem_of_app; right; left|]. by split.
  - (* another parent *)
    intros p pn Hp Hpn Hplive Hpno.
    assert (h' !! p = Some pn) as Hpn'.
    { destruct (lookup_after_create (heap self) (current self) cur new nm p Hcur Hfresh
                  ltac:(by eexists)) as (n & n' & Hn & Hn' & _ & Hsame).
      rewrite (Hsame Hp) in Hn'. unfold h'. congruence. }
    destruct (create_branch_cases fuel (set_current
                {| heap := h'; root := root self; current := current self;
                   file := Some data |} p)
                (graft (current self) new nm t) nm pn) as [_ Hcreate]; simpl.
    + done.
    + by rewrite graft_sloc.
    + lia.
    + done.
    + eapply Forall_impl; [exact Hplive|]. apply Hmono.
    + destruct Hcreate as [data' Hok'].
      * intros (c & cn & Hin & Hc & Hnm). apply Hpno.
        assert (is_Some (heap self !! c)) as Hcl
          by (by eapply Forall_forall in Hplive).
        destruct (lookup_after_create (heap self) (current self) cur new nm c Hcur
                    Hfresh Hcl) as (n0 & n0' & Hn0 & Hn0' & Hname & _).
        exists c, n0. split; [done|]. split; [done|].
        simpl in Hc. unfold h' in *. congruence.
      * by eexists.
Qed.

Lemma create_branch_duplicate_among_siblings_witness :
  has_child_named (heap sample_manager) (mkBranchNode "main" None [1; 2] []) "x" ↔
  create_branch 5 sample_manager "x"
  = Raise (ValueError ("Branch " +:+ "x" +:+ " already exists")).
Proof.
  apply (create_branch_duplicate_among_siblings 5 sample_manager sample_shape "x"
           (mkBranchNode "main" None [1; 2] [])).
  - apply sample_heap_tree.
  - reflexivity.
  - simpl. lia.
  - vm_compute. reflexivity.
  - repeat constructor; vm_compute; by eexists.
Defined.

Example create_branch_sample :
  create_branch 5 sample_manager "x" = Raise (ValueError "Branch x already exists") ∧
  (children <$> current_node (create_branch 5 (set_current sample_manager 2) "x"))
  = Some [4].
Proof. split; vm_compute; reflexivity. Qed.

(** ** The persistence codec *)

Lemma doc_ind' (P : doc → Prop) :
  (∀ nm cs kids, Forall P kids → P (Doc nm cs kids)) → ∀ d, P d.
Proof.
  intros step. fix IH 1. intros [nm cs kids]. apply step.
  induction kids as [|k kids IHk]; constructor; [apply IH | apply IHk].
Qed.

Lemma deserialize_unfold h nm cs kids :
  _deserialize h (Doc nm cs kids) =
  let node := fresh (dom h) in
  let h2 := <[node := mkBranchNode nm None [] (Commit_of_dict <$> cs)]>
              (<[node := mkBranchNode nm None [] []]> h) in
  let '(h3, ks) := deserialize_list h2 kids in
  (<[node := mkBranchNode nm None ks (Commit_of_dict <$> cs)]> h3, node).
Proof. reflexivity. Qed.

Lemma represents_unfold h l nm cs kids :
  represents h l (Doc nm cs kids) ↔
  ∃ n, h !! l = Some n ∧ name n = nm ∧ to_dict <$> commits n = cs ∧
       Forall2 (represents h) (children n) kids.
Proof.
  simpl. apply exist_proper. intros n. do 3 apply and_iff_compat_l.
  generalize (children n). induction kids as [|d ds IH]; intros [|l' ls].
  - by split; [constructor|].
  - split; [done|]. intros H. inversion H.
  - split; [done|]. intros H. inversion H.
  - rewrite Forall2_cons. by rewrite IH.
Qed.

Lemma to_dict_of_dict c : to_dict (Commit_of_dict c) = c.
Proof. by destruct c. Qed.

Lemma of_dict_to_dict c : Commit_of_dict (to_dict c) = c.
Proof. by destruct c. Qed.

Lemma to_dict_inj (cs cs' : list Commit) : to_dict <$> cs = to_dict <$> cs' → cs = cs'.
Proof.
  intros H. apply (f_equal (fmap Commit_of_dict)) in H.
  rewrite <-!list_fmap_compose in H.
  rewrite !(list_fmap_ext (Commit_of_dict ∘ to_dict) Datatypes.id) in H
    by (intros; apply of_dict_to_dict).
  by rewrite !list_fmap_id in H.
Qed.

Lemma map_outcome_Ok {A B} (f : A → outcome B) l ys :
  map_outcome f l = Ok ys → Forall2 (λ x y, f x = Ok y) l ys.
Proof.
  revert ys. induction l as [|x l IH]; intros ys; simpl.
  - intros [= <-]. constructor.
  - intros (y & Hy & (ys' & Hys & [= <-])%bind_Ok)%bind_Ok.
    constructor; [done|]. by apply IH.
Qed.

(** What [_serialize] returns is the image of the tree it was given. *)
Lemma serialize_represents h :
  ∀ fuel l d, _serialize fuel h l = Ok d → represents h l d.
Proof.
  induction fuel as [|fuel IH]; intros l d; [done|]. simpl.
  intros (n & Hn%deref_Ok & (ds & Hds & [= <-])%bind_Ok)%bind_Ok.
  apply represents_unfold. exists n. do 3 (split; [done|]).
  apply map_outcome_Ok in Hds.
  eapply Forall2_impl; [exact Hds|]. apply IH.
Qed.

(** Two trees with the same image are the same tree. *)
Lemma represents_same_tree h1 h2 d :
  ∀ l1 l2, represents h1 l1 d → represents h2 l2 d → same_tree h1 h2 l1 l2.
Proof.
  induction d as [nm cs kids IH] using doc_ind'. intros l1 l2.
  rewrite !represents_unfold.
  intros (n1 & Hn1 & Hnm1 & Hcs1 & Hk1) (n2 & Hn2 & Hnm2 & Hcs2 & Hk2).
  apply (same_tree_node h1 h2 l1 l2 n1 n2); [done|done|congruence| |].
  - apply to_dict_inj. congruence.
  - revert Hk1 Hk2 IH. generalize (children n1) (children n2).
    induction kids as [|d ds IHds]; intros ls1 ls2 H1 H2 IH.
    + inversion H1. inversion H2. constructor.
    + inversion H1 as [|a ? ls1' ? Ha H1']. inversion H2 as [|b ? ls2' ? Hb H2'].
      subst. apply Forall_cons in IH as [IHd IHrest].
      constructor; [by apply IHd|by apply IHds].
Qed.

Lemma deserialize_list_spec kids :
  Forall (λ d, ∀ h h' r, _deserialize h d = (h', r) →
             deserialize_post h h' ∧ h !! r = None ∧
             ∀ h'', holds_new h h' h'' → represents h'' r d) kids →
  ∀ h h' ks, deserialize_list h kids = (h', ks) →
    deserialize_post h h' ∧ Forall (λ k, h !! k = None) ks ∧
    ∀ h'', holds_new h h' h'' → Forall2 (represents h'') ks kids.
Proof.
  induction 1 as [|d ds Hd _ IH]; intros h h' ks; simpl.
  - intros [= <- <-]. split; [split; [done|intros; congruence]|].
    split; [constructor|]. intros. constructor.
  - destruct (_deserialize h d) as [h1 k] eqn:Hk.
    destruct (deserialize_list h1 ds) as [h2 ks'] eqn:Hks. intros [= <- <-].
    destruct (Hd h h1 k Hk) as ([Hsub1 Hpar1] & Hk1 & Hrep1).
    destruct (IH h1 h2 ks' Hks) as ([Hsub2 Hpar2] & Hks2 & Hrep2).
    assert (∀ l, h1 !! l = None → h !! l = None) as Hnone.
    { intros l Hl. destruct (h !! l) as [n|] eqn:Hn; [|done].
      by rewrite (lookup_weaken _ _ _ _ Hn Hsub1) in Hl. }
    repeat split.
    + by etrans.
    + intros l n Hl Hh. destruct (h1 !! l) as [n1|] eqn:Hl1.
      * rewrite (lookup_weaken _ _ _ _ Hl1 Hsub2) in Hl. simplify_eq.
        by eapply Hpar1.
      * by eapply Hpar2.
    + constructor; [done|]. eapply Forall_impl; [exact Hks2|]. apply Hnone.
    + intros h'' Hnew. constructor.
      * apply Hrep1. intros l n Hl Hh. apply Hnew; [|done].
        by eapply lookup_weaken.
      * apply Hrep2. intros l n Hl Hh. apply Hnew; [done|]. by apply Hnone.
Qed.

Lemma deserialize_spec d :
  ∀ h h' r, _deserialize h d = (h', r) →
    deserialize_post h h' ∧ h !! r = None ∧
    ∀ h'', holds_new h h' h'' → represents h'' r d.
Proof.
  induction d as [nm cs kids IH] using doc_ind'. intros h h' r.
  rewrite deserialize_unfold. cbv zeta. rewrite insert_insert_eq.
  set (node := fresh (dom h)).
  assert (h !! node = None) as Hnode by apply not_elem_of_dom, is_fresh.
  destruct (deserialize_list _ kids) as [h3 ks] eqn:Hks. intros [= <- <-].
  destruct (deserialize_list_spec kids IH _ _ _ Hks) as ([Hsub Hpar] & Hfresh & Hrep).
  assert (∀ l, l ≠ node → h !! l = None →
               (<[node := mkBranchNode nm None [] (Commit_of_dict <$> cs)]> h) !! l = None)
    as Hother by (intros; by rewrite lookup_insert_ne).
  repeat split.
  - apply map_subseteq_spec. intros l n Hl.
    assert (l ≠ node) by congruence. rewrite lookup_insert_ne by done.
    eapply lookup_weaken; [|exact Hsub]. by rewrite lookup_insert_ne.
  - intros l n Hl Hh. destruct (decide (l = node)) as [->|Hne].
    + rewrite lookup_insert_eq in Hl. by simplify_eq.
    + rewrite lookup_insert_ne in Hl by done. eapply Hpar; [done|]. by apply Hother.
  - done.
  - intros h'' Hnew. apply represents_unfold.
    exists (mkBranchNode nm None ks (Commit_of_dict <$> cs)). split.
    { apply Hnew; [apply lookup_insert_eq|done]. }
    split; [done|]. split.
    { simpl. rewrite <-list_fmap_compose.
      rewrite (list_fmap_ext (to_dict ∘ Commit_of_dict) Datatypes.id)
        by (intros; apply to_dict_of_dict).
      apply list_fmap_id. }
    simpl. apply Hrep. intros l n Hl Hh.
    assert (l ≠ node) as Hne.
    { intros ->. by rewrite lookup_insert_eq in Hh. }
    apply Hnew; [by rewrite lookup_insert_ne|].
    by rewrite lookup_insert_ne in Hh.
Qed.

(** C9: saving a tree and loading it back gives a tree with the same
    names, the same children shape and the same commits (identifier,
    message and files) at every branch, and [load] sets [current] to the
    root, wherever it was. *)
Theorem serialize_deserialize_roundtrip fuel self t :
  tree_at (heap self) t → sloc t = root self → depth t ≤ fuel →
  ∃ data self1 self2,
    _serialize fuel (heap self) (root self) = Ok data ∧
    save fuel self = Ok self1 ∧ file self1 = Some data ∧
    load self1 = Ok self2 ∧
    (heap self2, root self2) = _deserialize (heap self) data ∧
    same_tree (heap self) (heap self2) (root self) (root self2) ∧
    current self2 = root self2 ∧
    ∀ h0, same_tree (heap self) (_deserialize h0 data).1
            (root self) (_deserialize h0 data).2.
Proof.
  intros Ht Hroot Hd.
  destruct (serialize_total (heap self) t fuel Ht Hd) as [data Hser].
  rewrite Hroot in Hser.
  assert (∀ h0, same_tree (heap self) (_deserialize h0 data).1
                  (root self) (_deserialize h0 data).2) as Hsame.
  { intros h0. destruct (_deserialize h0 data) as [h' r] eqn:Hdes.
    destruct (deserialize_spec data h0 h' r Hdes) as (_ & _ & Hrep).
    eapply represents_same_tree.
    - by eapply serialize_represents.
    - apply Hrep. by intros l n Hl _. }
  exists data, (set_file self (Some data)).
  destruct (_deserialize (heap self) data) as [h' r] eqn:Hdes.
  exists {| heap := h'; root := r; current := r; file := Some data |}.
  split; [done|]. split; [unfold save; by rewrite Hser|]. split; [done|].
  split; [unfold load; simpl; by rewrite Hdes|]. split; [done|].
  split; [|by split].
  specialize (Hsame (heap self)). by rewrite Hdes in Hsame.
Qed.

Lemma merge_heap_tree : tree_at merge_heap merge_shape.
Proof.
  simpl. repeat split; eexists; (split; [vm_compute; reflexivity|done]).
Defined.

Lemma serialize_deserialize_roundtrip_witness :
  ∃ data self1 self2,
    _serialize 2 (heap merge_manager) (root merge_manager) = Ok data ∧
    save 2 merge_manager = Ok self1 ∧ file self1 = Some data ∧
    load self1 = Ok self2 ∧
    (heap self2, root self2) = _deserialize (heap merge_manager) data ∧
    same_tree (heap merge_manager) (heap self2) (root merge_manager) (root self2) ∧
    current self2 = root self2 ∧
    ∀ h0, same_tree (heap merge_manager) (_deserialize h0 data).1
            (root merge_manager) (_deserialize h0 data).2.
Proof.
  apply (serialize_deserialize_roundtrip 2 merge_manager merge_shape).
  - apply merge_heap_tree.
  - reflexivity.
  - simpl. lia.
Defined.

Example serialize_sample : _serialize 2 merge_heap 0 = Ok sample_doc.
Proof. vm_compute. reflexivity. Qed.

Example load_sample :
  root (started (Some sample_doc)) = 1 ∧
  current (started (Some sample_doc)) = 1 ∧
  _serialize 2 (heap (started (Some sample_doc))) 1 = Ok sample_doc.
Proof. repeat split; vm_compute; reflexivity. Qed.

(** ** Deleting a branch *)

(** [delete_branch] changes nothing when the name is not found or the
    node found has children. *)
Lemma delete_branch_noop fuel self nm :
  _find_branch_postorder fuel (heap self) (root self) nm = Ok None ∨
  (∃ b n c cs, _find_branch_postorder fuel (heap self) (root self) nm = Ok (Some b) ∧
               heap self !! b = Some n ∧ children n = c :: cs) →
  delete_branch fuel self nm = Ok self.
Proof.
  unfold delete_branch. intros [->|(b & n & c & cs & -> & Hn & Hch)]; [done|].
  simpl. rewrite (deref_lookup _ _ _ Hn). simpl. by rewrite Hch.
Qed.

(** C5, at a failing input: after loading a stored tree [main] with the
    child [feature], the node [feature] is a child of the root and its
    [parent] is absent, so that [delete_branch] raises when it reaches
    for the parent's list; the same tree built by [create_branch]
    records the parent and the deletion returns. *)
Theorem load_leaves_parent_absent :
  __init__ (Some sample_doc) = Ok (started (Some sample_doc)) ∧
  root (started (Some sample_doc)) = 1 ∧
  children <$> heap (started (Some sample_doc)) !! 1 = Some [2] ∧
  parent <$> heap (started (Some sample_doc)) !! 2 = Some None ∧
  delete_branch 2 (started (Some sample_doc)) "feature"
  = Raise (AttributeError "'NoneType' object has no attribute 'children'") ∧
  parent <$> heap created_feature !! 1 = Some (Some 0) ∧
  children <$> current_node (delete_branch 2 created_feature "feature") = Some [].
Proof. repeat split; vm_compute; reflexivity. Qed.

(** C6, at a failing input: on a fresh manager, whose tree is the single
    node [main], [delete_branch("main")] finds the root, sees that it has
    no children and raises [AttributeError], the root having no parent. *)
Theorem delete_branch_main_raises fuel :
  __init__ None = Ok (started None) ∧
  delete_branch (S fuel) (started None) "main"
  = Raise (AttributeError "'NoneType' object has no attribute 'children'").
Proof. split; vm_compute; reflexivity. Qed.

(** The same on any store: a root that is a leaf and bears the name. *)
Lemma delete_branch_leaf_root_raises fuel self n :
  heap self !! root self = Some n → children n = [] → parent n = None →
  delete_branch (S fuel) self (name n)
  = Raise (AttributeError "'NoneType' object has no attribute 'children'").
Proof.
  intros Hn Hch Hp. unfold delete_branch. simpl.
  rewrite (deref_lookup _ _ _ Hn). simpl. rewrite Hch. simpl.
  rewrite decide_True by done. simpl.
  rewrite (deref_lookup _ _ _ Hn). simpl. by rewrite Hch, Hp.
Qed.

(** ** Inversion of the operations *)

Lemma save_Ok_inv fuel self self' :
  save fuel self = Ok self' → ∃ data, self' = set_file self (Some data).
Proof. unfold save. intros (data & _ & [= <-])%bind_Ok. by exists data. Qed.

Lemma create_branch_Ok_inv fuel self nm self' :
  create_branch fuel self nm = Ok self' →
  ∃ cur new,
    heap self !! current self = Some cur ∧ heap self !! new = None ∧
    root self' = root self ∧ current self' = current self ∧
    heap self' =
      <[current self := set_children cur (children cur ++ [new])]>
        (<[new := mkBranchNode nm (Some (current self)) [] []]> (heap self)).
Proof.
  unfold create_branch.
  intros (cur & Hcur%deref_Ok & ([] & _ & Hsave)%bind_Ok)%bind_Ok; [done|].
  apply save_Ok_inv in Hsave as [data ->].
  exists cur, (fresh (dom (heap self))). repeat split; [done|].
  apply not_elem_of_dom, is_fresh.
Qed.

Lemma delete_branch_Ok_inv fuel self nm self' :
  delete_branch fuel self nm = Ok self' →
  root self' = root self ∧ current self' = current self ∧
  (heap self' = heap self ∨
   ∃ b bn p pn l,
     _find_branch_postorder fuel (heap self) (root self) nm = Ok (Some b) ∧
     heap self !! b = Some bn ∧ children bn = [] ∧ parent bn = Some p ∧
     heap self !! p = Some pn ∧ list_remove b (children pn) = Some l ∧
     heap self' = <[p := set_children pn l]> (heap self)).
Proof.
  unfold delete_branch. intros ([b|] & Hfind & Hrest)%bind_Ok.
  2:{ simplify_eq. by repeat split; [..|left]. }
  apply bind_Ok in Hrest as (bn & Hbn%deref_Ok & Hrest).
  destruct (children bn) as [|c cs] eqn:Hch.
  2:{ simplify_eq. by repeat split; [..|left]. }
  destruct (parent bn) as [p|] eqn:Hpar; [|done].
  apply bind_Ok in Hrest as (pn & Hpn%deref_Ok & Hrest).
  destruct (list_remove b (children pn)) as [l|] eqn:Hrm; [|done].
  apply save_Ok_inv in Hrest as [data ->].
  repeat split; try done. right. by exists b, bn, p, pn, l.
Qed.

Lemma load_Ok_inv self self' :
  load self = Ok self' →
  self' = self ∨ (current self' = root self' ∧ is_Some (heap self' !! root self')).
Proof.
  unfold load. destruct (file self) as [data|]; [|intros [= <-]; by left].
  destruct (_deserialize (heap self) data) as [h r] eqn:Hdes. intros [= <-].
  right. split; [done|]. simpl.
  destruct (deserialize_spec data _ _ _ Hdes) as (_ & _ & Hrep).
  specialize (Hrep h ltac:(by intros l n Hl _)).
  destruct data. apply represents_unfold in Hrep as (n & Hn & _). by eexists.
Qed.

(** [delete_branch] never removes a node without a parent: where the
    root has none, the root stays. *)
Lemma delete_branch_keeps_root fuel self nm self' rn :
  delete_branch fuel self nm = Ok self' →
  heap self !! root self = Some rn → parent rn = None →
  root self' = root self ∧ heap self' !! root self' = Some rn ∨
  root self' = root self ∧
  ∃ b l, b ≠ root self ∧ list_remove b (children rn) = Some l ∧
         heap self' !! root self' = Some (set_children rn l).
Proof.
  intros (Hroot & _ & [Hheap|Hdel])%delete_branch_Ok_inv Hrn Hpar.
  { left. by rewrite Hroot, Hheap. }
  destruct Hdel as (b & bn & p & pn & l & _ & Hb & _ & Hbp & Hp & Hrm & ->).
  assert (b ≠ root self) as Hne by congruence.
  rewrite Hroot. destruct (decide (p = root self)) as [->|Hpr].
  - right. split; [done|]. exists b, l. simplify_eq.
    by rewrite lookup_insert_eq.
  - left. by rewrite lookup_insert_ne.
Qed.

(** After [__init__], whatever the stored document, no node of the
    store has a parent. *)
Lemma init_parents_absent store self :
  __init__ store = Ok self → ∀ l n, heap self !! l = Some n → parent n = None.
Proof.
  unfold __init__, load. simpl. destruct store as [data|].
  - destruct (_deserialize _ data) as [h r] eqn:Hdes. intros [= <-] l n. simpl.
    destruct (deserialize_spec data _ _ _ Hdes) as ([Hsub Hpar] & _).
    intros Hl.
    destruct (({[fresh (dom (∅ : gmap loc BranchNode)) :=
                   mkBranchNode "main" None [] []]} : gmap loc BranchNode) !! l)
      as [n0|] eqn:Hl0.
    + rewrite (lookup_weaken _ _ _ _ Hl0 Hsub) in Hl. simplify_eq.
      apply lookup_singleton_Some in Hl0 as [_ <-]. done.
    + by eapply Hpar.
  - intros [= <-] l n. simpl. by intros [_ <-]%lookup_singleton_Some.
Qed.

(** ** Reachability *)

Lemma reachable_live_l h l l' : reachable h l l' → is_Some (h !! l).
Proof. destruct 1; [done|by eexists]. Qed.

Lemma reachable_live_r h l l' : reachable h l l' → is_Some (h !! l').
Proof. induction 1; done. Qed.

Lemma reachable_trans h a b c : reachable h a b → reachable h b c → reachable h a c.
Proof. induction 1; [done|]. intros. eapply reachable_step; eauto. Qed.

(** Reachability survives when the [children] lists only grow. *)
Lemma reachable_grows h h' a b :
  (∀ l n, h !! l = Some n →
          ∃ n', h' !! l = Some n' ∧ ∀ c, c ∈ children n → c ∈ children n') →
  reachable h a b → reachable h' a b.
Proof.
  intros Hg. induction 1 as [l [n Hn]|l n c l' Hn Hc _ IH].
  - destruct (Hg l n Hn) as (n' & Hn' & _). apply reachable_refl. by eexists.
  - destruct (Hg l n Hn) as (n' & Hn' & Hsub).
    eapply reachable_step; [exact Hn'|by apply Hsub|done].
Qed.

Lemma list_remove_keeps b l l' c :
  list_remove b l = Some l' → c ∈ l → c ≠ b → c ∈ l'.
Proof.
  revert l'. induction l as [|y l IH]; intros l'; simpl; [done|].
  destruct (decide (b = y)) as [->|Hby].
  - intros [= <-] [->|?]%elem_of_cons ?; done.
  - destruct (list_remove b l) as [l0|]; simpl; [|done].
    intros [= <-] [->|?]%elem_of_cons ?; [left|right]. by apply IH.
Qed.

(** Detaching a leaf keeps every other node reachable. *)
Lemma reachable_after_remove h b bn p pn l a c :
  h !! b = Some bn → children bn = [] →
  h !! p = Some pn → list_remove b (children pn) = Some l →
  reachable h a c → c ≠ b →
  reachable (<[p := set_children pn l]> h) a c.
Proof.
  intros Hb Hleaf Hp Hrm Hreach Hcb.
  induction Hreach as [x Hx|x n ch y Hn Hch Hrest IH].
  - apply reachable_refl. destruct (decide (p = x)) as [->|?].
    + rewrite lookup_insert_eq. by eexists.
    + by rewrite lookup_insert_ne.
  - assert (ch ≠ b) as Hne.
    { intros ->. inversion Hrest as [|? n' ? ? Hn' Hin]; [done|].
      simplify_eq. rewrite Hleaf in Hin. by apply elem_of_nil in Hin. }
    destruct (decide (p = x)) as [->|Hpx].
    + eapply reachable_step; [apply lookup_insert_eq| |by apply IH].
      simplify_eq. simpl. by eapply list_remove_keeps.
    + eapply reachable_step; [|exact Hch|by apply IH].
      by rewrite lookup_insert_ne.
Qed.

(** The search of [checkout] keeps the store and the root, leaves the
    manager alone when it fails, and moves [current] to a node below the
    one it started from when it succeeds. *)
Lemma spec_plain_dfs_inv nm :
  ∀ fuel self node b self',
  spec_plain_dfs fuel self node nm = Ok (b, self') →
  heap self' = heap self ∧ root self' = root self ∧ file self' = file self ∧
  (b = false → self' = self) ∧
  (b = true → reachable (heap self) node (current self')).
Proof.
  induction fuel as [|fuel IH]; intros self node b self'; [done|]. simpl.
  intros (n & Hn%deref_Ok & Hrest)%bind_Ok.
  destruct (decide (name n = nm)).
  { simplify_eq. repeat split; [done|]. intros _. apply reachable_refl. by eexists. }
  assert (∀ l s b s',
    dfs_loop (λ s child, spec_plain_dfs fuel s child nm) s l = Ok (b, s') →
    heap s' = heap s ∧ root s' = root s ∧ file s' = file s ∧
    (b = false → s' = s) ∧
    (b = true → ∃ c, c ∈ l ∧ reachable (heap s) c (current s'))) as Hloop.
  { induction l as [|c l IHl]; intros s b0 s0; simpl.
    - intros [= <- <-]. by repeat split.
    - intros ([[] s1] & Hc & Hrest')%bind_Ok.
      + simplify_eq. destruct (IH _ _ _ _ Hc) as (? & ? & ? & _ & Hr).
        repeat split; try done. intros _. exists c. split; [left|by apply Hr].
      + destruct (IH _ _ _ _ Hc) as (_ & _ & _ & Hs & _).
        rewrite (Hs eq_refl) in Hrest'.
        destruct (IHl _ _ _ Hrest') as (? & ? & ? & ? & Hr).
        repeat split; try done. intros Hb. destruct (Hr Hb) as (c' & ? & ?).
        exists c'. split; [by right|done]. }
  destruct (Hloop _ _ _ _ Hrest) as (? & ? & ? & ? & Hr).
  repeat split; try done. intros Hb. destruct (Hr Hb) as (c & Hc & Hreach).
  by eapply reachable_step.
Qed.

Lemma checkout_Ok_inv fuel self nm b self' :
  checkout fuel self nm = Ok (b, self') →
  heap self' = heap self ∧ root self' = root self ∧
  (b = false → current self' = current self) ∧
  (b = true → reachable (heap self) (root self) (current self')).
Proof.
  unfold checkout. rewrite checkout_inorder_plain_dfs.
  intros ([[] s1] & Hdfs & Hrest)%bind_Ok;
    destruct (spec_plain_dfs_inv nm _ _ _ _ _ Hdfs) as (Hh & Hr & _ & Hf & Ht).
  - apply bind_Ok in Hrest as (s2 & [data ->]%save_Ok_inv & [= <- <-]).
    repeat split; try done; intros _; by apply Ht.
  - simplify_eq. rewrite (Hf eq_refl). by repeat split.
Qed.

(** ** The cursor under the public operations *)

Lemma insert_live (h : gmap loc BranchNode) p x l :
  is_Some (h !! l) → is_Some (<[p := x]> h !! l).
Proof.
  intros Hl. destruct (decide (p = l)) as [->|?].
  - rewrite lookup_insert_eq. by eexists.
  - by rewrite lookup_insert_ne.
Qed.

Lemma started_spec store :
  __init__ store = Ok (started store) ∧
  current (started store) = root (started store) ∧
  is_Some (heap (started store) !! root (started store)).
Proof.
  unfold started, __init__.
  match goal with |- context [load ?m] =>
    destruct (load m) as [self| |] eqn:Hload;
      [apply load_Ok_inv in Hload as [->|[? ?]]|..] end.
  - repeat split. simpl. rewrite lookup_singleton_eq. by eexists.
  - by repeat split.
  - unfold load in Hload. simpl in Hload.
    destruct store; [|done]. by destruct (_deserialize _ _).
  - unfold load in Hload. simpl in Hload.
    destruct store; [|done]. by destruct (_deserialize _ _).
Qed.

Lemma exec_Ok_inv (iter : list string → list string → list string)
    (isprintable : N → bool) fuel o self self' :
  exec iter isprintable fuel o self = Ok self' →
  match o with
  | CreateBranch nm => create_branch fuel self nm = Ok self'
  | DeleteBranch nm => delete_branch fuel self nm = Ok self'
  | Checkout nm => ∃ b, checkout fuel self nm = Ok (b, self')
  | Merge nm => merge iter isprintable fuel self nm = Ok self'
  | ListBranches => self' = self
  | Load => load self = Ok self'
  end.
Proof.
  destruct o; simpl; try done.
  - intros ([b s] & Hc & [= <-])%bind_Ok. by exists b.
  - by intros (? & _ & [= <-])%bind_Ok.
Qed.

Lemma exec_current_live (iter : list string → list string → list string)
    (isprintable : N → bool)
    fuel o self self' :
  exec iter isprintable fuel o self = Ok self' → current_live self → current_live self'.
Proof.
  unfold current_live. intros Hexec%exec_Ok_inv Hlive. destruct o.
  - apply create_branch_Ok_inv in Hexec as (cur & new & _ & _ & _ & -> & ->).
    rewrite lookup_insert_eq. by eexists.
  - apply delete_branch_Ok_inv in Hexec
      as (_ & -> & [->|(b & bn & p & pn & l & _ & _ & _ & _ & _ & _ & ->)]); [done|].
    by apply insert_live.
  - destruct Hexec as [b (Hh & _ & Hf & Ht)%checkout_Ok_inv]. rewrite Hh.
    destruct b; [|by rewrite Hf]. by eapply reachable_live_r, Ht.
  - apply merge_Ok_inv in Hexec as (src & s & cur & _ & _ & _ & _ & -> & ->).
    rewrite lookup_insert_eq. by eexists.
  - by subst.
  - apply load_Ok_inv in Hexec as [->|[-> ?]]; done.
Qed.

(** ** The store stays a forest *)

Lemma list_remove_spec b l l' :
  list_remove b l = Some l' →
  b ∈ l ∧ (∀ c, c ∈ l' → c ∈ l) ∧ (NoDup l → NoDup l' ∧ b ∉ l').
Proof.
  revert l'. induction l as [|y l IH]; intros l'; simpl; [done|].
  destruct (decide (b = y)) as [->|Hby].
  - intros [= <-]. split; [left|]. split; [by right|].
    by intros [? ?]%NoDup_cons.
  - destruct (list_remove b l) as [l0|]; simpl; [|done]. intros [= <-].
    destruct (IH l0 eq_refl) as (Hin & Hsub & Hnd). split; [by right|]. split.
    + intros c [->|Hc]%elem_of_cons; [left|right; by apply Hsub].
    + intros [Hy Hl]%NoDup_cons. destruct (Hnd Hl) as [Hnd0 Hb]. split.
      * apply NoDup_cons. split; [|done]. intros Hy0. by apply Hy, Hsub.
      * rewrite not_elem_of_cons. by split.
Qed.

(** The last step of a path: the node reached is the start, or some
    list of the store holds it. *)
Lemma reachable_last h a b :
  reachable h a b → a = b ∨ ∃ l n, h !! l = Some n ∧ b ∈ children n.
Proof.
  induction 1 as [l _|l n c l' Hn Hc _ [->|IH]]; [by left|right..].
  - by exists l, n.
  - done.
Qed.

Lemma orphan_insert h p pn n' c :
  h !! p = Some pn → orphan h c → c ∉ children n' → orphan (<[p := n']> h) c.
Proof.
  intros Hp Ho Hc l n. destruct (decide (p = l)) as [->|Hne].
  - rewrite lookup_insert_eq. by intros [= <-].
  - rewrite lookup_insert_ne by done. apply Ho.
Qed.

(** A new object without children keeps the forest. *)
Lemma forest_alloc h new n :
  h !! new = None → children n = [] → forest h →
  forest (<[new := n]> h) ∧ orphan (<[new := n]> h) new ∧
  ∀ c, orphan h c → orphan (<[new := n]> h) c.
Proof.
  intros Hnew Hleaf [Hlists Huniq].
  assert (∀ c, orphan h c → orphan (<[new := n]> h) c) as Horph.
  { intros c Ho l n0. destruct (decide (new = l)) as [->|Hne].
    - rewrite lookup_insert_eq. intros [= <-]. rewrite Hleaf. apply not_elem_of_nil.
    - rewrite lookup_insert_ne by done. apply Ho. }
  split; [split|split; [|done]].
  - intros l n0. destruct (decide (new = l)) as [->|Hne].
    + rewrite lookup_insert_eq. intros [= <-]. rewrite Hleaf.
      split; constructor.
    + rewrite lookup_insert_ne by done. intros Hl.
      destruct (Hlists l n0 Hl) as [Hnd Hlive]. split; [done|].
      eapply Forall_impl; [exact Hlive|]. intros c. apply insert_live.
  - intros l l' n1 n2 c. destruct (decide (new = l)) as [->|Hne].
    { rewrite lookup_insert_eq. intros [= <-]. rewrite Hleaf.
      by intros _ ?%elem_of_nil. }
    destruct (decide (new = l')) as [->|Hne'].
    { rewrite (lookup_insert_eq h l'). intros _ [= <-]. rewrite Hleaf.
      by intros _ ?%elem_of_nil. }
    rewrite !lookup_insert_ne by done. apply Huniq.
  - apply Horph. intros l n0 Hl Hin.
    destruct (Hlists l n0 Hl) as [_ Hlive]. rewrite Forall_forall in Hlive.
    destruct (Hlive new Hin) as [? ?]. congruence.
Qed.

(** A node may take objects that no list holds as further children. *)
Lemma forest_adopt h p pn n' ks :
  h !! p = Some pn → children n' = children pn ++ ks →
  NoDup ks → Forall (λ k, is_Some (h !! k) ∧ orphan h k) ks →
  forest h → forest (<[p := n']> h).
Proof.
  intros Hp Hch Hnd Hks [Hlists Huniq]. rewrite Forall_forall in Hks.
  assert (∀ l n c, (<[p := n']> h) !! l = Some n → c ∈ children n →
            (l = p ∧ c ∈ ks) ∨ ((c ∉ ks) ∧ ∃ n0, h !! l = Some n0 ∧ c ∈ children n0))
    as Hedge.
  { intros l n c. destruct (decide (p = l)) as [->|Hne].
    - rewrite lookup_insert_eq. intros [= <-]. rewrite Hch, elem_of_app.
      intros [Hc|Hc]; [right|by left]. split; [|by exists pn].
      intros Hk. by apply (proj2 (Hks c Hk) l pn).
    - rewrite lookup_insert_ne by done. intros Hl Hc. right.
      split; [|by exists n]. intros Hk. by apply (proj2 (Hks c Hk) l n). }
  split.
  - intros l n. destruct (decide (p = l)) as [->|Hne].
    + rewrite lookup_insert_eq. intros [= <-]. rewrite Hch.
      destruct (Hlists l pn Hp) as [Hndp Hlive]. split.
      * apply NoDup_app. split; [done|]. split; [|done].
        intros c Hc Hk. by apply (proj2 (Hks c Hk) l pn).
      * apply Forall_app. split.
        -- eapply Forall_impl; [exact Hlive|]. intros c. apply insert_live.
        -- apply Forall_forall. intros c Hc. apply insert_live. by apply Hks.
    + rewrite lookup_insert_ne by done. intros Hl.
      destruct (Hlists l n Hl) as [Hndl Hlive]. split; [done|].
      eapply Forall_impl; [exact Hlive|]. intros c. apply insert_live.
  - intros l l' n1 n2 c Hl Hl' Hc Hc'.
    destruct (Hedge _ _ _ Hl Hc) as [[-> Hk]|[Hk (m1 & Hm1 & Hcm1)]];
      destruct (Hedge _ _ _ Hl' Hc') as [[-> Hk']|[Hk' (m2 & Hm2 & Hcm2)]];
      try done.
    by eapply Huniq.
Qed.

(** A node may lose children, or keep them. *)
Lemma forest_shrink h p pn n' :
  h !! p = Some pn → NoDup (children n') →
  (∀ c, c ∈ children n' → c ∈ children pn) →
  forest h →
  forest (<[p := n']> h) ∧ ∀ c, orphan h c → orphan (<[p := n']> h) c.
Proof.
  intros Hp Hnd Hsub [Hlists Huniq].
  assert (∀ l n c, (<[p := n']> h) !! l = Some n → c ∈ children n →
            ∃ n0, h !! l = Some n0 ∧ c ∈ children n0) as Hedge.
  { intros l n c. destruct (decide (p = l)) as [->|Hne].
    - rewrite lookup_insert_eq. intros [= <-] Hc. exists pn. split; [done|].
      by apply Hsub.
    - rewrite lookup_insert_ne by done. intros Hl Hc. by exists n. }
  split; [split|].
  - intros l n Hl. split.
    + destruct (decide (p = l)) as [->|Hne].
      * rewrite lookup_insert_eq in Hl. by simplify_eq.
      * rewrite lookup_insert_ne in Hl by done. by apply (Hlists l n).
    + apply Forall_forall. intros c Hc. apply insert_live.
      destruct (Hedge _ _ _ Hl Hc) as (n0 & Hn0 & Hc0).
      destruct (Hlists l n0 Hn0) as [_ Hlive]. rewrite Forall_forall in Hlive.
      by apply Hlive.
  - intros l l' n1 n2 c Hl Hl' Hc Hc'.
    destruct (Hedge _ _ _ Hl Hc) as (m1 & Hm1 & Hcm1).
    destruct (Hedge _ _ _ Hl' Hc') as (m2 & Hm2 & Hcm2). by eapply Huniq.
  - intros c Ho l n Hl Hc. destruct (Hedge _ _ _ Hl Hc) as (n0 & Hn0 & Hc0).
    by apply (Ho l n0).
Qed.

Lemma deserialize_list_forest kids :
  Forall (λ d, ∀ h h' r, forest h → _deserialize h d = (h', r) →
             deserialize_forest h h' ∧
             h !! r = None ∧ is_Some (h' !! r) ∧ orphan h' r) kids →
  ∀ h h' ks, forest h → deserialize_list h kids = (h', ks) →
    deserialize_forest h h' ∧ NoDup ks ∧
    Forall (λ k, h !! k = None ∧ is_Some (h' !! k) ∧ orphan h' k) ks.
Proof.
  induction 1 as [|d ds Hd _ IH]; intros h h' ks Hf; simpl.
  - intros [= <- <-]. split; [split; [done|split; [done|auto]]|].
    split; constructor.
  - destruct (_deserialize h d) as [h1 k] eqn:Hk.
    destruct (deserialize_list h1 ds) as [h2 ks'] eqn:Hks. intros [= <- <-].
    destruct (Hd h h1 k Hf Hk) as ((Hf1 & Hsub1 & Ho1) & Hk0 & Hk1 & Hko).
    destruct (IH h1 h2 ks' Hf1 Hks) as ((Hf2 & Hsub2 & Ho2) & Hnd & Hall).
    split; [split; [done|split; [by etrans|]]|].
    + intros c Hc Ho. apply Ho2; [|by apply Ho1].
      destruct Hc as [n Hn]. exists n. by eapply lookup_weaken.
    + split.
      * apply NoDup_cons. split; [|done]. intros Hin.
        rewrite Forall_forall in Hall. destruct (Hall k Hin) as (Hnone & _).
        destruct Hk1 as [? ?]. congruence.
      * constructor.
        -- split; [done|]. split; [|by apply Ho2].
           destruct Hk1 as [n Hn]. exists n. by eapply lookup_weaken.
        -- eapply Forall_impl; [exact Hall|]. intros k' (Hn' & ? & ?).
           split; [|done]. destruct (h !! k') as [n|] eqn:E; [|done].
           by rewrite (lookup_weaken _ _ _ _ E Hsub1) in Hn'.
Qed.

Lemma deserialize_forest_spec d :
  ∀ h h' r, forest h → _deserialize h d = (h', r) →
    deserialize_forest h h' ∧ h !! r = None ∧ is_Some (h' !! r) ∧ orphan h' r.
Proof.
  induction d as [nm cs kids IH] using doc_ind'. intros h h' r Hf.
  rewrite deserialize_unfold. cbv zeta. rewrite insert_insert_eq.
  set (node := fresh (dom h)).
  assert (h !! node = None) as Hnode by apply not_elem_of_dom, is_fresh.
  set (leaf := mkBranchNode nm None [] (Commit_of_dict <$> cs)).
  destruct (forest_alloc h node leaf Hnode eq_refl Hf) as (Hf2 & Hon & Ho2).
  destruct (deserialize_list _ kids) as [h3 ks] eqn:Hks. intros [= <- <-].
  destruct (deserialize_list_forest kids IH _ _ _ Hf2 Hks)
    as ((Hf3 & Hsub3 & Ho3) & Hnd & Hall).
  assert (h3 !! node = Some leaf) as Hn3.
  { eapply lookup_weaken; [apply lookup_insert_eq|done]. }
  rewrite Forall_forall in Hall.
  assert (node ∉ ks) as Hnks.
  { intros Hin. destruct (Hall node Hin) as (Hnone & _).
    by rewrite lookup_insert_eq in Hnone. }
  set (n' := mkBranchNode nm None ks (Commit_of_dict <$> cs)).
  assert (forest (<[node := n']> h3)) as Hf'.
  { eapply (forest_adopt h3 node leaf n' ks); [done|done|done| |done].
    apply Forall_forall. intros k Hk. by destruct (Hall k Hk) as (_ & ? & ?). }
  split; [split; [done|split]|].
  - apply map_subseteq_spec. intros l n Hl.
    assert (l ≠ node) by congruence. rewrite lookup_insert_ne by done.
    eapply lookup_weaken; [|exact Hsub3]. by rewrite lookup_insert_ne.
  - intros c Hc Ho. eapply orphan_insert; [exact Hn3| |].
    + apply Ho3; [by apply insert_live|by apply Ho2].
    + simpl. intros Hin. destruct (Hall c Hin) as (Hnone & _).
      destruct Hc as [n Hn]. assert (c ≠ node) by congruence.
      rewrite lookup_insert_ne in Hnone by done. congruence.
  - split; [done|]. split; [rewrite lookup_insert_eq; by eexists|].
    eapply orphan_insert; [exact Hn3| |done].
    apply Ho3; [rewrite lookup_insert_eq; by eexists|done].
Qed.

(** ** The cursor on and off the tree *)

Lemma delete_branch_Ok_cases fuel self nm self' :
  delete_branch fuel self nm = Ok self' →
  root self' = root self ∧ current self' = current self ∧
  (heap self' = heap self ∧ detaches_current fuel (DeleteBranch nm) self = false ∨
   ∃ b bn p pn l,
     _find_branch_postorder fuel (heap self) (root self) nm = Ok (Some b) ∧
     heap self !! b = Some bn ∧ children bn = [] ∧
     heap self !! p = Some pn ∧ list_remove b (children pn) = Some l ∧
     heap self' = <[p := set_children pn l]> (heap self)).
Proof.
  unfold delete_branch, detaches_current.
  intros ([b|] & Hfind & Hrest)%bind_Ok; rewrite Hfind.
  2:{ simplify_eq. by repeat split; [..|left]. }
  apply bind_Ok in Hrest as (bn & Hbn%deref_Ok & Hrest). rewrite Hbn.
  destruct (children bn) as [|c cs] eqn:Hch.
  2:{ simplify_eq. repeat split; [..|left]; try done.
      split; [done|]. apply andb_false_r. }
  destruct (parent bn) as [p|] eqn:Hpar; [|done].
  apply bind_Ok in Hrest as (pn & Hpn%deref_Ok & Hrest).
  destruct (list_remove b (children pn)) as [l|] eqn:Hrm; [|done].
  apply save_Ok_inv in Hrest as [data ->].
  repeat split; try done. right. by exists b, bn, p, pn, l.
Qed.

Lemma load_Ok_cases self self' :
  load self = Ok self' →
  file self = None ∧ self' = self ∨
  ∃ data, file self = Some data ∧ current self' = root self' ∧
          (heap self', root self') = _deserialize (heap self) data.
Proof.
  unfold load. destruct (file self) as [data|]; [|intros [= <-]; by left].
  destruct (_deserialize (heap self) data) as [h r] eqn:Hdes. intros [= <-].
  right. exists data. by rewrite Hdes.
Qed.

Lemma load_tidy self self' : load self = Ok self' → tidy self → tidy self'.
Proof.
  intros [[_ ->]|(data & _ & _ & Hdes)]%load_Ok_cases Ht; [done|].
  destruct Ht as (Hf & _). unfold tidy. symmetry in Hdes.
  destruct (deserialize_forest_spec data _ _ _ Hf Hdes)
    as ((Hf' & _) & _ & Hlive & Ho). done.
Qed.

Lemma started_tidy store : tidy (started store).
Proof.
  destruct (started_spec store) as (Hinit & _). unfold __init__ in Hinit.
  apply load_tidy in Hinit; [done|]. unfold tidy. simpl.
  set (r := fresh (dom (∅ : gmap loc BranchNode))).
  destruct (forest_alloc ∅ r (mkBranchNode "main" None [] []))
    as (Hf & Ho & _); [done|done| |].
  { split; intros l; intros; by rewrite lookup_empty in *. }
  rewrite insert_empty in Hf, Ho. split; [done|]. split; [|done].
  rewrite lookup_singleton_eq. by eexists.
Qed.

Lemma exec_tidy (iter : list string → list string → list string)
    (isprintable : N → bool) fuel o self self' :
  exec iter isprintable fuel o self = Ok self' → tidy self → tidy self'.
Proof.
  unfold tidy. intros Hexec%exec_Ok_inv (Hf & Hroot & Horph). destruct o.
  - apply create_branch_Ok_inv in Hexec as (cur & new & Hcur & Hnew & -> & _ & ->).
    set (leaf := mkBranchNode nm (Some (current self)) [] []).
    destruct (forest_alloc _ new leaf Hnew eq_refl Hf) as (Hf1 & Hon & Ho1).
    assert (current self ≠ new) as Hne by congruence.
    assert (root self ≠ new) as Hrne by (destruct Hroot; congruence).
    assert (<[new := leaf]> (heap self) !! current self = Some cur) as Hcur1
      by by rewrite lookup_insert_ne.
    split; [|split].
    + eapply forest_adopt; [exact Hcur1|reflexivity| | |exact Hf1].
      * apply NoDup_singleton.
      * constructor; [|constructor]. split; [|done].
        rewrite lookup_insert_eq. by eexists.
    + by do 2 apply insert_live.
    + eapply orphan_insert; [exact Hcur1|by apply Ho1|]. simpl.
      rewrite elem_of_app. intros [Hin|Hin]; [by apply (Horph _ _ Hcur)|].
      apply elem_of_cons in Hin as [?|Hin]; [done|by apply elem_of_nil in Hin].
  - apply delete_branch_Ok_cases in Hexec
      as (-> & _ & [[-> _]|(b & bn & p & pn & l & _ & _ & _ & Hp & Hrm & ->)]);
      [done|].
    destruct (list_remove_spec _ _ _ Hrm) as (_ & Hsub & Hnd).
    destruct Hf as [Hlists Huniq]. destruct (Hlists p pn Hp) as [Hndp _].
    destruct (forest_shrink (heap self) p pn (set_children pn l) Hp)
      as [Hf' Ho']; [by apply Hnd|done|done|].
    split; [done|]. split; [by apply insert_live|by apply Ho'].
  - destruct Hexec as [b (-> & -> & _)%checkout_Ok_inv]. done.
  - apply merge_Ok_inv in Hexec as (src & s & cur & _ & _ & Hcur & -> & _ & ->).
    destruct Hf as [Hlists Huniq]. destruct (Hlists _ _ Hcur) as [Hndc _].
    match goal with |- context [<[_ := ?n']> _] =>
      destruct (forest_shrink (heap self) (current self) cur n' Hcur)
        as [Hf' Ho']; [done|done|done|] end.
    split; [done|]. split; [by apply insert_live|by apply Ho'].
  - by subst.
  - by apply (load_tidy self).
Qed.

Lemma reachable_create_back h cur cn new leaf a x :
  forest h → h !! cur = Some cn → h !! new = None →
  reachable (<[cur := set_children cn (children cn ++ [new])]> (<[new := leaf]> h)) a x →
  is_Some (h !! a) → reachable h a x ∨ reachable h a cur.
Proof.
  intros [Hlists _] Hcur Hnew. induction 1 as [l _|l n c l' Hn Hc _ IH]; intros Hl.
  - left. by apply reachable_refl.
  - destruct (decide (l = cur)) as [->|Hne]; [right; by apply reachable_refl|].
    assert (l ≠ new) by (destruct Hl; congruence).
    rewrite !lookup_insert_ne in Hn by done.
    destruct (Hlists l n Hn) as [_ Hlive]. rewrite Forall_forall in Hlive.
    destruct (IH (Hlive c Hc)) as [Hr|Hr]; [left|right]; by eapply reachable_step.
Qed.

(** After a call that returned, the cursor is on the tree exactly when
    the call placed it there, or it was there and the call did not
    detach its node. *)
Lemma exec_cursor (iter : list string → list string → list string)
    (isprintable : N → bool) fuel o self self' :
  exec iter isprintable fuel o self = Ok self' → tidy self →
  (current_attached self' ↔
   places_current fuel o self = true ∨
   (current_attached self ∧ detaches_current fuel o self = false)).
Proof.
  unfold current_attached. intros Hex%exec_Ok_inv (Hf & Hroot & Horph).
  destruct o; simpl in Hex |- *.
  - apply create_branch_Ok_inv in Hex as (cur & new & Hcur & Hnew & -> & -> & ->).
    split.
    + intros Hr. right. split; [|done].
      by destruct (reachable_create_back _ _ _ _ _ _ _ Hf Hcur Hnew Hr Hroot).
    + intros [?|[Hr _]]; [done|]. eapply reachable_grows; [|done]. intros l n Hl.
      assert (l ≠ new) by congruence.
      destruct (decide (current self = l)) as [<-|?].
      * rewrite lookup_insert_eq. eexists. split; [done|]. simplify_eq. simpl.
        intros c Hc. apply elem_of_app. by left.
      * rewrite !lookup_insert_ne by done. by exists n.
  - apply delete_branch_Ok_cases in Hex
      as (-> & -> &
          [[-> Hd]|(b & bn & p & pn & l & Hfind & Hb & Hleaf & Hp & Hrm & ->)]).
    { simpl in Hd. rewrite Hd. split; [by right|]. by intros [?|[? _]]. }
    rewrite Hfind, Hb, Hleaf.
    destruct (list_remove_spec _ _ _ Hrm) as (Hin & Hsub & Hnd).
    destruct Hf as [Hlists Huniq]. destruct (Hlists _ _ Hp) as [Hndp _].
    destruct (decide (b = current self)) as [Hbc|Hbc].
    + rewrite bool_decide_eq_true_2 by done. split; [|by intros [?|[_ ?]]].
      intros Hr. exfalso. rewrite <-Hbc in Hr.
      apply reachable_last in Hr as [Hrb|(l0 & n0 & Hl0 & Hb0)].
      * apply (Horph p pn Hp). by rewrite Hrb.
      * destruct (decide (p = l0)) as [->|Hne].
        -- rewrite lookup_insert_eq in Hl0. simplify_eq. simpl in Hb0.
           by apply (proj2 (Hnd Hndp)).
        -- rewrite lookup_insert_ne in Hl0 by done. apply Hne.
           by eapply (Huniq p l0 pn n0 b).
    + rewrite bool_decide_eq_false_2 by done. split.
      * intros Hr. right. split; [|done]. eapply reachable_grows; [|exact Hr].
        intros l0 n0. destruct (decide (p = l0)) as [->|Hne].
        -- rewrite lookup_insert_eq. intros [= <-]. exists pn. split; [done|].
           simpl. apply Hsub.
        -- rewrite lookup_insert_ne by done. intros Hl0. by exists n0.
      * intros [?|[Hr _]]; [done|].
        eapply reachable_after_remove;
          [exact Hb|exact Hleaf|exact Hp|exact Hrm|exact Hr|congruence].
  - destruct Hex as [b Hc]. rewrite Hc.
    destruct (checkout_Ok_inv _ _ _ _ _ Hc) as (-> & -> & Hfalse & Htrue).
    destruct b.
    + split; [by left|]. intros _. by apply Htrue.
    + rewrite (Hfalse eq_refl). split; [by right|]. by intros [?|[? _]].
  - apply merge_Ok_inv in Hex as (src & s & cur & _ & _ & Hcur & -> & -> & ->).
    split.
    + intros Hr. right. split; [|done]. eapply reachable_grows; [|exact Hr].
      intros l n. destruct (decide (current self = l)) as [<-|?].
      * rewrite lookup_insert_eq. intros [= <-]. by exists cur.
      * rewrite lookup_insert_ne by done. intros Hl. by exists n.
    + intros [?|[Hr _]]; [done|]. eapply reachable_grows; [|done]. intros l n Hl.
      destruct (decide (current self = l)) as [<-|?].
      * rewrite lookup_insert_eq. eexists. split; [done|]. by simplify_eq.
      * rewrite lookup_insert_ne by done. by exists n.
  - subst. split; [by right|]. by intros [?|[? _]].
  - apply load_Ok_cases in Hex as [[Hfile ->]|(data & Hfile & Hcur & Hdes)];
      rewrite Hfile.
    + split; [by right|]. by intros [?|[? _]].
    + split; [by left|]. intros _. rewrite Hcur. apply reachable_refl.
      symmetry in Hdes.
      by destruct (deserialize_forest_spec data _ _ _ Hf Hdes) as (_ & _ & ? & _).
Qed.

Lemma run_cursor (iter : list string → list string → list string)
    (isprintable : N → bool) fuel ops :
  ∀ self self' on,
  run iter isprintable fuel ops self = Ok self' →
  tidy self → current_live self → (current_attached self ↔ on = true) →
  current_live self' ∧
  (current_attached self' ↔
   cursor_on_tree iter isprintable fuel ops self on = true).
Proof.
  induction ops as [|o ops IH]; intros self self' on; simpl.
  - by intros [= <-].
  - destruct (exec iter isprintable fuel o self) as [s1| |] eqn:Hexec; [| |done].
    + intros Hrun Ht Hlive Hon.
      apply (IH s1 self' _ Hrun);
        [by eapply exec_tidy|by eapply exec_current_live|].
      rewrite (exec_cursor _ _ _ _ _ _ Hexec Ht), Hon.
      destruct (places_current fuel o self), on,
        (detaches_current fuel o self); simpl; intuition congruence.
    + intros Hrun Ht Hlive Hon. by apply (IH self self' on).
Qed.

(** C4 as the code has it: after every sequence of public operations on
    a manager, [current] designates a node (it is never null); and the
    node is reachable from the root exactly when, since the last
    [checkout] that found its name or [load] that read a file, or else
    since the start, no [delete_branch] has detached the node [current]
    pointed at. *)
Theorem current_live_and_attached (iter : list string → list string → list string)
    (isprintable : N → bool) fuel ops store self' :
  run iter isprintable fuel ops (started store) = Ok self' →
  current_live self' ∧
  (current_attached self' ↔
   cursor_on_tree iter isprintable fuel ops (started store) true = true).
Proof.
  intros Hrun. destruct (started_spec store) as (_ & Hcur & Hlive).
  apply (run_cursor iter isprintable fuel ops _ _ true Hrun).
  - apply started_tidy.
  - unfold current_live. by rewrite Hcur.
  - split; [done|]. intros _. unfold current_attached. rewrite Hcur.
    by apply reachable_refl.
Qed.

Lemma current_live_and_attached_witness :
  run sample_iter sample_printable 3 sample_ops (started None) = Ok sample_final ∧
  current_live sample_final ∧
  (current_attached sample_final ↔
   cursor_on_tree sample_iter sample_printable 3 sample_ops (started None) true = true).
Proof.
  split; [vm_compute; reflexivity|].
  apply (current_live_and_attached sample_iter sample_printable 3 sample_ops None
           sample_final).
  vm_compute. reflexivity.
Defined.

(** The cursor along four runs on a fresh manager: deleting [main], the
    checked-out root with a child, changes nothing; deleting the
    checked-out leaf [a] takes the cursor off the tree; a [checkout]
    that finds its name puts it back; a [create_branch] and a [merge]
    leave it off. *)
Example cursor_on_tree_samples :
  cursor_on_tree sample_iter sample_printable 3
    [CreateBranch "a"; DeleteBranch "main"] (started None) true = true ∧
  cursor_on_tree sample_iter sample_printable 3
    [CreateBranch "a"; Checkout "a"; DeleteBranch "a"] (started None) true = false ∧
  cursor_on_tree sample_iter sample_printable 3
    [CreateBranch "a"; Checkout "a"; DeleteBranch "a"; Checkout "main"]
    (started None) true = true ∧
  cursor_on_tree sample_iter sample_printable 3
    [CreateBranch "a"; Checkout "a"; DeleteBranch "a"; CreateBranch "b"; Merge "main"]
    (started None) true = false.
Proof. repeat split; vm_compute; reflexivity. Qed.

Lemma reachable_leaf h l n l' :
  h !! l = Some n → children n = [] → reachable h l l' → l' = l.
Proof.
  intros Hn Hleaf Hreach. inversion Hreach as [|? n' c ? Hn' Hc]; [done|].
  simplify_eq. rewrite Hleaf in Hc. by apply elem_of_nil in Hc.
Qed.

(** C4 fails on the code: create [a] on a fresh manager, check it out
    and delete it.  [delete_branch] detaches the node from [main] and
    leaves [current] on it: the cursor designates a node that is no
    longer reachable from the root. *)
Lemma delete_current_detaches_cursor :
  run sample_iter sample_printable 3 [CreateBranch "a"; Checkout "a"; DeleteBranch "a"] (started None)
  = Ok detached_manager ∧
  root detached_manager = 0 ∧ current detached_manager = 1 ∧
  heap detached_manager !! 0 = Some (mkBranchNode "main" None [] []) ∧
  heap detached_manager !! 1 = Some (mkBranchNode "a" (Some 0) [] []) ∧
  ¬ current_attached detached_manager.
Proof.
  do 5 (split; [vm_compute; reflexivity|]).
  intros Hreach.
  apply (reachable_leaf _ _ (mkBranchNode "main" None [] [])) in Hreach;
    [|vm_compute; reflexivity|done].
  vm_compute in Hreach. discriminate.
Qed.

(** * Further properties of the branch manager *)

(** ** Checkout *)

Lemma pre_find_None nm t : pre_find nm t = None ↔ has_name nm t = false.
Proof.
  induction t as [l nm' kids IH] using shape_ind'.
  rewrite pre_find_unfold, has_name_unfold, orb_false_iff, existsb_false.
  assert (first_some (pre_find nm) kids = None ↔
          Forall (λ k, has_name nm k = false) kids) as Hkids.
  { rewrite first_some_None, !Forall_forall.
    rewrite Forall_forall in IH. split; intros H k Hk; apply IH; auto. }
  destruct (decide (nm' = nm)) as [->|Hne].
  - split; [done|]. intros [H _]. by apply bool_decide_eq_false in H.
  - rewrite Hkids. split; [|by intros [_ ?]].
    intros H. split; [by apply bool_decide_eq_false|done].
Qed.

Lemma pre_find_result nm t r :
  pre_find nm t = Some r → ∃ s, subtree s t ∧ sloc s = r ∧ sname s = nm.
Proof.
  revert r. induction t as [l nm' kids IH] using shape_ind'. intros r.
  rewrite pre_find_unfold. destruct (decide (nm' = nm)) as [->|Hne].
  - intros [= <-]. exists (Shape l nm kids). split; [constructor|done].
  - intros (k & Hk & Hr)%first_some_Some. rewrite Forall_forall in IH.
    destruct (IH k Hk r Hr) as (s & Hs & ? & ?).
    exists s. split; [by eapply subtree_below|done].
Qed.

Lemma tree_at_root h t :
  tree_at h t → ∃ n, h !! sloc t = Some n ∧ name n = sname t ∧
                     children n = sloc <$> skids t.
Proof. destruct t. by intros [? _]%tree_at_unfold. Qed.

Lemma subtree_reachable h s t :
  subtree s t → tree_at h t → reachable h (sloc t) (sloc s).
Proof.
  induction 1 as [|l nm kids k Hk Hs IH]; intros Ht.
  - apply reachable_refl. destruct (tree_at_root h s Ht) as (n & Hn & _). by eexists.
  - apply tree_at_unfold in Ht as [(n & Hn & _ & Hch) Hkids].
    eapply reachable_step; [exact Hn| |].
    + rewrite Hch. by apply list_elem_of_fmap_2.
    + apply IH. by eapply Forall_forall in Hkids.
Qed.

(** X1: checking out a name that no branch of the tree bears returns
    [False] and leaves the manager as it was, its file included. *)
Theorem checkout_absent_name fuel self t nm :
  tree_at (heap self) t → sloc t = root self → depth t ≤ fuel →
  has_name nm t = false →
  checkout fuel self nm = Ok (false, self).
Proof.
  intros Ht Hroot Hd Hno. unfold checkout.
  rewrite checkout_inorder_plain_dfs, <-Hroot.
  rewrite (spec_plain_dfs_shape self nm t fuel Ht Hd).
  apply pre_find_None in Hno. by rewrite Hno.
Qed.

Lemma checkout_absent_name_witness :
  checkout 3 sample_manager "release" = Ok (false, sample_manager).
Proof.
  apply (checkout_absent_name 3 sample_manager sample_shape "release").
  - apply sample_heap_tree.
  - reflexivity.
  - simpl. lia.
  - vm_compute. reflexivity.
Defined.

(** X2: checking out a name that some branch bears returns [True]; the
    store and the root are unchanged, [current] is a branch of that
    name reachable from the root, the file holds the serialized tree,
    and [get_current_branch] then answers the name. *)
Theorem checkout_present_name fuel self t nm :
  tree_at (heap self) t → sloc t = root self → depth t ≤ fuel →
  has_name nm t = true →
  ∃ r data,
    checkout fuel self nm
    = Ok (true, {| heap := heap self; root := root self; current := r;
                   file := Some data |}) ∧
    _serialize fuel (heap self) (root self) = Ok data ∧
    (∃ n, heap self !! r = Some n ∧ name n = nm) ∧
    reachable (heap self) (root self) r ∧
    get_current_branch {| heap := heap self; root := root self; current := r;
                          file := Some data |} = Ok nm.
Proof.
  intros Ht Hroot Hd Hyes.
  pose proof (spec_plain_dfs_shape self nm t fuel Ht Hd) as Hdfs.
  destruct (serialize_total (heap self) t fuel Ht Hd) as [data Hser].
  rewrite Hroot in Hdfs, Hser.
  destruct (pre_find nm t) as [r|] eqn:Hfind.
  2:{ apply pre_find_None in Hfind. congruence. }
  destruct (pre_find_result nm t r Hfind) as (s & Hs & Hr & Hnm).
  destruct (tree_at_root _ s (subtree_tree_at _ _ _ Hs Ht)) as (n & Hn & Hname & _).
  rewrite Hr in Hn. rewrite Hnm in Hname.
  exists r, data. split.
  { unfold checkout. rewrite checkout_inorder_plain_dfs, Hdfs. simpl.
    unfold save. simpl. by rewrite Hser. }
  split; [done|]. split; [by exists n|]. split.
  { rewrite <-Hroot, <-Hr. by apply subtree_reachable. }
  unfold get_current_branch. simpl. rewrite (deref_lookup _ _ _ Hn). simpl.
  by rewrite Hname.
Qed.

Lemma checkout_present_name_witness :
  ∃ r data,
    checkout 3 sample_manager "x"
    = Ok (true, {| heap := heap sample_manager; root := root sample_manager;
                   current := r; file := Some data |}) ∧
    _serialize 3 (heap sample_manager) (root sample_manager) = Ok data ∧
    (∃ n, heap sample_manager !! r = Some n ∧ name n = "x") ∧
    reachable (heap sample_manager) (root sample_manager) r ∧
    get_current_branch {| heap := heap sample_manager; root := root sample_manager;
                          current := r; file := Some data |} = Ok "x".
Proof.
  apply (checkout_present_name 3 sample_manager sample_shape "x").
  - apply sample_heap_tree.
  - reflexivity.
  - simpl. lia.
  - vm_compute. reflexivity.
Defined.

(** X3: the two searches agree on whether a name exists: [checkout]
    finds a branch exactly when the postorder search of [delete_branch]
    and [merge] finds one, and each answers a branch of that name; the
    two branches can differ. *)
Theorem searches_agree_on_existence fuel self t nm :
  tree_at (heap self) t → sloc t = root self → depth t ≤ fuel →
  ∃ found self' res,
    _checkout_inorder fuel self (root self) nm = Ok (found, self') ∧
    _find_branch_postorder fuel (heap self) (root self) nm = Ok res ∧
    (found = true ↔ is_Some res) ∧
    (found = true → ∃ n, heap self !! current self' = Some n ∧ name n = nm) ∧
    (∀ r, res = Some r → ∃ n, heap self !! r = Some n ∧ name n = nm).
Proof.
  intros Ht Hroot Hd. rewrite checkout_inorder_plain_dfs, <-Hroot.
  rewrite (spec_plain_dfs_shape self nm t fuel Ht Hd).
  rewrite (find_branch_postorder_shape (heap self) nm t fuel Ht Hd).
  assert (∀ s, subtree s t → sname s = nm →
               ∃ n, heap self !! sloc s = Some n ∧ name n = nm) as Hnode.
  { intros s Hs Hnm.
    destruct (tree_at_root _ s (subtree_tree_at _ _ _ Hs Ht)) as (n & Hn & Hname & _).
    exists n. by rewrite Hname. }
  assert (∀ r, post_find nm t = Some r →
               ∃ n, heap self !! r = Some n ∧ name n = nm) as Hpost.
  { intros r (s & Hs & <- & Hnm & _)%post_find_result. by apply Hnode. }
  destruct (pre_find nm t) as [r|] eqn:Hpre; simpl.
  - exists true, (set_current self r), (post_find nm t).
    do 2 (split; [done|]). split; [|split; [|done]].
    + split; [|done]. intros _. apply post_find_Some.
      destruct (has_name nm t) eqn:Hn; [done|].
      apply pre_find_None in Hn. congruence.
    + intros _. simpl.
      destruct (pre_find_result nm t r Hpre) as (s & Hs & <- & Hnm). by apply Hnode.
  - exists false, self, (post_find nm t).
    do 2 (split; [done|]). split; [|split; [done|done]].
    split; [done|]. intros Hsome%post_find_Some.
    apply pre_find_None in Hpre. congruence.
Qed.

Lemma searches_agree_on_existence_witness :
  ∃ found self' res,
    _checkout_inorder 3 sample_manager (root sample_manager) "a" = Ok (found, self') ∧
    _find_branch_postorder 3 (heap sample_manager) (root sample_manager) "a" = Ok res ∧
    (found = true ↔ is_Some res) ∧
    (found = true →
     ∃ n, heap sample_manager !! current self' = Some n ∧ name n = "a") ∧
    (∀ r, res = Some r → ∃ n, heap sample_manager !! r = Some n ∧ name n = "a").
Proof.
  apply (searches_agree_on_existence 3 sample_manager sample_shape "a").
  - apply sample_heap_tree.
  - reflexivity.
  - simpl. lia.
Defined.

(** ** Merge *)

Lemma dict_keys_set d k v :
  dict_keys (dict_set d k v) =
  if decide (k ∈ dict_keys d) then dict_keys d else dict_keys d ++ [k].
Proof.
  induction d as [|[k0 v0] d IH]; [done|].
  cbn [dict_set]. change (dict_keys ((k0, v0) :: d)) with (k0 :: dict_keys d).
  destruct (decide (k0 = k)) as [->|Hne].
  - change (dict_keys ((k, v) :: d)) with (k :: dict_keys d).
    rewrite decide_True; [done|]. left.
  - change (dict_keys ((k0, v0) :: dict_set d k v))
      with (k0 :: dict_keys (dict_set d k v)).
    rewrite IH. destruct (decide (k ∈ dict_keys d)) as [Hin|Hout].
    + rewrite decide_True; [done|]. by right.
    + rewrite decide_False; [done|]. intros [->|?]%elem_of_cons; done.
Qed.

Lemma dict_set_NoDup d k v : NoDup (dict_keys d) → NoDup (dict_keys (dict_set d k v)).
Proof.
  intros Hd. rewrite dict_keys_set. destruct (decide _); [done|].
  apply NoDup_app. split; [done|]. split; [|apply NoDup_singleton].
  intros x Hx ->%list_elem_of_singleton. done.
Qed.

Lemma diff_loop_NoDup keys S T : NoDup (dict_keys (diff_loop keys S T)).
Proof.
  unfold diff_loop.
  assert (∀ d, NoDup (dict_keys d) →
               NoDup (dict_keys (foldl (diff_step S T) d keys))) as H.
  { induction keys as [|k keys IH]; intros d Hd; simpl; [done|].
    apply IH. unfold diff_step. destruct (decide _); [|done].
    by apply dict_set_NoDup. }
  apply H. constructor.
Qed.

Lemma dict_lookup_update d other k :
  NoDup (dict_keys other) →
  dict_lookup (dict_update d other) k =
  match dict_lookup other k with
  | Some v => Some v
  | None => dict_lookup d k
  end.
Proof.
  unfold dict_update. revert d.
  induction other as [|[k0 v0] other IH]; intros d Hnd; [done|].
  change (dict_keys ((k0, v0) :: other)) with (k0 :: dict_keys other) in Hnd.
  apply NoDup_cons in Hnd as [Hk0 Hnd].
  cbn [foldl fst snd dict_lookup]. rewrite IH by done.
  rewrite dict_lookup_set. destruct (decide (k0 = k)) as [->|Hne]; [|done].
  apply dict_lookup_None in Hk0. by rewrite Hk0.
Qed.

Lemma dict_keys_update_prefix d other :
  dict_keys d `prefix_of` dict_keys (dict_update d other).
Proof.
  unfold dict_update. revert d.
  induction other as [|[k0 v0] other IH]; intros d; [done|].
  cbn [foldl fst snd]. etrans; [|apply IH]. rewrite dict_keys_set.
  destruct (decide _); [done|]. by apply prefix_app_r.
Qed.

Lemma diff_loop_merged_get (iter : list string → list string → list string) S T path :
  (∀ a b x, x ∈ iter a b ↔ x ∈ a ∨ x ∈ b) →
  dict_get (dict_update (dict_copy T) (diff_loop (iter (dict_keys S) (dict_keys T)) S T))
    path
  = source_or_target (dict_get S path) (dict_get T path).
Proof.
  intros Hiter.
  replace (source_or_target (dict_get S path) (dict_get T path))
    with (py_or (dict_get S path) (dict_get T path)) by apply py_or_nonempty.
  unfold dict_get at 1.
  rewrite dict_lookup_update by apply diff_loop_NoDup.
  unfold diff_loop. rewrite diff_loop_lookup. cbn [dict_lookup].
  destruct (decide (path ∈ iter (dict_keys S) (dict_keys T) ∧
                    dict_get S path ≠ dict_get T path)) as [[_ _]|Hno]; [done|].
  fold (dict_get (dict_copy T) path). unfold dict_copy.
  destruct (decide (dict_get S path = dict_get T path)) as [Heq|Hne].
  - rewrite Heq. unfold py_or. by destruct (truthy _).
  - assert ((path ∉ dict_keys S) ∧ (path ∉ dict_keys T)) as [HS HT].
    { split; intros Hin; apply Hno; (split; [apply Hiter; tauto|done]). }
    rewrite (dict_get_absent S) by done. by rewrite (dict_get_absent T).
Qed.

(** X4: the table of the commit that [_apply_merge] appends takes, at
    every path, the source's value when that is a non-empty string and
    the target's value otherwise; the paths of the target keep their
    places in it. *)
Theorem apply_merge_table (iter : list string → list string → list string)
    (isprintable : N → bool)
    self source s cur :
  heap self !! source = Some s → heap self !! current self = Some cur →
  (∀ a b x, x ∈ iter a b ↔ x ∈ a ∨ x ∈ b) →
  ∃ diff self' c,
    _calculate_diff iter (heap self) source (current self) = Ok diff ∧
    _apply_merge isprintable self diff = Ok self' ∧
    commits <$> heap self' !! current self' = Some (commits cur ++ [c]) ∧
    message c = "Merge commit" ∧
    (∀ path, dict_get (files c) path =
             match dict_get (latest_files s) path with
             | PyStr v => if decide (v = "") then dict_get (latest_files cur) path
                          else PyStr v
             | PyNone => dict_get (latest_files cur) path
             end) ∧
    dict_keys (latest_files cur) `prefix_of` dict_keys (files c).
Proof.
  intros Hs Hcur Hiter.
  eexists (merge_diff iter s cur), _, (full_commit isprintable cur (merge_diff iter s cur)).
  split.
  { unfold _calculate_diff. by rewrite (deref_lookup _ _ _ Hs), (deref_lookup _ _ _ Hcur). }
  split.
  { unfold _apply_merge. rewrite (deref_lookup _ _ _ Hcur). simpl. reflexivity. }
  split; [simpl; by rewrite lookup_insert_eq|]. split; [done|]. split.
  - intros path. apply (diff_loop_merged_get iter _ _ path Hiter).
  - apply dict_keys_update_prefix.
Qed.

Lemma apply_merge_table_witness :
  ∃ diff self' c,
    _calculate_diff sample_iter (heap merge_manager) 1 (current merge_manager) = Ok diff ∧
    _apply_merge sample_printable merge_manager diff = Ok self' ∧
    commits <$> heap self' !! current self'
    = Some ([mkCommit "0000001" "first" main_files] ++ [c]) ∧
    message c = "Merge commit" ∧
    (∀ path, dict_get (files c) path =
             match dict_get feature_files path with
             | PyStr v => if decide (v = "") then dict_get main_files path else PyStr v
             | PyNone => dict_get main_files path
             end) ∧
    dict_keys main_files `prefix_of` dict_keys (files c).
Proof.
  apply (apply_merge_table sample_iter sample_printable merge_manager 1
           (mkBranchNode "feature" (Some 0) [] [mkCommit "0000002" "second" feature_files])
           (mkBranchNode "main" None [1] [mkCommit "0000001" "first" main_files])).
  - vm_compute. reflexivity.
  - vm_compute. reflexivity.
  - apply sample_iter_union.
Defined.

Lemma diff_loop_same keys S T :
  (∀ path, dict_get S path = dict_get T path) → diff_loop keys S T = [].
Proof.
  intros Hsame. unfold diff_loop.
  induction keys as [|k keys IH]; simpl; [done|].
  unfold diff_step at 2. by rewrite decide_False by (rewrite Hsame; tauto).
Qed.

Lemma dict_update_nil d : dict_update d [] = d.
Proof. done. Qed.

(** X5: merging a branch whose latest table reads the same as the
    current one's at every path (the current branch itself, say) finds
    an empty diff, whatever the iteration order: the "Merge commit"
    carries the current table unchanged, and the marker commit that
    follows it, which becomes the latest commit, carries an empty table. *)
Theorem merge_identical_tables (iter : list string → list string → list string)
    (isprintable : N → bool)
    fuel self t source_name src s cur :
  tree_at (heap self) t → sloc t = root self → depth t ≤ fuel →
  _find_branch_postorder fuel (heap self) (root self) source_name = Ok (Some src) →
  heap self !! src = Some s → heap self !! current self = Some cur →
  (∀ path, dict_get (latest_files s) path = dict_get (latest_files cur) path) →
  _calculate_diff iter (heap self) src (current self) = Ok [] ∧
  ∃ self' cur',
    merge iter isprintable fuel self source_name = Ok self' ∧
    heap self' !! current self' = Some cur' ∧
    commits cur' =
      commits cur ++
      [ {| id := short_hash isprintable (latest_files cur); message := "Merge commit";
           files := latest_files cur |};
        {| id := short_hash isprintable []; message := "Merge " +:+ source_name +:+ " into " +:+ name cur;
           files := [] |} ] ∧
    latest_files cur' = [].
Proof.
  intros Ht Hroot Hd Hfind Hs Hcur Hsame.
  assert (merge_diff iter s cur = []) as Hdiff by by apply diff_loop_same.
  split.
  { unfold _calculate_diff. rewrite (deref_lookup _ _ _ Hs), (deref_lookup _ _ _ Hcur).
    simpl. by fold (merge_diff iter s cur); rewrite Hdiff. }
  rewrite (merge_unfold iter isprintable fuel self source_name src s cur Hfind Hs Hcur).
  rewrite Hdiff.
  destruct (save_total fuel
    (set_heap self
       (<[current self :=
            set_commits cur
              (commits cur ++ [full_commit isprintable cur []; marker_commit isprintable source_name cur []])]>
          (heap self))) t) as [data Hsave]; [| done | done |].
  { simpl. eapply tree_at_same_links; [|done]. by apply (same_links_insert _ _ cur). }
  rewrite Hsave. eexists _, _. split; [done|]. simpl.
  split; [apply lookup_insert_eq|]. split; [done|].
  unfold latest_files. simpl. by rewrite last_app.
Qed.

Lemma merge_identical_tables_witness :
  _calculate_diff sample_iter (heap (table_manager main_files)) 0
    (current (table_manager main_files)) = Ok [] ∧
  ∃ self' cur',
    merge sample_iter sample_printable 1 (table_manager main_files) "main" = Ok self' ∧
    heap self' !! current self' = Some cur' ∧
    commits cur' =
      [mkCommit "0000001" "first" main_files] ++
      [ {| id := short_hash sample_printable main_files; message := "Merge commit"; files := main_files |};
        {| id := short_hash sample_printable []; message := "Merge " +:+ "main" +:+ " into " +:+ "main";
           files := [] |} ] ∧
    latest_files cur' = [].
Proof.
  apply (merge_identical_tables sample_iter sample_printable 1 (table_manager main_files)
           (Shape 0 "main" []) "main" 0
           (mkBranchNode "main" None [] [mkCommit "0000001" "first" main_files])
           (mkBranchNode "main" None [] [mkCommit "0000001" "first" main_files])).
  - simpl. split; [|done]. eexists. split; [vm_compute; reflexivity|done].
  - reflexivity.
  - simpl. lia.
  - vm_compute. reflexivity.
  - vm_compute. reflexivity.
  - vm_compute. reflexivity.
  - done.
Defined.

(** X6: [merge] raises its [ValueError] ("Source branch not found")
    exactly when no branch of the tree bears the source name; with such
    a branch it returns. *)
Theorem merge_source_not_found (iter : list string → list string → list string)
    (isprintable : N → bool)
    fuel self t source_name :
  tree_at (heap self) t → sloc t = root self → depth t ≤ fuel →
  is_Some (heap self !! current self) →
  (has_name source_name t = false ↔
   merge iter isprintable fuel self source_name = Raise (ValueError "Source branch not found")) ∧
  (has_name source_name t = true ↔
   ∃ self', merge iter isprintable fuel self source_name = Ok self').
Proof.
  intros Ht Hroot Hd [cur Hcur].
  pose proof (find_branch_postorder_shape (heap self) source_name t fuel Ht Hd) as Hfind.
  rewrite Hroot in Hfind.
  destruct (post_find source_name t) as [src|] eqn:Hpost.
  - assert (has_name source_name t = true) as Hyes.
    { apply post_find_Some. by eexists. }
    destruct (find_branch_postorder_live _ _ _ _ _ Hfind) as [s Hs].
    assert (∃ self', merge iter isprintable fuel self source_name = Ok self') as [self' Hm].
    { rewrite (merge_unfold iter isprintable fuel self source_name src s cur Hfind Hs Hcur).
      edestruct (save_total fuel) as [data Hsave]; [| |exact Hd|by eexists].
      - simpl. eapply tree_at_same_links; [|exact Ht].
        by apply (same_links_insert _ _ cur).
      - done. }
    rewrite Hyes, Hm. split; [by split|]. split; [by eexists|done].
  - assert (has_name source_name t = false) as Hno by by apply post_find_None.
    assert (merge iter isprintable fuel self source_name
            = Raise (ValueError "Source branch not found")) as Hm.
    { unfold merge. by rewrite Hfind. }
    rewrite Hno, Hm. split; [by split|]. split; [done|by intros [? ?]].
Qed.

Lemma merge_source_not_found_witness :
  (has_name "nowhere" merge_shape = false ↔
   merge sample_iter sample_printable 2 merge_manager "nowhere"
   = Raise (ValueError "Source branch not found")) ∧
  (has_name "nowhere" merge_shape = true ↔
   ∃ self', merge sample_iter sample_printable 2 merge_manager "nowhere" = Ok self').
Proof.
  apply (merge_source_not_found sample_iter sample_printable 2 merge_manager merge_shape "nowhere").
  - apply merge_heap_tree.
  - reflexivity.
  - simpl. lia.
  - vm_compute. by eexists.
Defined.

(** ** Creating and deleting *)

Lemma has_loc_unfold l l' nm kids :
  has_loc l (Shape l' nm kids) = bool_decide (l' = l) || existsb (has_loc l) kids.
Proof. reflexivity. Qed.

Lemma has_loc_subtree l t : has_loc l t = true → ∃ s, subtree s t ∧ sloc s = l.
Proof.
  induction t as [l' nm kids IH] using shape_ind'.
  rewrite has_loc_unfold. intros [Hl|Hk]%orb_true_iff.
  - apply bool_decide_eq_true in Hl as ->. eexists. split; [constructor|done].
  - apply existsb_exists in Hk as (k & Hk%list_elem_of_In & Hlk).
    rewrite Forall_forall in IH. destruct (IH k Hk Hlk) as (s & Hs & Hloc).
    exists s. split; [by eapply subtree_below|done].
Qed.

Lemma subtree_has_name nm s t :
  subtree s t → has_name nm s = true → has_name nm t = true.
Proof.
  induction 1 as [|l nm' kids k Hk Hs IH]; [done|]. intros Hn%IH.
  rewrite has_name_unfold. apply orb_true_iff. right.
  apply existsb_exists. exists k. split; [by apply list_elem_of_In|done].
Qed.

Lemma first_some_app {A B} (f : A → option B) l1 l2 :
  first_some f (l1 ++ l2) =
  match first_some f l1 with
  | Some r => Some r
  | None => first_some f l2
  end.
Proof. induction l1 as [|x l1 IH]; simpl; [done|]. by destruct (f x). Qed.

(** After a graft under [cur], the postorder search for the new name
    answers the new leaf, when the name was not in the tree. *)
Lemma post_find_graft cur new nm t :
  has_name nm t = false →
  post_find nm (graft cur new nm t) = if has_loc cur t then Some new else None.
Proof.
  induction t as [l nm' kids IH] using shape_ind'.
  rewrite has_name_unfold, graft_unfold, post_find_unfold, has_loc_unfold.
  intros [Hnm%bool_decide_eq_false Hkids%existsb_false]%orb_false_iff.
  assert (first_some (post_find nm) (graft cur new nm <$> kids)
          = if existsb (has_loc cur) kids then Some new else None) as Hfirst.
  { clear Hnm. induction kids as [|k kids IHk]; [done|].
    apply Forall_cons in IH as [IHhd IHtl]. apply Forall_cons in Hkids as [Hhd Htl].
    rewrite fmap_cons. cbn [first_some existsb]. rewrite (IHhd Hhd).
    destruct (has_loc cur k); [done|]. by apply IHk. }
  destruct (decide (l = cur)) as [->|Hne].
  - rewrite bool_decide_eq_true_2 by done. cbn [orb].
    rewrite first_some_app, Hfirst.
    destruct (existsb _ _); [done|]. cbn. by rewrite decide_True.
  - rewrite bool_decide_eq_false_2 by done. cbn [orb]. rewrite Hfirst.
    destruct (existsb _ _); [done|]. by rewrite decide_False.
Qed.

Lemma list_remove_snoc x l : x ∉ l → list_remove x (l ++ [x]) = Some l.
Proof.
  induction l as [|y l IH]; intros Hx; simpl.
  - by rewrite decide_True.
  - apply not_elem_of_cons in Hx as [Hxy Hx].
    rewrite decide_False by done. by rewrite IH.
Qed.

Lemma set_children_back n l : set_children (set_children n l) (children n) = n.
Proof. by destruct n. Qed.

Lemma serialize_weaken (h h' : gmap loc BranchNode) :
  h ⊆ h' → ∀ fuel l d, _serialize fuel h l = Ok d → _serialize fuel h' l = Ok d.
Proof.
  intros Hsub. induction fuel as [|fuel IH]; intros l d; [done|]. simpl.
  intros (n & Hn%deref_Ok & (ds & Hds & [= <-])%bind_Ok)%bind_Ok.
  rewrite (deref_lookup h' l n) by by eapply lookup_weaken. simpl.
  assert (map_outcome (_serialize fuel h') (children n) = Ok ds) as ->; [|done].
  revert ds Hds. generalize (children n).
  induction l0 as [|c cs IHcs]; intros ds; simpl; [done|].
  intros (y & Hy%IH & (ys & Hys%IHcs & [= <-])%bind_Ok)%bind_Ok.
  by rewrite Hy, Hys.
Qed.

(** X7: with [current] on a node of the tree, creating a branch under a
    name no branch of the tree bears, and deleting that name at once,
    gives the tree back: [delete_branch] finds the new leaf, detaches it
    from [current], and every node of the store is as it was before
    (the detached leaf stays behind in the store, referenced by
    nothing). *)
Theorem create_then_delete_restores fuel self t nm :
  tree_at (heap self) t → sloc t = root self → depth t + 1 ≤ fuel →
  has_loc (current self) t = true → has_name nm t = false →
  ∃ self1 self2 new,
    create_branch fuel self nm = Ok self1 ∧
    delete_branch fuel self1 nm = Ok self2 ∧
    heap self !! new = None ∧
    heap self2 = <[new := mkBranchNode nm (Some (current self)) [] []]> (heap self) ∧
    root self2 = root self ∧ current self2 = current self ∧
    ∃ data, _serialize fuel (heap self) (root self) = Ok data ∧
            file self2 = Some data.
Proof.
  intros Ht Hroot Hd Hhas Hno.
  destruct (has_loc_subtree _ _ Hhas) as (s & Hs & Hloc).
  pose proof (subtree_tree_at _ _ _ Hs Ht) as Hts.
  destruct s as [l nm' kids]. simpl in Hloc. subst l.
  apply tree_at_unfold in Hts as [(cur & Hcur & Hnm' & Hch) Hkids].
  assert (children_live (heap self) cur) as Hlive.
  { unfold children_live. rewrite Hch. apply Forall_fmap, Forall_forall.
    intros k Hk. simpl. eapply Forall_forall in Hkids; [|done].
    destruct (tree_at_root _ k Hkids) as (n & Hn & _). by eexists. }
  assert (¬ has_child_named (heap self) cur nm) as Hnodup.
  { intros (c & cn & Hc & Hcn & Hname). rewrite Hch in Hc.
    apply list_elem_of_fmap in Hc as (k & -> & Hk).
    pose proof Hk as Hk'. eapply Forall_forall in Hk'; [|exact Hkids].
    destruct (tree_at_root _ k Hk') as (n & Hn & Hnk & _).
    assert (has_name nm k = true) as Hyes.
    { destruct k as [lk nk kk]. rewrite has_name_unfold. simpl in *.
      simplify_eq. by rewrite bool_decide_eq_true_2. }
    assert (has_name nm t = true); [|congruence].
    eapply subtree_has_name; [|exact Hyes].
    eapply subtree_trans; [|exact Hs]. eapply subtree_below; [done|constructor]. }
  destruct (create_branch_cases fuel self t nm cur Ht Hroot ltac:(lia) Hcur Hlive)
    as [_ Hcreate].
  destruct (Hcreate Hnodup) as [data Hok].
  set (new := fresh (dom (heap self))) in *.
  assert (heap self !! new = None) as Hfresh by apply not_elem_of_dom, is_fresh.
  assert (current self ≠ new) as Hcn by congruence.
  set (leaf := mkBranchNode nm (Some (current self)) [] []) in *.
  set (h1 := <[current self := set_children cur (children cur ++ [new])]>
               (<[new := leaf]> (heap self))) in *.
  assert (tree_at h1 (graft (current self) new nm t)) as Ht1 by by apply tree_at_graft.
  pose proof (graft_depth (current self) new nm t) as Hgd.
  assert (h1 !! new = Some leaf) as Hnewl.
  { unfold h1. by rewrite lookup_insert_ne, lookup_insert_eq by done. }
  assert (h1 !! current self = Some (set_children cur (children cur ++ [new])))
    as Hcur1 by apply lookup_insert_eq.
  assert (new ∉ children cur) as Hnotin.
  { intros Hin. eapply Forall_forall in Hlive; [|exact Hin].
    destruct Hlive as [? ?]. congruence. }
  assert (<[current self := cur]> h1 = <[new := leaf]> (heap self)) as Hback.
  { unfold h1. rewrite insert_insert_eq. apply insert_id.
    by rewrite lookup_insert_ne. }
  assert (tree_at (<[new := leaf]> (heap self)) t) as Ht2.
  { eapply tree_at_same_links; [|exact Ht]. intros l n Hl.
    exists n. rewrite lookup_insert_ne by congruence. done. }
  destruct (serialize_total _ t fuel Ht ltac:(lia)) as [data2 Hser].
  rewrite Hroot in Hser.
  assert (_serialize fuel (<[new := leaf]> (heap self)) (root self) = Ok data2)
    as Hser2.
  { eapply serialize_weaken; [|exact Hser]. by apply insert_subseteq. }
  eexists _, _, new. split; [exact Hok|]. split.
  { unfold delete_branch. simpl.
    pose proof (find_branch_postorder_shape h1 nm _ fuel Ht1 ltac:(lia)) as Hfind.
    rewrite graft_sloc, Hroot, post_find_graft in Hfind by done.
    rewrite Hhas in Hfind.
    rewrite Hfind. simpl. rewrite (deref_lookup _ _ _ Hnewl). simpl.
    rewrite (deref_lookup _ _ _ Hcur1). simpl.
    rewrite list_remove_snoc by done.
    rewrite set_children_back. unfold save. simpl. rewrite Hback, Hser2. simpl.
    reflexivity. }
  simpl. do 4 (split; [done|]). by exists data2.
Qed.

Lemma create_then_delete_restores_witness :
  ∃ self1 self2 new,
    create_branch 4 sample_manager "release" = Ok self1 ∧
    delete_branch 4 self1 "release" = Ok self2 ∧
    heap sample_manager !! new = None ∧
    heap self2
    = <[new := mkBranchNode "release" (Some (current sample_manager)) [] []]>
        (heap sample_manager) ∧
    root self2 = root sample_manager ∧ current self2 = current sample_manager ∧
    ∃ data, _serialize 4 (heap sample_manager) (root sample_manager) = Ok data ∧
            file self2 = Some data.
Proof.
  apply (create_then_delete_restores 4 sample_manager sample_shape "release").
  - apply sample_heap_tree.
  - reflexivity.
  - simpl. lia.
  - vm_compute. reflexivity.
  - vm_compute. reflexivity.
Defined.

(** ** Listing *)

Lemma shape_lines_unfold level l nm kids :
  shape_lines level (Shape l nm kids) =
  (string_repeat "  " level +:+ nm) :: concat (shape_lines (level + 1) <$> kids).
Proof.
  simpl. f_equal. induction kids as [|k kids IH]; simpl; [done|]. by rewrite IH.
Qed.

Lemma size_unfold l nm kids :
  size (Shape l nm kids) = S (sum_list (size <$> kids)).
Proof.
  simpl. f_equal. induction kids as [|k kids IH]; simpl; [done|]. by rewrite IH.
Qed.

Lemma map_outcome_shapes {B} (f : loc → outcome B) (g : shape → B) kids :
  Forall (λ k, f (sloc k) = Ok (g k)) kids →
  map_outcome f (sloc <$> kids) = Ok (g <$> kids).
Proof.
  induction 1 as [|k kids Hk _ IH]; [done|].
  rewrite !fmap_cons. cbn [map_outcome]. rewrite Hk. cbn [bind]. by rewrite IH.
Qed.

Lemma list_preorder_shape h t :
  ∀ fuel level, tree_at h t → depth t ≤ fuel →
  _list_preorder fuel h (sloc t) level = Ok (shape_lines level t).
Proof.
  induction t as [l nm kids IH] using shape_ind'.
  intros fuel level [(n & Hn & Hnm & Hch) Hkids]%tree_at_unfold Hd.
  destruct fuel as [|fuel]; [pose proof (depth_pos (Shape l nm kids)); lia|].
  simpl sloc. simpl _list_preorder. rewrite (deref_lookup _ _ _ Hn). simpl bind.
  rewrite Hch, (map_outcome_shapes _ (shape_lines (level + 1))).
  - cbn [bind]. by rewrite shape_lines_unfold, Hnm.
  - apply Forall_forall. intros k Hk.
    eapply Forall_forall in IH; [|done]. apply IH.
    + by eapply Forall_forall in Hkids.
    + pose proof (depth_kid l nm kids k Hk). lia.
Qed.

Lemma shape_lines_length t : ∀ level, length (shape_lines level t) = size t.
Proof.
  induction t as [l nm kids IH] using shape_ind'. intros level.
  rewrite shape_lines_unfold, size_unfold. cbn [length]. f_equal.
  induction IH as [|k kids Hk _ IHk]; [done|].
  rewrite !fmap_cons. cbn [concat]. by rewrite length_app, Hk, IHk.
Qed.

(** X8: [list_branches_preorder] prints one line per branch of the
    tree: the names in preorder (a node, then its children left to
    right), each behind two spaces per level of depth, the root first
    and unindented. *)
Theorem list_branches_preorder_lines fuel self t :
  tree_at (heap self) t → sloc t = root self → depth t ≤ fuel →
  ∃ lines,
    list_branches_preorder fuel self = Ok lines ∧
    lines = shape_lines 0 t ∧
    length lines = size t ∧
    head lines = Some (sname t).
Proof.
  intros Ht Hroot Hd. exists (shape_lines 0 t).
  unfold list_branches_preorder. rewrite <-Hroot.
  rewrite (list_preorder_shape _ t fuel 0 Ht Hd).
  do 2 (split; [done|]). split; [apply shape_lines_length|].
  destruct t. by rewrite shape_lines_unfold.
Qed.

Lemma list_branches_preorder_lines_witness :
  ∃ lines,
    list_branches_preorder 3 sample_manager = Ok lines ∧
    lines = shape_lines 0 sample_shape ∧
    length lines = size sample_shape ∧
    head lines = Some (sname sample_shape).
Proof.
  apply (list_branches_preorder_lines 3 sample_manager sample_shape).
  - apply sample_heap_tree.
  - reflexivity.
  - simpl. lia.
Defined.

(** ** Persistence *)

Lemma save_Ok_step fuel pre self' : save fuel pre = Ok self' → file_in_step fuel self'.
Proof.
  unfold save. intros (data & Hser & [= <-])%bind_Ok. by exists data.
Qed.

Lemma exec_saved (iter : list string → list string → list string)
    (isprintable : N → bool) fuel o self self' :
  exec iter isprintable fuel o self = Ok self' →
  match o with
  | ListBranches | Load => True
  | _ => (heap self' = heap self ∧ current self' = current self) ∨
         ∃ pre, save fuel pre = Ok self'
  end.
Proof.
  destruct o as [nm|nm|nm|nm| |]; simpl; try done.
  - unfold create_branch.
    intros (cur & _ & ([] & _ & Hsave)%bind_Ok)%bind_Ok; [done|]. right. by eexists.
  - unfold delete_branch. intros ([b|] & _ & Hrest)%bind_Ok.
    2:{ simplify_eq. by left. }
    apply bind_Ok in Hrest as (bn & _ & Hrest).
    destruct (children bn); [|simplify_eq; by left].
    destruct (parent bn); [|done].
    apply bind_Ok in Hrest as (pn & _ & Hrest).
    destruct (list_remove b (children pn)); [|done]. right. by eexists.
  - intros ([b s] & Hc & [= <-])%bind_Ok. unfold checkout in Hc.
    rewrite checkout_inorder_plain_dfs in Hc.
    apply bind_Ok in Hc as ([[] s1] & Hdfs & Hrest).
    + apply bind_Ok in Hrest as (s2 & Hsave & [= <- <-]). right. by eexists.
    + simplify_eq.
      destruct (spec_plain_dfs_inv nm _ _ _ _ _ Hdfs) as (_ & _ & _ & Hs & _).
      rewrite (Hs eq_refl). by left.
  - unfold merge. intros ([src|] & _ & Hrest)%bind_Ok; [|done].
    apply bind_Ok in Hrest as (diff & _ & Hrest).
    apply bind_Ok in Hrest as (s1 & _ & Hrest).
    apply bind_Ok in Hrest as (cur & _ & Hsave). right. by eexists.
Qed.

(** X9: whenever [create_branch], [delete_branch], [checkout] or
    [merge] returns with a changed store or a moved cursor, the file
    holds the serialization of the tree as it is after the call. *)
Theorem mutation_keeps_file_in_step (iter : list string → list string → list string)
    (isprintable : N → bool)
    fuel o self self' :
  exec iter isprintable fuel o self = Ok self' →
  o ≠ ListBranches → o ≠ Load →
  heap self' ≠ heap self ∨ current self' ≠ current self →
  file_in_step fuel self'.
Proof.
  intros Hexec%exec_saved Hl Hd Hchanged.
  destruct o; try done;
    (destruct Hexec as [[? ?]|[pre Hsave]];
     [destruct Hchanged; congruence|by eapply save_Ok_step]).
Qed.

Lemma mutation_keeps_file_in_step_witness : file_in_step 2 created_a.
Proof.
  apply (mutation_keeps_file_in_step sample_iter sample_printable 2 (CreateBranch "a")
           (started None) created_a).
  - vm_compute. reflexivity.
  - done.
  - done.
  - left. intros H. apply (f_equal (λ h : gmap loc BranchNode, h !! 1)) in H.
    vm_compute in H. discriminate.
Defined.

Lemma map_outcome_Forall2 {A B} (f : A → outcome B) l ys :
  Forall2 (λ x y, f x = Ok y) l ys → map_outcome f l = Ok ys.
Proof. induction 1 as [|x y l ys Hxy _ IH]; simpl; [done|]. by rewrite Hxy, IH. Qed.

Lemma doc_depth_unfold nm cs kids :
  doc_depth (Doc nm cs kids) = S (max_list (doc_depth <$> kids)).
Proof.
  simpl. f_equal. induction kids as [|k kids IH]; simpl; [done|]. by rewrite IH.
Qed.

(** A tree whose image is [d] serializes to [d]. *)
Lemma represents_serialize h d :
  ∀ fuel l, represents h l d → doc_depth d ≤ fuel → _serialize fuel h l = Ok d.
Proof.
  induction d as [nm cs kids IH] using doc_ind'. intros fuel l.
  rewrite represents_unfold, doc_depth_unfold.
  intros (n & Hn & Hnm & Hcs & Hkids) Hd.
  destruct fuel as [|fuel]; [lia|]. simpl.
  rewrite (deref_lookup _ _ _ Hn). simpl.
  rewrite (map_outcome_Forall2 _ _ kids); [cbn [bind]; by rewrite Hnm, Hcs|].
  assert (Forall (λ k, doc_depth k ≤ fuel) kids) as Hdk.
  { apply Forall_forall. intros k Hk.
    assert (doc_depth k ≤ max_list (doc_depth <$> kids)); [|lia].
    apply max_list_elem_of_le, list_elem_of_fmap. eauto. }
  clear Hd. revert Hkids IH Hdk. generalize (children n).
  induction kids as [|k kids IHk]; intros ls Hrep IH Hdk.
  - inversion Hrep. constructor.
  - inversion Hrep as [|a ? ls' ? Ha Hrest]. subst.
    apply Forall_cons in IH as [IHhd IHtl]. apply Forall_cons in Hdk as [Hdhd Hdtl].
    constructor; [by apply IHhd|by apply IHk].
Qed.

(** X10: loading a stored document and saving at once writes the same
    document back: [_serialize] undoes [_deserialize]. *)
Theorem load_then_save_same_document fuel self d :
  file self = Some d → doc_depth d ≤ fuel →
  ∃ self1,
    load self = Ok self1 ∧
    _serialize fuel (heap self1) (root self1) = Ok d ∧
    save fuel self1 = Ok self1.
Proof.
  intros Hfile Hd. unfold load. rewrite Hfile.
  destruct (_deserialize (heap self) d) as [h r] eqn:Hdes.
  destruct (deserialize_spec d _ _ _ Hdes) as (_ & _ & Hrep).
  specialize (Hrep h ltac:(by intros l n Hl _)).
  pose proof (represents_serialize h d fuel r Hrep Hd) as Hser.
  eexists. split; [done|]. simpl. split; [done|].
  unfold save. simpl. by rewrite Hser.
Qed.

Lemma load_then_save_same_document_witness :
  ∃ self1,
    load (set_file sample_manager (Some sample_doc)) = Ok self1 ∧
    _serialize 2 (heap self1) (root self1) = Ok sample_doc ∧
    save 2 self1 = Ok self1.
Proof.
  apply (load_then_save_same_document 2 (set_file sample_manager (Some sample_doc))
           sample_doc).
  - reflexivity.
  - simpl. lia.
Defined.

(** * The collaborator directory *)

(** ** The order of strings *)

Lemma ltb_lt a b : String.ltb a b = true ↔ OrderedTypeEx.String_as_OT.lt a b.
Proof.
  rewrite <-OrderedTypeEx.String_as_OT.cmp_lt.
  unfold String.ltb, OrderedTypeEx.String_as_OT.cmp.
  by destruct (String.compare a b).
Qed.

Lemma ltb_irrefl a : String.ltb a a = false.
Proof.
  destruct (String.ltb a a) eqn:H; [|done].
  apply ltb_lt, OrderedTypeEx.String_as_OT.lt_not_eq in H. by destruct H.
Qed.

Lemma ltb_trans a b c :
  String.ltb a b = true → String.ltb b c = true → String.ltb a c = true.
Proof.
  rewrite !ltb_lt. apply OrderedTypeEx.String_as_OT.lt_trans.
Qed.

Lemma ltb_trichotomy a b :
  String.ltb a b = false → String.ltb b a = false → a = b.
Proof.
  unfold String.ltb. rewrite (String.compare_antisym b a).
  destruct (String.compare a b) eqn:H; simpl; try done.
  intros _ _. by apply String.compare_eq_iff.
Qed.

Lemma ltb_asym a b : String.ltb a b = true → String.ltb b a = false.
Proof.
  intros H. destruct (String.ltb b a) eqn:H'; [|done].
  pose proof (ltb_trans _ _ _ H H') as Haa. by rewrite ltb_irrefl in Haa.
Qed.

(** [a < b ≤ c] gives [a < c], and [a ≤ b ≤ c] gives [a ≤ c]. *)
Lemma ltb_le_trans a b c :
  String.ltb a b = true → String.ltb c b = false → String.ltb a c = true.
Proof.
  intros Hab Hbc. destruct (String.ltb b c) eqn:Hlt.
  - by eapply ltb_trans.
  - by rewrite <-(ltb_trichotomy _ _ Hlt Hbc).
Qed.

Lemma str_le_ltb_trans a b c :
  String.ltb b a = false → String.ltb b c = true → String.ltb a c = true.
Proof.
  intros Hab Hbc. destruct (String.ltb a b) eqn:Hlt.
  - by eapply ltb_trans.
  - by rewrite (ltb_trichotomy _ _ Hlt Hab).
Qed.

Lemma str_le_trans a b c :
  String.ltb b a = false → String.ltb c b = false → String.ltb c a = false.
Proof.
  intros Hab Hbc. destruct (String.ltb c a) eqn:Hca; [|done].
  pose proof (ltb_le_trans _ _ _ Hca Hab) as H. congruence.
Qed.

(** ** Trees of collaborators *)

Lemma Collaborator_ind' (P : CollaboratorBST.Collaborator → Prop) :
  (∀ n r l rt,
     (∀ c, l = Some c → P c) → (∀ c, rt = Some c → P c) →
     P (CollaboratorBST.mkCollaborator n r l rt)) →
  ∀ c, P c.
Proof.
  intros step. fix IH 1. intros [n r [cl|] [cr|]]; apply step;
    intros c Heq; try discriminate; injection Heq as <-; apply IH.
Qed.

Module CollaboratorFacts.
Import CollaboratorBST.

Lemma insert_unfold n r l rt nm rl :
  _insert (mkCollaborator n r l rt) nm rl =
  if String.ltb nm n then mkCollaborator n r (Some (collab_child_after l nm rl)) rt
  else mkCollaborator n r l (Some (collab_child_after rt nm rl)).
Proof. simpl. by destruct (String.ltb nm n), l, rt. Qed.

Lemma find_from_unfold n r l rt x :
  find_from (mkCollaborator n r l rt) x =
  if decide (n = x) then Some (mkCollaborator n r l rt)
  else if String.ltb x n then _find_node l x else _find_node rt x.
Proof. simpl. by destruct (decide (n = x)), (String.ltb x n), l, rt. Qed.

Lemma names_unfold n r l rt :
  names (mkCollaborator n r l rt) = names_opt l ++ n :: names_opt rt.
Proof. by destruct l, rt. Qed.

Lemma bst_unfold n r l rt :
  bst (mkCollaborator n r l rt) ↔
  Forall (λ x, String.ltb x n = true) (names_opt l) ∧
  Forall (λ x, String.ltb x n = false) (names_opt rt) ∧
  bst_opt l ∧ bst_opt rt.
Proof. by destruct l, rt. Qed.

(** The role found under [nm'] once [(nm, rl)] went in. *)
Lemma find_child_after o nm rl nm' :
  (∀ c, o = Some c → ∀ nm',
     c_role <$> find_from (_insert c nm rl) nm' =
     if decide (nm' = nm)
     then Some (match find_from c nm with Some x => c_role x | None => rl end)
     else c_role <$> find_from c nm') →
  c_role <$> find_from (collab_child_after o nm rl) nm' =
  if decide (nm' = nm)
  then Some (match _find_node o nm with Some x => c_role x | None => rl end)
  else c_role <$> _find_node o nm'.
Proof.
  intros IH. destruct o as [c|]; simpl; [by apply IH|].
  destruct (decide (nm = nm')) as [->|Hne].
  - by rewrite decide_True.
  - rewrite decide_False by done. by destruct (String.ltb nm' nm).
Qed.

Lemma find_insert c nm rl :
  ∀ nm',
  c_role <$> find_from (_insert c nm rl) nm' =
  if decide (nm' = nm)
  then Some (match find_from c nm with Some x => c_role x | None => rl end)
  else c_role <$> find_from c nm'.
Proof.
  induction c as [n r l rt IHl IHr] using Collaborator_ind'. intros nm'.
  pose proof (find_child_after l nm rl nm' IHl) as Hl.
  pose proof (find_child_after rt nm rl nm' IHr) as Hr.
  rewrite insert_unfold, !(find_from_unfold n r l rt).
  destruct (String.ltb nm n) eqn:Hlt; rewrite find_from_unfold.
  - assert (n ≠ nm) as Hn by (intros ->; by rewrite ltb_irrefl in Hlt).
    rewrite (decide_False (P := n = nm)) by done.
    destruct (decide (n = nm')) as [->|Hne].
    + by rewrite decide_False by done.
    + destruct (String.ltb nm' n) eqn:Hlt'; simpl; [exact Hl|].
      rewrite decide_False; [done|]. intros ->. congruence.
  - destruct (decide (n = nm')) as [->|Hne].
    + by destruct (decide (nm' = nm)).
    + destruct (String.ltb nm' n) eqn:Hlt'; simpl.
      * rewrite decide_False; [done|]. intros ->. congruence.
      * destruct (decide (n = nm)) as [->|Hnn]; [|exact Hr].
        rewrite decide_False by done. rewrite decide_False in Hr by done. exact Hr.
Qed.

(** X11: [find] after [add]: a name that was not in the directory is
    found with the role given to [add]; a name that was already there
    is still found with its old role, [add] never replacing an entry;
    and every other name is found, or not, with the role it had. *)
Theorem find_after_add self nm rl nm' :
  c_role <$> find (add self nm rl) nm' =
  if decide (nm' = nm)
  then Some (match find self nm with Some x => c_role x | None => rl end)
  else c_role <$> find self nm'.
Proof.
  unfold find, add. simpl. destruct (root self) as [c|]; simpl.
  - apply find_insert.
  - destruct (decide (nm = nm')) as [->|Hne].
    + by rewrite decide_True.
    + rewrite decide_False by done. by destruct (String.ltb nm' nm).
Qed.

(** ** Order and membership *)

Lemma names_child_after o nm rl :
  (∀ c, o = Some c → names (_insert c nm rl) ≡ₚ nm :: names c) →
  names (collab_child_after o nm rl) ≡ₚ nm :: names_opt o.
Proof. intros IH. destruct o as [c|]; simpl; [by apply IH|done]. Qed.

Lemma names_insert c nm rl : names (_insert c nm rl) ≡ₚ nm :: names c.
Proof.
  induction c as [n r l rt IHl IHr] using Collaborator_ind'.
  pose proof (names_child_after l nm rl IHl) as Hl.
  pose proof (names_child_after rt nm rl IHr) as Hr.
  rewrite insert_unfold. destruct (String.ltb nm n); rewrite !names_unfold; simpl.
  - by rewrite Hl.
  - rewrite Hr. by rewrite <-!Permutation_middle, Permutation_swap.
Qed.

Lemma bst_child_after o nm rl :
  (∀ c, o = Some c → bst c → bst (_insert c nm rl)) →
  bst_opt o → bst (collab_child_after o nm rl).
Proof.
  intros IH Ho. destruct o as [c|]; simpl; [by apply IH|].
  repeat split; constructor.
Qed.

Lemma bst_insert c nm rl : bst c → bst (_insert c nm rl).
Proof.
  induction c as [n r l rt IHl IHr] using Collaborator_ind'.
  rewrite insert_unfold, bst_unfold. intros (Hl & Hr & Hbl & Hbr).
  destruct (String.ltb nm n) eqn:Hlt; apply bst_unfold; simpl.
  - split; [|by repeat split; [|apply bst_child_after|]].
    rewrite names_child_after by (intros; apply names_insert). by constructor.
  - split; [done|]. split; [|by split; [|apply bst_child_after]].
    rewrite names_child_after by (intros; apply names_insert). by constructor.
Qed.

(** X12: [add] keeps the search-tree order (smaller names to the left,
    greater or equal ones to the right) and puts exactly one more entry
    in the directory, the new name, leaving the other names in place. *)
Theorem add_keeps_order self nm rl :
  bst_opt (root self) →
  bst_opt (root (add self nm rl)) ∧
  names_opt (root (add self nm rl)) ≡ₚ nm :: names_opt (root self).
Proof.
  intros Hb. unfold add. simpl. destruct (root self) as [c|]; simpl.
  - split; [by apply bst_insert|apply names_insert].
  - split; [|done]. repeat split; constructor.
Qed.

Lemma sample_bst : bst_opt (root sample).
Proof. vm_compute. repeat split; repeat constructor. Defined.

Lemma add_keeps_order_witness :
  bst_opt (root (add sample "bob" "ops")) ∧
  names_opt (root (add sample "bob" "ops")) ≡ₚ "bob" :: names_opt (root sample).
Proof. apply (add_keeps_order sample "bob" "ops"). apply sample_bst. Defined.

Lemma find_from_name c nm x : find_from c nm = Some x → c_name x = nm.
Proof.
  induction c as [n r l rt IHl IHr] using Collaborator_ind'.
  rewrite find_from_unfold. destruct (decide (n = nm)) as [->|_].
  - by intros [= <-].
  - destruct (String.ltb nm n).
    + destruct l as [cl|]; [by apply IHl|done].
    + destruct rt as [cr|]; [by apply IHr|done].
Qed.

Lemma find_from_bst c nm : bst c → is_Some (find_from c nm) ↔ nm ∈ names c.
Proof.
  induction c as [n r l rt IHl IHr] using Collaborator_ind'.
  rewrite bst_unfold, find_from_unfold, names_unfold.
  intros (Hl & Hr & Hbl & Hbr).
  rewrite elem_of_app, elem_of_cons.
  rewrite Forall_forall in Hl, Hr.
  destruct (decide (n = nm)) as [->|Hne]; [by split; [auto|eexists]|].
  destruct (String.ltb nm n) eqn:Hlt.
  - assert (is_Some (_find_node l nm) ↔ nm ∈ names_opt l) as ->.
    { destruct l as [cl|]; simpl; [by apply IHl|].
      split; [by intros [? ?]|by intros ?%elem_of_nil]. }
    split; [auto|]. intros [?|[->|Hin]]; [done|done|].
    apply Hr in Hin. congruence.
  - assert (is_Some (_find_node rt nm) ↔ nm ∈ names_opt rt) as ->.
    { destruct rt as [cr|]; simpl; [by apply IHr|].
      split; [by intros [? ?]|by intros ?%elem_of_nil]. }
    split; [auto|]. intros [Hin|[->|?]]; [|done|done].
    apply Hl in Hin. congruence.
Qed.

(** X13: on a directory in search-tree order, [find] answers a
    collaborator exactly for the names the directory holds, and the
    collaborator it answers bears the name asked for. *)
Theorem find_exactly_the_names self nm :
  bst_opt (root self) →
  (is_Some (find self nm) ↔ nm ∈ names_opt (root self)) ∧
  (∀ x, find self nm = Some x → c_name x = nm).
Proof.
  intros Hb. unfold find. destruct (root self) as [c|]; simpl.
  - split; [by apply find_from_bst|]. intros x. apply find_from_name.
  - split; [|done]. split; [by intros [? ?]|by intros ?%elem_of_nil].
Qed.

Lemma find_exactly_the_names_witness :
  (is_Some (find sample "zoe") ↔ "zoe" ∈ names_opt (root sample)) ∧
  (∀ x, find sample "zoe" = Some x → c_name x = "zoe").
Proof. apply (find_exactly_the_names sample "zoe"). apply sample_bst. Defined.

(** ** Removal *)








Example remove_sample :
  names_opt (root sample) = ["ana"; "mia"; "zoe"] ∧
  names_opt (root (remove sample "mia")) = ["ana"; "zoe"] ∧
  c_name <$> root (remove sample "mia") = Some "zoe".
Proof. repeat split; vm_compute; reflexivity. Qed.

(** ** Persistence *)

Lemma from_doc_to_dict c : from_doc (to_dict c) = c.
Proof.
  induction c as [n r l rt IHl IHr] using Collaborator_ind'.
  destruct l as [cl|], rt as [cr|]; simpl;
    rewrite ?(IHl cl), ?(IHr cr) by done; done.
Qed.

(** X15: what [save] writes, [load] reads back: a directory started
    from the file another one saved has the same tree, names and roles;
    started from a missing or malformed file it is empty. *)
Theorem save_then_restart self :
  root (__init__ (file (save self))) = root self ∧
  root (__init__ Missing) = None ∧ root (__init__ Malformed) = None.
Proof.
  split; [|done]. unfold __init__, load, save. simpl.
  destruct (root self) as [c|]; simpl; [|done]. by rewrite from_doc_to_dict.
Qed.

End CollaboratorFacts.

(** * The file store *)

Module BTreeFacts.
Import BTree.

Lemma BTreeNode_ind' (P : BTreeNode → Prop) :
  (∀ leaf keys values children,
     Forall P children → P (mkNode leaf keys values children)) →
  ∀ n, P n.
Proof.
  intros step. fix IH 1. intros [leaf keys values children]. apply step.
  exact ((fix go (cs : list BTreeNode) : Forall P cs :=
            match cs with
            | [] => List.Forall_nil P
            | c :: cs' => @List.Forall_cons _ P c cs' (IH c) (go cs')
            end) children).
Qed.

(** [_search] with the child taken by index. *)
Lemma _search_unfold leaf keys values children key :
  _search (mkNode leaf keys values children) key =
  let i := scan key keys in
  let descend :=
    if leaf then Ok None
    else match children !! i with
         | Some c => _search c key
         | None => Raise (IndexError "list index out of range")
         end in
  match keys !! i with
  | Some k =>
      if decide (key = k) then
        match values !! i with
        | Some v => Ok (Some v)
        | None => Raise (IndexError "list index out of range")
        end
      else descend
  | None => descend
  end.
Proof.
  cbn [_search]. cbv zeta.
  assert (∀ cs j,
    (fix child_at (cs : list BTreeNode) (j : nat) : result (option string) :=
       match cs, j with
       | c :: _, O => _search c key
       | _ :: cs', S j' => child_at cs' j'
       | [], _ => Raise (IndexError "list index out of range")
       end) cs j
    = match cs !! j with
      | Some c => _search c key
      | None => Raise (IndexError "list index out of range")
      end) as Hchild.
  { induction cs as [|c cs IH]; intros [|j]; done. }
  by rewrite Hchild.
Qed.

Lemma all_keys_elem leaf keys values children x :
  x ∈ all_keys (mkNode leaf keys values children) ↔
  x ∈ keys ∨ ∃ j c, children !! j = Some c ∧ x ∈ all_keys c.
Proof.
  cbn [all_keys]. rewrite elem_of_app. apply or_iff_compat_l.
  induction children as [|c cs IH].
  - split; [by intros ?%elem_of_nil | by intros (j & c & ? & _)].
  - rewrite elem_of_app, IH. split.
    + intros [H | (j & c' & Hj & H)]; [by exists 0, c | by exists (S j), c'].
    + intros ([|j] & c' & Hj & H).
      * left. by injection Hj as ->.
      * right. by exists j, c'.
Qed.

Lemma scan_le key keys : scan key keys ≤ length keys.
Proof.
  induction keys as [|k keys IH]; simpl; [lia|].
  destruct (String.ltb k key); lia.
Qed.

Lemma scan_below key keys j k :
  j < scan key keys → keys !! j = Some k → String.ltb k key = true.
Proof.
  revert j. induction keys as [|k0 keys IH]; intros j; simpl; [lia|].
  destruct (String.ltb k0 key) eqn:Hlt; [|lia].
  destruct j as [|j]; simpl.
  - by intros _ [= <-].
  - intros Hj. apply IH. lia.
Qed.

Lemma scan_at key keys k :
  keys !! scan key keys = Some k → String.ltb k key = false.
Proof.
  induction keys as [|k0 keys IH]; simpl; [done|].
  destruct (String.ltb k0 key) eqn:Hlt; simpl; [done|]. by intros [= <-].
Qed.

Lemma sorted_cons k keys :
  sorted (k :: keys) = true →
  sorted keys = true ∧ Forall (λ x, String.ltb k x = true) keys.
Proof.
  revert k. induction keys as [|k' keys IH]; intros k H; [done|].
  change (String.ltb k k' && sorted (k' :: keys) = true) in H.
  apply andb_true_iff in H as [H1 H2]. split; [done|].
  constructor; [done|]. destruct (IH k' H2) as [_ HF].
  eapply Forall_impl; [exact HF|]. intros x Hx. by eapply ltb_trans.
Qed.

Lemma sorted_lookup keys i j ki kj :
  sorted keys = true → i < j →
  keys !! i = Some ki → keys !! j = Some kj → String.ltb ki kj = true.
Proof.
  revert i j. induction keys as [|k keys IH]; intros i j Hs Hij Hi Hj; [done|].
  apply sorted_cons in Hs as [Hs HF].
  destruct j as [|j]; [lia|]. destruct i as [|i]; simpl in *.
  - injection Hi as ->. rewrite Forall_forall in HF. apply HF.
    eapply list_elem_of_lookup_2, Hj.
  - eapply (IH i j); [done|lia|done..].
Qed.

(** A key the scan does not stop on is not among the keys of the node. *)
Lemma scan_miss key keys :
  sorted keys = true → keys !! scan key keys ≠ Some key → key ∉ keys.
Proof.
  intros Hs Hne [j Hj]%list_elem_of_lookup.
  destruct (Nat.lt_trichotomy j (scan key keys)) as [Hlt|[->|Hgt]].
  - pose proof (scan_below _ _ _ _ Hlt Hj) as H. by rewrite ltb_irrefl in H.
  - done.
  - destruct (keys !! scan key keys) as [ki|] eqn:Hi.
    + pose proof (sorted_lookup _ _ _ _ _ Hs Hgt Hi Hj) as H.
      apply scan_at in Hi. congruence.
    + apply lookup_ge_None in Hi. apply lookup_lt_Some in Hj. lia.
Qed.

Lemma wf_unfold lo hi leaf keys values children :
  wf lo hi (mkNode leaf keys values children) = true →
  sorted keys = true ∧
  Forall (λ k, in_range lo hi k = true) keys ∧
  length values = length keys ∧
  if leaf then children = []
  else length children = S (length keys) ∧
       ∀ j c, children !! j = Some c →
         wf (match j with O => lo | S j' => keys !! j' end)
            (match keys !! j with Some k => Some k | None => hi end) c = true.
Proof.
  cbn [wf]. rewrite !andb_true_iff, Nat.eqb_eq, forallb_forall, Forall_forall.
  intros [[[Hs Hr] Hl] Hc]. split; [done|]. split.
  { intros x Hx. apply Hr. by apply list_elem_of_In. }
  split; [done|]. destruct leaf.
  { by destruct children. }
  clear Hs Hr Hl. revert lo keys Hc.
  induction children as [|c cs IH]; intros lo keys Hc; [done|].
  destruct keys as [|k keys].
  - destruct cs; [|done]. split; [done|]. intros [|j] c'; [|done].
    by intros [= <-].
  - assert (wf lo (Some k) c = true ∧
            (fix go (lo : option string) (ks : list string)
               (cs : list BTreeNode) {struct cs} : bool :=
               match cs, ks with
               | [c], [] => wf lo hi c
               | c :: cs', k :: ks' => wf lo (Some k) c && go (Some k) ks' cs'
               | _, _ => false
               end) (Some k) keys cs = true) as [Hc' Hgo].
    { by destruct cs; apply andb_true_iff in Hc. }
    destruct (IH _ _ Hgo) as [Hlen Hkids]. split; [simpl; lia|].
    intros [|j] c'; simpl.
    + by intros [= <-].
    + intros Hj. specialize (Hkids j c' Hj). by destruct j.
Qed.

Lemma in_range_widen lo hi lo' hi' x :
  in_range lo' hi' x = true →
  (lo' = lo ∨ ∃ k, lo' = Some k ∧ in_range lo hi k = true) →
  (hi' = hi ∨ ∃ k, hi' = Some k ∧ in_range lo hi k = true) →
  in_range lo hi x = true.
Proof.
  unfold in_range. rewrite !andb_true_iff. intros [Hl Hh] Hlo Hhi. split.
  - destruct Hlo as [->|(k & -> & [Hk _]%andb_true_iff)]; [done|].
    destruct lo as [l|]; [|done]. by eapply ltb_trans.
  - destruct Hhi as [->|(k & -> & [_ Hk]%andb_true_iff)]; [done|].
    destruct hi as [h|]; [|done]. by eapply ltb_trans.
Qed.

(** The keys of a tree in shape lie within its bounds. *)
Lemma wf_range node : ∀ lo hi x,
  wf lo hi node = true → x ∈ all_keys node → in_range lo hi x = true.
Proof.
  induction node as [leaf keys values children IH] using BTreeNode_ind'.
  intros lo hi x Hwf Hx. apply wf_unfold in Hwf as (Hs & Hr & Hl & Hc).
  rewrite Forall_forall in Hr.
  apply all_keys_elem in Hx as [Hx|(j & c & Hj & Hx)]; [by apply Hr|].
  destruct leaf; [by subst|]. destruct Hc as [Hlen Hkids].
  rewrite Forall_lookup in IH.
  pose proof (IH j c Hj _ _ x (Hkids j c Hj) Hx) as Hin.
  eapply in_range_widen; [exact Hin|..].
  - destruct j as [|j']; [by left|]. right.
    apply lookup_lt_Some in Hj.
    destruct (lookup_lt_is_Some_2 keys j') as [k Hk]; [lia|].
    exists k. split; [done|]. apply Hr. eapply list_elem_of_lookup_2, Hk.
  - destruct (keys !! j) as [k|] eqn:Hk; [|by left]. right.
    exists k. split; [done|]. apply Hr. eapply list_elem_of_lookup_2, Hk.
Qed.

(** X16: [insert] stores nothing.  Any number of inserts leaves the
    tree as it was and only writes it to the file; the first of them
    raises [AttributeError] when the root holds [2t - 1] keys. *)
Theorem inserts_store_nothing self entries :
  insert_all self entries =
  match entries with
  | [] => Ok self
  | _ :: _ =>
      if decide (Z.of_nat (length (n_keys (root self))) = (2 * t self - 1)%Z)
      then Raise (AttributeError "'BTree' object has no attribute '_split_child'")
      else Ok (save self)
  end.
Proof.
  destruct entries as [|[key value] entries]; [done|].
  cbn [insert_all]. unfold insert, _insert_non_full.
  destruct (decide _) as [Hfull|Hnot]; [done|].
  induction entries as [|[key' value'] entries IH]; [done|].
  cbn [insert_all]. unfold insert, _insert_non_full. cbn [save root t].
  rewrite decide_False by done. exact IH.
Qed.

(** X17: on a store started without a file, no sequence of inserts
    raises, and after it no key is found, the inserted ones included. *)
Theorem fresh_store_stays_empty t0 entries :
  ∃ self,
    insert_all (__init__ t0 None) entries = Ok self ∧
    root self = mkNode true [] [] [] ∧
    ∀ k, search self k = Ok None.
Proof.
  assert (∀ self, root self = mkNode true [] [] [] →
            ∃ self', insert_all self entries = Ok self' ∧
                     root self' = mkNode true [] [] []) as H.
  { induction entries as [|[key value] entries IH]; intros self Hroot; simpl.
    - by exists self.
    - unfold insert. rewrite Hroot. simpl.
      rewrite decide_False by lia. apply IH. simpl. done. }
  destruct (H (__init__ t0 None) eq_refl) as (self & Hok & Hroot).
  exists self. split; [done|]. split; [done|]. intros k. unfold search.
  by rewrite Hroot.
Qed.

(** X18: what [_search] returns it has read in the tree: a value it
    answers with stands, in some node of the tree, at the index at which
    the key stands among that node's keys. *)
Theorem search_answer_is_stored node key v :
  _search node key = Ok (Some v) →
  ∃ n i, inside n node ∧ n_keys n !! i = Some key ∧ n_values n !! i = Some v.
Proof.
  induction node as [leaf keys values children IH] using BTreeNode_ind'.
  rewrite _search_unfold. cbv zeta. intros H.
  assert ((if leaf then Ok None
           else match children !! scan key keys with
                | Some c => _search c key
                | None => Raise (IndexError "list index out of range")
                end) = Ok (Some v) →
          ∃ n i, inside n (mkNode leaf keys values children) ∧
                 n_keys n !! i = Some key ∧ n_values n !! i = Some v) as Hdesc.
  { destruct leaf; [done|].
    destruct (children !! scan key keys) as [c|] eqn:Hc; [|done].
    intros Hs. rewrite Forall_lookup in IH.
    destruct (IH _ _ Hc Hs) as (n & i & Hin & Hk & Hv).
    exists n, i. split; [|done]. eapply inside_child; [|exact Hin].
    eapply list_elem_of_lookup_2, Hc. }
  destruct (keys !! scan key keys) as [k|] eqn:Hk; [|by apply Hdesc].
  destruct (decide (key = k)) as [->|Hne]; [|by apply Hdesc].
  destruct (values !! scan k keys) as [v'|] eqn:Hv; [|done].
  injection H as ->.
  exists (mkNode leaf keys values children), (scan k keys).
  split; [constructor|]. done.
Qed.

Lemma search_answer_is_stored_witness :
  _search (root sample) "f" = Ok (Some "6") ∧
  ∃ n i, inside n (root sample) ∧
         n_keys n !! i = Some "f" ∧ n_values n !! i = Some "6".
Proof.
  split; [reflexivity|]. apply (search_answer_is_stored (root sample) "f" "6").
  reflexivity.
Defined.

(** X19: on a tree in search-tree shape [_search] never raises, and it
    answers with a value exactly for the keys of the tree. *)
Theorem search_finds_exactly_the_keys node key :
  wf None None node = true →
  ∃ r, _search node key = Ok r ∧ (is_Some r ↔ key ∈ all_keys node).
Proof.
  generalize (@None string) at 1 as lo. generalize (@None string) as hi.
  induction node as [leaf keys values children IH] using BTreeNode_ind'.
  intros hi lo Hwf. pose proof Hwf as (Hs & Hr & Hl & Hc)%wf_unfold.
  rewrite _search_unfold. cbv zeta.
  assert (keys !! scan key keys ≠ Some key →
          ∃ r, (if leaf then Ok None
                else match children !! scan key keys with
                     | Some c => _search c key
                     | None => Raise (IndexError "list index out of range")
                     end) = Ok r ∧
               (is_Some r ↔ key ∈ all_keys (mkNode leaf keys values children)))
    as Hdesc.
  { intros Hne. pose proof (scan_miss _ _ Hs Hne) as Hmiss.
    destruct leaf.
    - subst children. exists None. split; [done|]. rewrite all_keys_elem. split.
      + by intros [? [=]].
      + intros [?|(j & c & Hj & _)]; done.
    - destruct Hc as [Hlen Hkids]. pose proof (scan_le key keys) as Hle.
      destruct (lookup_lt_is_Some_2 children (scan key keys)) as [c Hci]; [lia|].
      rewrite Hci. rewrite Forall_lookup in IH.
      destruct (IH _ _ Hci _ _ (Hkids _ _ Hci)) as (r & Hr' & Hiff).
      exists r. split; [done|]. rewrite Hiff, all_keys_elem. split.
      + intros Hin. right. by exists (scan key keys), c.
      + intros [Hin|(j & c' & Hj & Hin)]; [done|].
        pose proof (wf_range _ _ _ _ (Hkids _ _ Hj) Hin) as Hrange.
        apply andb_true_iff in Hrange as [Hlo Hhi].
        destruct (Nat.lt_trichotomy j (scan key keys)) as [Hlt|[->|Hgt]].
        * destruct (lookup_lt_is_Some_2 keys j) as [k Hk]; [lia|].
          rewrite Hk in Hhi. pose proof (scan_below _ _ _ _ Hlt Hk) as Hb.
          pose proof (ltb_trans _ _ _ Hhi Hb) as Hkk.
          by rewrite ltb_irrefl in Hkk.
        * by simplify_eq.
        * destruct j as [|j']; [lia|].
          apply lookup_lt_Some in Hj.
          destruct (lookup_lt_is_Some_2 keys j') as [k Hk]; [lia|].
          rewrite Hk in Hlo.
          destruct (lookup_lt_is_Some_2 keys (scan key keys)) as [ki Hki]; [lia|].
          pose proof (scan_at _ _ _ Hki) as Hat.
          assert (String.ltb ki key = true) as Hlt; [|congruence].
          destruct (decide (scan key keys = j')) as [Heq|Hneq].
          { rewrite Heq in Hki. by simplify_eq. }
          eapply ltb_trans; [|exact Hlo].
          eapply (sorted_lookup keys (scan key keys) j'); [done|lia|done..]. }
  destruct (keys !! scan key keys) as [k|] eqn:Hk; [|by apply Hdesc].
  destruct (decide (key = k)) as [->|Hne]; [|apply Hdesc; congruence].
  destruct (lookup_lt_is_Some_2 values (scan k keys)) as [v Hv].
  { rewrite Hl. by eapply lookup_lt_Some. }
  rewrite Hv. exists (Some v). split; [done|]. split; [|done].
  intros _. apply all_keys_elem. left. eapply list_elem_of_lookup_2, Hk.
Qed.

Lemma search_finds_exactly_the_keys_witness :
  wf None None (root sample) = true ∧
  ∃ r, _search (root sample) "p" = Ok r ∧
       (is_Some r ↔ "p" ∈ all_keys (root sample)).
Proof.
  split; [reflexivity|].
  apply (search_finds_exactly_the_keys (root sample) "p"). reflexivity.
Defined.

(** X20: a tree written by [save] is read back unchanged by [load], and
    a document read by [load] is written back unchanged by [save]. *)
Theorem save_load_same_tree :
  (∀ self, root (load (save self)) = root self ∧
           file (load (save self)) = Some (_serialize (root self))) ∧
  (∀ t0 data, file (save (__init__ t0 (Some data))) = Some data).
Proof.
  assert (∀ node, _deserialize (_serialize node) = node) as Hds.
  { induction node as [leaf keys values children IH] using BTreeNode_ind'.
    cbn [_serialize _deserialize]. f_equal.
    induction IH as [|c cs Hc _ IHcs]; [done|]. by rewrite Hc, IHcs. }
  assert (∀ data, _serialize (_deserialize data) = data) as Hsd.
  { fix IH 1. intros [leaf keys values children].
    cbn [_serialize _deserialize]. f_equal.
    induction children as [|d ds IHds]; [done|]. by rewrite IH, IHds. }
  split.
  - intros self. unfold load, save. simpl. by rewrite Hds.
  - intros t0 data. unfold __init__, load, save. simpl. by rewrite Hsd.
Qed.

End BTreeFacts.

(** * Roles and permissions *)

Module RoleFacts.
Import RoleManager.

Lemma avl_Node lo hi e r p l rt h :
  avl lo hi (Node e r p l rt h) = true ↔
  in_range lo hi e = true ∧ avl lo (Some e) l = true ∧
  avl (Some e) hi rt = true ∧
  h = (1 + Z.max (_height l) (_height rt))%Z ∧
  (-1 ≤ _height l - _height rt ≤ 1)%Z.
Proof. cbn [avl]. rewrite !andb_true_iff, Z.eqb_eq, !Z.leb_le. tauto. Qed.

Lemma avl_height_nonneg t : ∀ lo hi, avl lo hi t = true → (0 ≤ _height t)%Z.
Proof.
  induction t as [|e r p l IHl rt IHr h]; intros lo hi.
  - simpl. lia.
  - intros (_ & Hl & Hr & -> & _)%avl_Node.
    apply IHl in Hl. apply IHr in Hr. cbn [_height]. lia.
Qed.

Lemma in_range_inv lo hi x :
  in_range lo hi x = true ↔
  match lo with Some l => String.ltb l x | None => true end = true ∧
  match hi with Some h => String.ltb x h | None => true end = true.
Proof. unfold in_range. by rewrite andb_true_iff. Qed.

Lemma emails_Node e r p l rt h :
  emails (Node e r p l rt h) = emails l ++ e :: emails rt.
Proof. unfold emails. cbn [entries]. by rewrite fmap_app, fmap_cons. Qed.

Ltac avl_inv :=
  repeat match goal with
  | H : avl _ _ (Node _ _ _ _ _ _) = true |- _ =>
      apply avl_Node in H as (? & ? & ? & ? & ?)
  | H : in_range _ _ _ = true |- _ => apply in_range_inv in H as [? ?]
  end.

Ltac avl_heights :=
  repeat match goal with
  | H : avl _ _ ?t = true |- _ =>
      lazymatch goal with
      | _ : (0 ≤ _height t)%Z |- _ => fail
      | _ => pose proof (avl_height_nonneg _ _ _ H)
      end
  end.

Ltac solve_bound :=
  assumption ||
  (match goal with
   | |- match ?b with _ => _ end = true => destruct b; [|done]
   end;
   eauto using ltb_trans).

Ltac solve_avl :=
  cbn [_height] in *;
  repeat match goal with
  | |- avl _ _ (Node _ _ _ _ _ _) = true =>
      apply avl_Node; split; [|split; [|split; [|split]]]
  end;
  cbn [_height];
  try assumption;
  try (apply in_range_inv; split; solve_bound);
  try lia.

Ltac solve_entries H :=
  cbn [entries] in *;
  match goal with
  | |- _ ≡ₚ ?a :: ?l ++ ?X => change (a :: l ++ X) with ((a :: l) ++ X)
  | |- _ ≡ₚ ?a :: ?l => idtac
  end;
  rewrite <-H;
  repeat first [rewrite <-app_assoc | progress cbn [app]];
  done.

Ltac solve_entries_r H :=
  cbn [entries] in *;
  repeat first [rewrite <-app_assoc in H | progress cbn [app] in H];
  repeat first [rewrite <-app_assoc | progress cbn [app]];
  rewrite H, <-?Permutation_middle;
  (done || apply perm_swap).

Lemma insert_avl email role permissions t : ∀ lo hi,
  avl lo hi t = true → in_range lo hi email = true → email ∉ emails t →
  ∃ t', _insert t email role permissions = Ok t' ∧
        avl lo hi t' = true ∧
        entries t' ≡ₚ (email, (role, permissions)) :: entries t ∧
        (_height t' = _height t ∨
         (_height t' = (_height t + 1)%Z ∧ grown email t')).
Proof.
  induction t as [|e r p l IHl rt IHr h]; intros lo hi Havl Hin Hnew.
  - eexists. split; [reflexivity|]. split.
    { apply avl_Node. cbn. repeat split; done || lia. }
    split; [done|]. right. split; [done|]. left. done.
  - rewrite emails_Node, not_elem_of_app, not_elem_of_cons in Hnew.
    destruct Hnew as (Hnl & Hne & Hnr).
    apply avl_Node in Havl as (He & Hl & Hr & -> & Hbal).
    pose proof (avl_height_nonneg _ _ _ Hl) as Hl0.
    pose proof (avl_height_nonneg _ _ _ Hr) as Hr0.
    cbn [_insert]. destruct (String.ltb email e) eqn:Hlt.
    + destruct (IHl lo (Some e) Hl) as (l' & -> & Hl' & Hperm & Hh); [|done|].
      { apply in_range_inv in Hin as [? _]. by apply in_range_inv. }
      clear IHl IHr. cbn [bind _get_balance].
      destruct (Z.ltb_spec 1 (_height l' - _height rt)) as [Hb|Hb].
      * destruct Hh as [Hh|[Hh Hg]]; [lia|].
        destruct l' as [|le lr lp ll lrr lh]; [done|].
        cbn [grown] in Hg. avl_inv. subst lh. cbn [_height] in *.
        avl_heights.
        destruct Hg as [[-> ->]|[[Hlt' Hg]|[Hlt' Hg]]].
        -- cbn [_height] in *. lia.
        -- rewrite Hlt'. eexists. split; [reflexivity|]. split; [solve_avl|].
           split; [solve_entries Hperm|]. left. cbn [_height]. lia.
        -- rewrite (ltb_asym _ _ Hlt').
           destruct lrr as [|lre lrr' lrp lrl lrrr lrh].
           { cbn [_height] in *. lia. }
           avl_inv. subst lrh. cbn [_height] in *. avl_heights.
           eexists. split; [reflexivity|]. split; [solve_avl|].
           split; [solve_entries Hperm|]. left. cbn [_height]. lia.
      * destruct (Z.ltb_spec (_height l' - _height rt) (-1)) as [Hb'|Hb'].
        { destruct Hh as [Hh|[Hh _]]; lia. }
        eexists. split; [reflexivity|]. avl_inv. split; [solve_avl|].
        split; [solve_entries Hperm|]. cbn [_height grown].
        destruct Hh as [Hh|[Hh Hg]]; [left; lia|].
        destruct (decide (_height l ≤ _height rt - 1)%Z); [left; lia|].
        right. split; [lia|]. right. left. split; [done|lia].
    + assert (String.ltb e email = true) as Hgt.
      { destruct (String.ltb e email) eqn:Hgt; [done|].
        by destruct Hne; apply ltb_trichotomy. }
      destruct (IHr (Some e) hi Hr) as (rt' & -> & Hr' & Hperm & Hh); [|done|].
      { apply in_range_inv in Hin as [_ ?]. by apply in_range_inv. }
      clear IHl IHr. cbn [bind _get_balance].
      destruct (Z.ltb_spec 1 (_height l - _height rt')) as [Hb|Hb].
      { destruct Hh as [Hh|[Hh _]]; lia. }
      destruct (Z.ltb_spec (_height l - _height rt') (-1)) as [Hb'|Hb'].
      * destruct Hh as [Hh|[Hh Hg]]; [lia|].
        destruct rt' as [|re rr rp rl rrr rh]; [done|].
        cbn [grown] in Hg. avl_inv. subst rh. cbn [_height] in *.
        avl_heights.
        destruct Hg as [[-> ->]|[[Hlt' Hg]|[Hlt' Hg]]].
        -- cbn [_height] in *. lia.
        -- rewrite (ltb_asym _ _ Hlt').
           destruct rl as [|rle rlr rlp rll rlrr rlh].
           { cbn [_height] in *. lia. }
           avl_inv. subst rlh. cbn [_height] in *. avl_heights.
           eexists. split; [reflexivity|]. split; [solve_avl|].
           split; [solve_entries_r Hperm|]. left. cbn [_height]. lia.
        -- rewrite Hlt'. eexists. split; [reflexivity|]. split; [solve_avl|].
           split; [solve_entries_r Hperm|]. left. cbn [_height]. lia.
      * eexists. split; [reflexivity|]. avl_inv. split; [solve_avl|].
        split; [solve_entries_r Hperm|]. cbn [_height grown].
        destruct Hh as [Hh|[Hh Hg]]; [left; lia|].
        destruct (decide (_height rt ≤ _height l - 1)%Z); [left; lia|].
        right. split; [lia|]. right. right. split; [done|lia].
Qed.

Lemma left_rotate_entries z z' : _left_rotate z = Ok z' → entries z' = entries z.
Proof.
  destruct z as [|ze zr zp zl [|ye yr yp T2 yrt yh] zh]; try done.
  intros [= <-]. cbn [entries]. by rewrite <-app_assoc.
Qed.

Lemma right_rotate_entries z z' : _right_rotate z = Ok z' → entries z' = entries z.
Proof.
  destruct z as [|ze zr zp [|ye yr yp yl T3 yh] zrt zh]; try done.
  intros [= <-]. cbn [entries]. by rewrite <-app_assoc.
Qed.

Lemma insert_entries email role permissions t : ∀ t',
  _insert t email role permissions = Ok t' →
  entries t' ≡ₚ (email, (role, permissions)) :: entries t.
Proof.
  induction t as [|e r p l IHl rt IHr h]; intros t'.
  - by intros [= <-].
  - cbn [_insert].
    assert (∀ l' rt',
      entries l' ++ (e, (r, p)) :: entries rt'
        ≡ₚ (email, (role, permissions)) :: entries l ++ (e, (r, p)) :: entries rt →
      (let node := Node e r p l' rt' (1 + Z.max (_height l') (_height rt')) in
       balance ← _get_balance node;
       if (1 <? balance)%Z then
         match l' with
         | Null => Raise (none_has_no "email")
         | Node le _ _ _ _ _ =>
             if String.ltb email le then _right_rotate node
             else l'' ← _left_rotate l'; _right_rotate (set_left node l'')
         end
       else if (balance <? -1)%Z then
         match rt' with
         | Null => Raise (none_has_no "email")
         | Node re _ _ _ _ _ =>
             if String.ltb re email then _left_rotate node
             else rt'' ← _right_rotate rt'; _left_rotate (set_right node rt'')
         end
       else Ok node) = Ok t' →
      entries t' ≡ₚ (email, (role, permissions)) :: entries l ++ (e, (r, p)) :: entries rt)
      as Htail.
    { intros l' rt' Hperm. cbv zeta. cbn [bind _get_balance].
      destruct (1 <? _)%Z.
      - destruct l' as [|le lr lp ll lrr lh] eqn:El; [done|]. rewrite <-El in *.
        destruct (String.ltb email le).
        + intros ->%right_rotate_entries. by cbn [entries].
        + destruct (_left_rotate l') as [l''| |] eqn:Hrot; try done.
          cbn [bind]. intros ->%right_rotate_entries.
          apply left_rotate_entries in Hrot. rewrite El. cbn [set_left entries].
          by rewrite Hrot.
      - destruct (_ <? -1)%Z.
        + destruct rt' as [|re rr rp rl rrr rh] eqn:Er; [done|]. rewrite <-Er in *.
          destruct (String.ltb re email).
          * intros ->%left_rotate_entries. by cbn [entries].
          * destruct (_right_rotate rt') as [rt''| |] eqn:Hrot; try done.
            cbn [bind]. intros ->%left_rotate_entries.
            apply right_rotate_entries in Hrot. cbn [set_right entries].
            by rewrite Hrot.
        + by intros [= <-]. }
    destruct (String.ltb email e).
    + destruct (_insert l email role permissions) as [l'| |]; try done.
      cbn [bind]. apply Htail. by rewrite (IHl l' eq_refl).
    + destruct (_insert rt email role permissions) as [rt'| |]; try done.
      cbn [bind]. apply Htail. rewrite (IHr rt' eq_refl).
      by rewrite <-!Permutation_middle, perm_swap.
Qed.

(** The emails of an AVL-shaped tree lie within its bounds. *)
Lemma avl_range t : ∀ lo hi x,
  avl lo hi t = true → x ∈ emails t → in_range lo hi x = true.
Proof.
  induction t as [|e r p l IHl rt IHr h]; intros lo hi x Havl.
  - by intros ?%elem_of_nil.
  - rewrite emails_Node, elem_of_app, elem_of_cons.
    apply avl_Node in Havl as (He & Hl & Hr & _).
    intros [Hx|[->|Hx]]; [|done|].
    + specialize (IHl _ _ _ Hl Hx). avl_inv. apply in_range_inv.
      split; solve_bound.
    + specialize (IHr _ _ _ Hr Hx). avl_inv. apply in_range_inv.
      split; solve_bound.
Qed.

Lemma entries_emails t e v : (e, v) ∈ entries t → e ∈ emails t.
Proof. intros H. unfold emails. apply list_elem_of_fmap. by exists (e, v). Qed.

Lemma search_avl t email : ∀ lo hi,
  avl lo hi t = true →
  match _search t email with
  | Null => email ∉ emails t
  | Node e r p _ _ _ =>
      e = email ∧ ∀ v, (email, v) ∈ entries t ↔ v = (r, p)
  end.
Proof.
  induction t as [|e r p l IHl rt IHr h]; intros lo hi Havl.
  - apply not_elem_of_nil.
  - apply avl_Node in Havl as (He & Hl & Hr & _). cbn [_search].
    assert (∀ v, (email, v) ∈ entries l → String.ltb email e = true) as Hleft.
    { intros v Hv%entries_emails. apply (avl_range _ _ _ _ Hl) in Hv.
      by apply in_range_inv in Hv as [_ ?]. }
    assert (∀ v, (email, v) ∈ entries rt → String.ltb e email = true) as Hright.
    { intros v Hv%entries_emails. apply (avl_range _ _ _ _ Hr) in Hv.
      by apply in_range_inv in Hv as [? _]. }
    assert (∀ x, x ∈ emails l → String.ltb x e = true) as Hleft'.
    { intros x Hx. apply (avl_range _ _ _ _ Hl) in Hx.
      by apply in_range_inv in Hx as [_ ?]. }
    assert (∀ x, x ∈ emails rt → String.ltb e x = true) as Hright'.
    { intros x Hx. apply (avl_range _ _ _ _ Hr) in Hx.
      by apply in_range_inv in Hx as [? _]. }
    destruct (decide (e = email)) as [->|Hne].
    + split; [done|]. intros v. cbn [entries].
      rewrite elem_of_app, elem_of_cons. split.
      * intros [Hv|[Hv|Hv]].
        -- apply Hleft in Hv. by rewrite ltb_irrefl in Hv.
        -- by injection Hv.
        -- apply Hright in Hv. by rewrite ltb_irrefl in Hv.
      * intros ->. right. by left.
    + destruct (String.ltb email e) eqn:Hlt.
      * specialize (IHl _ _ Hl). destruct (_search l email) as [|e' r' p' ? ? ?].
        -- rewrite emails_Node, not_elem_of_app, not_elem_of_cons.
           split; [done|]. split; [done|]. intros Hx%Hright'.
           by rewrite (ltb_asym _ _ Hlt) in Hx.
        -- destruct IHl as [-> IHl]. split; [done|]. intros v. rewrite <-IHl.
           cbn [entries]. rewrite elem_of_app, elem_of_cons. split.
           ++ intros [Hv|[Hv|Hv]]; [done|by simplify_eq|].
              apply Hright in Hv. by rewrite (ltb_asym _ _ Hlt) in Hv.
           ++ by left.
      * specialize (IHr _ _ Hr). destruct (_search rt email) as [|e' r' p' ? ? ?].
        -- rewrite emails_Node, not_elem_of_app, not_elem_of_cons.
           split; [|done]. intros Hx%Hleft'. congruence.
        -- destruct IHr as [-> IHr]. split; [done|]. intros v. rewrite <-IHr.
           cbn [entries]. rewrite elem_of_app, elem_of_cons. split.
           ++ intros [Hv|[Hv|Hv]]; [|by simplify_eq|done].
              apply Hleft in Hv. congruence.
           ++ intros Hv. right. by right.
Qed.

Ltac solve_entries_eq :=
  cbn [entries];
  repeat first [rewrite <-app_assoc | progress cbn [app]];
  done.

Lemma rebalance_avl e r p l rt h lo hi :
  in_range lo hi e = true →
  avl lo (Some e) l = true → avl (Some e) hi rt = true →
  (-2 ≤ _height l - _height rt ≤ 2)%Z →
  ∃ t', rebalance (Node e r p l rt h) = Ok t' ∧
        avl lo hi t' = true ∧
        entries t' = entries l ++ (e, (r, p)) :: entries rt ∧
        (_height t' = 1 + Z.max (_height l) (_height rt) ∨
         (_height t' = Z.max (_height l) (_height rt) ∧
          (_height l - _height rt = 2 ∨ _height l - _height rt = -2)))%Z.
Proof.
  intros He Hl Hr Hb. cbn [rebalance bind _get_balance].
  pose proof (avl_height_nonneg _ _ _ Hl) as Hl0.
  pose proof (avl_height_nonneg _ _ _ Hr) as Hr0.
  destruct (Z.ltb_spec 1 (_height l - _height rt)) as [Hb1|Hb1].
  - destruct l as [|le lr lp ll lrr lh]; [cbn [_height] in *; lia|].
    avl_inv. subst lh. cbn [_height] in *. avl_heights.
    cbn [_get_balance bind].
    destruct (Z.leb_spec 0 (_height ll - _height lrr)) as [Hbl|Hbl].
    + eexists. split; [reflexivity|]. split; [solve_avl|].
      split; [solve_entries_eq|]. cbn [_height]. lia.
    + destruct lrr as [|lre lrr' lrp lrl lrrr lrh]; [cbn [_height] in *; lia|].
      avl_inv. subst lrh. cbn [_height] in *. avl_heights.
      eexists. split; [reflexivity|]. split; [solve_avl|].
      split; [solve_entries_eq|]. cbn [_height]. lia.
  - destruct (Z.ltb_spec (_height l - _height rt) (-1)) as [Hb2|Hb2].
    + destruct rt as [|re rr rp rl rrr rh]; [cbn [_height] in *; lia|].
      avl_inv. subst rh. cbn [_height] in *. avl_heights.
      cbn [_get_balance bind].
      destruct (Z.leb_spec (_height rl - _height rrr) 0) as [Hbr|Hbr].
      * eexists. split; [reflexivity|]. split; [solve_avl|].
        split; [solve_entries_eq|]. cbn [_height]. lia.
      * destruct rl as [|rle rlr rlp rll rlrr rlh]; [cbn [_height] in *; lia|].
        avl_inv. subst rlh. cbn [_height] in *. avl_heights.
        eexists. split; [reflexivity|]. split; [solve_avl|].
        split; [solve_entries_eq|]. cbn [_height]. lia.
    + eexists. split; [reflexivity|]. avl_inv. split; [solve_avl|].
      split; [done|]. left. cbn [_height]. lia.
Qed.

(** An AVL-shaped tree is in shape within any bounds that hold its
    emails. *)
Lemma avl_rebound t : ∀ lo hi lo' hi',
  avl lo hi t = true →
  (∀ x, x ∈ emails t → in_range lo' hi' x = true) →
  avl lo' hi' t = true.
Proof.
  induction t as [|e r p l IHl rt IHr h]; intros lo hi lo' hi' Havl Hall; [done|].
  apply avl_Node in Havl as (He & Hl & Hr & Hh & Hb).
  assert (in_range lo' hi' e = true) as He'.
  { apply Hall. rewrite emails_Node, elem_of_app, elem_of_cons. auto. }
  apply avl_Node. split; [done|]. split; [|split; [|done]].
  - apply (IHl _ _ _ _ Hl). intros x Hx.
    pose proof (avl_range _ _ _ _ Hl Hx) as H1.
    assert (in_range lo' hi' x = true) as H2.
    { apply Hall. rewrite emails_Node, elem_of_app. auto. }
    avl_inv. apply in_range_inv. split; assumption.
  - apply (IHr _ _ _ _ Hr). intros x Hx.
    pose proof (avl_range _ _ _ _ Hr Hx) as H1.
    assert (in_range lo' hi' x = true) as H2.
    { apply Hall. rewrite emails_Node, elem_of_app, elem_of_cons. auto. }
    avl_inv. apply in_range_inv. split; assumption.
Qed.

Lemma min_value_node_first t :
  t ≠ Null →
  ∃ te tr tp tl trr th rest,
    _min_value_node t = Ok (Node te tr tp tl trr th) ∧
    entries t = (te, (tr, tp)) :: rest.
Proof.
  induction t as [|e r p l IHl rt _ h]; [done|]. intros _.
  destruct l as [|le lr lp ll lrr lh].
  - by eexists _, _, _, _, _, _, _.
  - destruct IHl as (te & tr & tp & tl & trr & th & rest & Hm & He); [done|].
    change (_min_value_node (Node e r p (Node le lr lp ll lrr lh) rt h))
      with (_min_value_node (Node le lr lp ll lrr lh)).
    rewrite Hm. change (entries (Node e r p (Node le lr lp ll lrr lh) rt h))
      with (entries (Node le lr lp ll lrr lh) ++ (e, (r, p)) :: entries rt).
    rewrite He. by eexists _, _, _, _, _, _, _.
Qed.

Lemma avl_first_least t lo hi te tv rest :
  avl lo hi t = true → entries t = (te, tv) :: rest →
  ∀ x, x ∈ rest.*1 → String.ltb te x = true.
Proof.
  revert lo hi rest. induction t as [|e r p l IHl rt _ h]; intros lo hi rest; [done|].
  intros (He & Hl & Hr & _)%avl_Node. cbn [entries].
  assert (∀ x, x ∈ emails rt → String.ltb e x = true) as Hright.
  { intros x Hx. apply (avl_range _ _ _ _ Hr) in Hx.
    by apply in_range_inv in Hx as [? _]. }
  destruct (entries l) as [|[le lv] lrest] eqn:El.
  - cbn [app]. intros [= -> <- <-]. exact Hright.
  - cbn [app]. intros [= -> -> <-] x.
    assert (String.ltb te e = true) as Hte.
    { assert (te ∈ emails l) as Hin.
      { unfold emails. rewrite El. rewrite fmap_cons. apply list_elem_of_here. }
      apply (avl_range _ _ _ _ Hl) in Hin. by apply in_range_inv in Hin as [_ ?]. }
    rewrite fmap_app, fmap_cons, elem_of_app, elem_of_cons. cbn [fst].
    intros [Hx|[->|Hx]].
    + by apply (IHl _ _ _ Hl eq_refl).
    + done.
    + eapply ltb_trans; [exact Hte|]. by apply Hright.
Qed.

Lemma filter_keeps_all (email : string) (l : list (string * (string * list string))) :
  email ∉ l.*1 → filter (λ x, x.1 ≠ email) l = l.
Proof.
  induction l as [|x l IH]; [done|]. rewrite fmap_cons, not_elem_of_cons.
  intros [Hx Hl]. rewrite filter_cons_True by done. by rewrite IH.
Qed.

Lemma ltb_neq a b : String.ltb a b = true → a ≠ b.
Proof. intros H ->. by rewrite ltb_irrefl in H. Qed.

Lemma delete_right_none e r p l h :
  l ≠ Null → _delete_node (Node e r p l Null h) e = Ok l.
Proof. intros Hl. cbn [_delete_node]. rewrite ltb_irrefl. by destruct l. Qed.

Lemma delete_two_children e r p l rt h :
  l ≠ Null → rt ≠ Null →
  _delete_node (Node e r p l rt h) e
  = (temp ← _min_value_node rt;
     match temp with
     | Null => Raise (none_has_no "email")
     | Node te tr tp _ _ _ =>
         rt' ← _delete_node rt te; rebalance (Node te tr tp l rt' h)
     end).
Proof.
  intros Hl Hr. cbn [_delete_node]. rewrite ltb_irrefl.
  destruct l; [done|]. by destruct rt.
Qed.

Lemma node_or_none (t : AVLNode) : t = Null ∨ t ≠ Null.
Proof. destruct t; [by left|by right]. Qed.

Lemma delete_avl t : ∀ lo hi email,
  avl lo hi t = true →
  ∃ t', _delete_node t email = Ok t' ∧
        avl lo hi t' = true ∧
        entries t' = filter (λ x, x.1 ≠ email) (entries t) ∧
        (_height t' = _height t ∨ _height t' = _height t - 1)%Z.
Proof.
  induction t as [|e r p l IHl rt IHr h]; intros lo hi email Havl.
  - exists Null. repeat split; auto.
  - pose proof Havl as (He & Hl & Hr & -> & Hbal)%avl_Node.
    pose proof (avl_height_nonneg _ _ _ Hl) as Hl0.
    pose proof (avl_height_nonneg _ _ _ Hr) as Hr0.
    assert (∀ x, x ∈ emails l → String.ltb x e = true) as Hleft.
    { intros x Hx. apply (avl_range _ _ _ _ Hl) in Hx.
      by apply in_range_inv in Hx as [_ ?]. }
    assert (∀ x, x ∈ emails rt → String.ltb e x = true) as Hright.
    { intros x Hx. apply (avl_range _ _ _ _ Hr) in Hx.
      by apply in_range_inv in Hx as [? _]. }
    cbn [entries _height]. rewrite filter_app, filter_cons.
    destruct (String.ltb email e) eqn:Hlt; [|destruct (String.ltb e email) eqn:Hgt].
    + cbn [_delete_node]. rewrite Hlt.
      destruct (IHl lo (Some e) email Hl) as (l' & -> & Hl' & Hent & Hh).
      cbn [bind].
      destruct (rebalance_avl e r p l' rt
                  (1 + Z.max (_height l) (_height rt)) lo hi He Hl' Hr)
        as (t' & -> & Havl' & Hent' & Hh'); [lia|].
      exists t'. split; [done|]. split; [done|]. split; [|lia].
      rewrite Hent', Hent. rewrite decide_True by (cbn; by apply not_eq_sym, ltb_neq).
      f_equal. f_equal. symmetry. apply filter_keeps_all.
      intros Hin%Hright. by rewrite (ltb_asym _ _ Hlt) in Hin.
    + cbn [_delete_node]. rewrite Hlt, Hgt.
      destruct (IHr (Some e) hi email Hr) as (rt' & -> & Hr' & Hent & Hh).
      cbn [bind].
      destruct (rebalance_avl e r p l rt'
                  (1 + Z.max (_height l) (_height rt)) lo hi He Hl Hr')
        as (t' & -> & Havl' & Hent' & Hh'); [lia|].
      exists t'. split; [done|]. split; [done|]. split; [|lia].
      rewrite Hent', Hent. rewrite decide_True by (cbn; by apply ltb_neq).
      f_equal. symmetry. apply filter_keeps_all.
      intros Hin%Hleft. by rewrite (ltb_asym _ _ Hgt) in Hin.
    + pose proof (ltb_trichotomy _ _ Hlt Hgt) as ->.
      rewrite decide_False by (cbn; auto).
      assert (filter (λ x, x.1 ≠ e) (entries l) = entries l) as Hfl.
      { apply filter_keeps_all. intros Hin%Hleft. by rewrite ltb_irrefl in Hin. }
      assert (filter (λ x, x.1 ≠ e) (entries rt) = entries rt) as Hfr.
      { apply filter_keeps_all. intros Hin%Hright. by rewrite ltb_irrefl in Hin. }
      rewrite Hfl, Hfr.
      assert (avl lo hi l = true) as Hl2.
      { apply (avl_rebound _ _ _ _ _ Hl). intros x Hx.
        pose proof (avl_range _ _ _ _ Hl Hx). avl_inv.
        apply in_range_inv. split; solve_bound. }
      assert (avl lo hi rt = true) as Hr2.
      { apply (avl_rebound _ _ _ _ _ Hr). intros x Hx.
        pose proof (avl_range _ _ _ _ Hr Hx). avl_inv.
        apply in_range_inv. split; solve_bound. }
      destruct (node_or_none l) as [->|Hln].
      { exists rt. split; [cbn [_delete_node]; by rewrite Hlt|].
        split; [done|]. split; [done|]. cbn [_height] in *. lia. }
      destruct (node_or_none rt) as [->|Hrn].
      { exists l. split; [by apply delete_right_none|]. split; [done|].
        split; [by rewrite app_nil_r|]. cbn [_height] in *. lia. }
      rewrite delete_two_children by done.
      destruct (min_value_node_first rt Hrn)
        as (te & tr & tp & tl & trr & th & rest & Hmin & Hrest).
      rewrite Hmin. cbn [bind].
      assert (te ∈ emails rt) as Hte.
      { unfold emails. rewrite Hrest, fmap_cons. apply list_elem_of_here. }
      pose proof (avl_first_least _ _ _ _ _ _ Hr Hrest) as Hleast.
      destruct (IHr (Some e) hi te Hr) as (rt' & -> & Hr' & Hent & Hh).
      cbn [bind].
      assert (entries rt' = rest) as Hent'.
      { rewrite Hent, Hrest. rewrite filter_cons_False by (cbn; auto).
        apply filter_keeps_all. intros Hin%Hleast. by rewrite ltb_irrefl in Hin. }
      pose proof (avl_range _ _ _ _ Hr Hte) as Hter.
      destruct (rebalance_avl te tr tp l rt'
                  (1 + Z.max (_height l) (_height rt)) lo hi)
        as (t' & -> & Havl' & Hent'' & Hh').
      { avl_inv. apply in_range_inv. split; solve_bound. }
      { apply (avl_rebound _ _ _ _ _ Hl). intros x Hx.
        pose proof (avl_range _ _ _ _ Hl Hx). avl_inv.
        apply in_range_inv. split; [assumption|]. cbn. by eapply ltb_trans. }
      { apply (avl_rebound _ _ _ _ _ Hr'). intros x Hx.
        pose proof (avl_range _ _ _ _ Hr' Hx). avl_inv.
        apply in_range_inv. split; [|assumption]. cbn. apply Hleast.
        unfold emails in Hx. by rewrite Hent' in Hx. }
      { lia. }
      exists t'. split; [done|]. split; [done|]. split; [|lia].
      rewrite Hent'', Hent'. by rewrite Hrest.
Qed.

(** X21: the two rotations keep the left-to-right order of the entries
    and lift a child: after [_left_rotate] the former right child is
    the root and the former root its left child, after [_right_rotate]
    the former left child is the root and the former root its right
    child.  [_left_rotate] returns exactly on a node with a right
    child and raises [AttributeError] otherwise, [_right_rotate]
    returns exactly on a node with a left child. *)
Theorem rotations_keep_inorder z :
  match _left_rotate z with
  | Ok z' =>
      z ≠ Null ∧ n_right z ≠ Null ∧ entries z' = entries z ∧
      n_entry z' = n_entry (n_right z) ∧ n_entry (n_left z') = n_entry z
  | Raise e =>
      (z = Null ∧ e = none_has_no "right") ∨
      (z ≠ Null ∧ n_right z = Null ∧ e = none_has_no "left")
  | Stuck => False
  end ∧
  match _right_rotate z with
  | Ok z' =>
      z ≠ Null ∧ n_left z ≠ Null ∧ entries z' = entries z ∧
      n_entry z' = n_entry (n_left z) ∧ n_entry (n_right z') = n_entry z
  | Raise e =>
      (z = Null ∧ e = none_has_no "left") ∨
      (z ≠ Null ∧ n_left z = Null ∧ e = none_has_no "right")
  | Stuck => False
  end.
Proof.
  split.
  - destruct z as [|ze zr zp zl [|ye yr yp T2 yrt yh] zh]; cbn.
    + by left.
    + by right.
    + repeat split; try done. by rewrite <-app_assoc.
  - destruct z as [|ze zr zp [|ye yr yp yl T3 yh] zrt zh]; cbn.
    + by left.
    + by right.
    + repeat split; try done. by rewrite <-app_assoc.
Qed.

(** X22: [add_role] of an email the tree does not hold, on a tree in AVL
    shape, returns: the new tree is in AVL shape again, holds the new
    entry beside the former ones, is at most one level higher, and is
    the one written to the file. *)
Theorem add_role_keeps_avl self email role permissions :
  avl None None (root self) = true →
  email ∉ emails (root self) →
  ∃ self', add_role self email role permissions = Ok self' ∧
           avl None None (root self') = true ∧
           entries (root self')
             ≡ₚ (email, (role, permissions)) :: entries (root self) ∧
           (_height (root self) ≤ _height (root self') ≤ _height (root self) + 1)%Z ∧
           file self' = Some (_serialize (root self')).
Proof.
  intros Havl Hnew.
  destruct (insert_avl email role permissions _ _ _ Havl eq_refl Hnew)
    as (t' & Hins & Havl' & Hperm & Hh).
  unfold add_role. rewrite Hins. cbn [bind]. eexists. split; [reflexivity|].
  cbn [save root file]. repeat split; try done; destruct Hh as [?|[? _]]; lia.
Qed.

Lemma add_role_keeps_avl_witness :
  avl None None (root sample) = true ∧
  ("dee@x.org" ∉ emails (root sample)) ∧
  ∃ self', add_role sample "dee@x.org" "dev" ["read"] = Ok self' ∧
           avl None None (root self') = true ∧
           entries (root self')
             ≡ₚ ("dee@x.org", ("dev", ["read"])) :: entries (root sample) ∧
           (_height (root sample) ≤ _height (root self') ≤ _height (root sample) + 1)%Z ∧
           file self' = Some (_serialize (root self')).
Proof.
  assert ("dee@x.org" ∉ emails (root sample)) as Hnew.
  { apply (bool_decide_unpack _). vm_compute. exact I. }
  split; [reflexivity|]. split; [exact Hnew|].
  apply (add_role_keeps_avl sample "dee@x.org" "dev" ["read"]);
    [reflexivity|exact Hnew].
Defined.

(** X23: roles added one after the other to an empty store, under
    emails that differ from one another, never raise, and leave a tree
    in AVL shape that holds exactly these roles. *)
Theorem add_all_distinct_emails l :
  NoDup l.*1 →
  ∃ self, add_all (__init__ None) l = Ok self ∧
          avl None None (root self) = true ∧
          entries (root self) ≡ₚ l.
Proof.
  assert (∀ self, avl None None (root self) = true →
            NoDup (l.*1 ++ emails (root self)) →
            ∃ self', add_all self l = Ok self' ∧
                     avl None None (root self') = true ∧
                     entries (root self') ≡ₚ l ++ entries (root self)) as H.
  { induction l as [|[email [role permissions]] l IH]; intros self Havl Hnd.
    - by exists self.
    - rewrite fmap_cons in Hnd. cbn [fst app] in Hnd.
      apply NoDup_cons in Hnd as [Hnew Hnd].
      rewrite not_elem_of_app in Hnew. destruct Hnew as [Hnl Hnew].
      destruct (insert_avl email role permissions _ _ _ Havl eq_refl Hnew)
        as (t' & Hins & Havl' & Hperm & _).
      cbn [add_all]. unfold add_role. rewrite Hins. cbn [bind].
      destruct (IH (save {| root := t'; file := file self |})) as (self' & -> & ? & Hp).
      { done. }
      { cbn [save root]. unfold emails. rewrite Hperm, fmap_cons.
        cbn [fst]. rewrite <-Permutation_middle. apply NoDup_cons.
        split; [|done]. rewrite not_elem_of_app. done. }
      exists self'. split; [done|]. split; [done|].
      rewrite Hp. cbn [save root]. rewrite Hperm.
      by rewrite <-Permutation_middle. }
  intros Hnd. destruct (H (__init__ None)) as (self & ? & ? & Hp).
  - done.
  - cbn. by rewrite app_nil_r.
  - exists self. split; [done|]. split; [done|]. by rewrite Hp, app_nil_r.
Qed.

Lemma add_all_distinct_emails_witness :
  NoDup [("b", ("dev", ["read"])); ("a", ("qa", [])); ("c", ("ops", ["run"]))].*1 ∧
  ∃ self,
    add_all (__init__ None)
      [("b", ("dev", ["read"])); ("a", ("qa", [])); ("c", ("ops", ["run"]))]
    = Ok self ∧
    avl None None (root self) = true ∧
    entries (root self)
      ≡ₚ [("b", ("dev", ["read"])); ("a", ("qa", [])); ("c", ("ops", ["run"]))].
Proof.
  assert (NoDup [("b", ("dev", ["read"])); ("a", ("qa", @nil string));
                 ("c", ("ops", ["run"]))].*1) as Hnd.
  { apply (bool_decide_unpack _). vm_compute. exact I. }
  split; [exact Hnd|].
  apply (add_all_distinct_emails
           [("b", ("dev", ["read"])); ("a", ("qa", [])); ("c", ("ops", ["run"]))]).
  exact Hnd.
Defined.

(** X24: [add_role] never replaces a role.  Whenever it returns, the new
    entry stands beside all the former ones, the former entry of the
    same email included. *)
Theorem add_role_never_replaces self email role permissions self' :
  add_role self email role permissions = Ok self' →
  entries (root self') ≡ₚ (email, (role, permissions)) :: entries (root self).
Proof.
  unfold add_role.
  destruct (_insert (root self) email role permissions) as [t'| |] eqn:Hins;
    try done.
  intros [= <-]. cbn [save root]. by apply insert_entries.
Qed.

Lemma add_role_never_replaces_witness :
  add_role (__init__ None) "a" "dev" [] = Ok (mkManager (Node "a" "dev" [] Null Null 1)
    (Some (DNode "a" "dev" [] DNull DNull 1))) ∧
  add_role (mkManager (Node "a" "dev" [] Null Null 1)
              (Some (DNode "a" "dev" [] DNull DNull 1))) "a" "admin" ["all"]
  = Ok (mkManager (Node "a" "dev" [] Null (Node "a" "admin" ["all"] Null Null 1) 2)
          (Some (DNode "a" "dev" [] DNull (DNode "a" "admin" ["all"] DNull DNull 1) 2))) ∧
  entries (Node "a" "dev" [] Null (Node "a" "admin" ["all"] Null Null 1) 2)
    ≡ₚ ("a", ("admin", ["all"])) :: entries (Node "a" "dev" [] Null Null 1).
Proof.
  split; [reflexivity|]. split; [reflexivity|].
  apply (add_role_never_replaces
           (mkManager (Node "a" "dev" [] Null Null 1)
              (Some (DNode "a" "dev" [] DNull DNull 1)))
           "a" "admin" ["all"]
           (mkManager (Node "a" "dev" [] Null (Node "a" "admin" ["all"] Null Null 1) 2)
              (Some (DNode "a" "dev" [] DNull
                       (DNode "a" "admin" ["all"] DNull DNull 1) 2)))).
  reflexivity.
Defined.

(** X25: the third [add_role] of one email to an empty store raises
    [AttributeError]: the two copies hang to the right of the first, and
    the rotation chosen for them reads the left child of a node that has
    none. *)
Theorem add_role_same_email_thrice_raises email r1 p1 r2 p2 r3 p3 :
  (self1 ← add_role (__init__ None) email r1 p1;
   self2 ← add_role self1 email r2 p2;
   add_role self2 email r3 p3)
  = Raise (none_has_no "right").
Proof.
  unfold add_role, __init__, load.
  repeat first
    [ rewrite ltb_irrefl
    | progress cbn
    | match goal with
      | |- context [(?a <? ?b)%Z] =>
          let v := eval vm_compute in (a <? b)%Z in
          change (a <? b)%Z with v
      end ].
  reflexivity.
Qed.

(** X26: on a tree in AVL shape [show_role] answers with the role and
    the permissions of the entry of the email, and with [None] exactly
    when the email has no entry; [check_permission] answers [None] in
    that case and otherwise whether the action is among the
    permissions. *)
Theorem show_role_reads_the_entry self email :
  avl None None (root self) = true →
  (∀ r p, show_role self email = Some (r, p) ↔
          (email, (r, p)) ∈ entries (root self)) ∧
  (show_role self email = None ↔ email ∉ emails (root self)) ∧
  (∀ action,
     check_permission self email action
     = (λ v, bool_decide (action ∈ v.2)) <$> show_role self email).
Proof.
  intros Havl. pose proof (search_avl _ email _ _ Havl) as Hs.
  unfold show_role, check_permission.
  destruct (_search (root self) email) as [|e r p ? ? ?].
  - split; [|split; [done|done]]. intros r p. split; [done|].
    intros Hin%entries_emails. done.
  - destruct Hs as [-> Hs]. split; [|split; [|done]].
    + intros r' p'. rewrite Hs. split; congruence.
    + split; [done|]. intros Hn. destruct Hn. eapply entries_emails.
      by apply Hs.
Qed.

Lemma show_role_reads_the_entry_witness :
  avl None None (root sample) = true ∧
  (∀ r p, show_role sample "cy@x.org" = Some (r, p) ↔
          ("cy@x.org", (r, p)) ∈ entries (root sample)) ∧
  (show_role sample "cy@x.org" = None ↔ "cy@x.org" ∉ emails (root sample)) ∧
  (∀ action,
     check_permission sample "cy@x.org" action
     = (λ v, bool_decide (action ∈ v.2)) <$> show_role sample "cy@x.org").
Proof.
  split; [reflexivity|].
  apply (show_role_reads_the_entry sample "cy@x.org"). reflexivity.
Defined.

(** X27: [remove_role] on a tree in AVL shape returns, also for an
    email without entry: the new tree is in AVL shape, holds the former
    entries but the one of the email, in the former order, is at most
    one level lower, and is the one written to the file; the email is no
    longer found. *)
Theorem remove_role_keeps_avl self email :
  avl None None (root self) = true →
  ∃ self', remove_role self email = Ok self' ∧
           avl None None (root self') = true ∧
           entries (root self') = filter (λ x, x.1 ≠ email) (entries (root self)) ∧
           show_role self' email = None ∧
           (_height (root self) - 1 ≤ _height (root self') ≤ _height (root self))%Z ∧
           file self' = Some (_serialize (root self')).
Proof.
  intros Havl.
  destruct (delete_avl _ _ _ email Havl) as (t' & Hdel & Havl' & Hent & Hh).
  unfold remove_role. rewrite Hdel. cbn [bind]. eexists. split; [reflexivity|].
  cbn [save root file]. split; [done|]. split; [done|].
  split; [|split; [lia|done]].
  pose proof (search_avl _ email _ _ Havl') as Hs. unfold show_role. cbn [root save].
  destruct (_search t' email) as [|e r p ? ? ?]; [done|].
  destruct Hs as [_ Hs]. specialize (proj2 (Hs (r, p)) eq_refl) as Hin.
  rewrite Hent in Hin. apply list_elem_of_filter in Hin as [Hne _]. done.
Qed.

Lemma remove_role_keeps_avl_witness :
  avl None None (root sample) = true ∧
  ∃ self', remove_role sample "bo@x.org" = Ok self' ∧
           avl None None (root self') = true ∧
           entries (root self')
           = filter (λ x, x.1 ≠ "bo@x.org") (entries (root sample)) ∧
           show_role self' "bo@x.org" = None ∧
           (_height (root sample) - 1 ≤ _height (root self')
            ≤ _height (root sample))%Z ∧
           file self' = Some (_serialize (root self')).
Proof.
  split; [reflexivity|].
  apply (remove_role_keeps_avl sample "bo@x.org"). reflexivity.
Defined.

Lemma search_assign_role email nr np email' t :
  match _search (assign_role t email nr np) email' with
  | Null => None
  | Node e r p _ _ _ => Some (e, (r, p))
  end
  = if decide (email' = email)
    then match _search t email with
         | Null => None
         | Node e _ _ _ _ _ => Some (e, (nr, np))
         end
    else match _search t email' with
         | Null => None
         | Node e r p _ _ _ => Some (e, (r, p))
         end.
Proof.
  induction t as [|e r p l IHl rt IHr h].
  - cbn. by destruct (decide _).
  - cbn [assign_role _search]. destruct (decide (e = email)) as [->|Hne].
    + cbn [_search]. destruct (decide (email = email')) as [<-|Hne'].
      * by rewrite decide_True.
      * by rewrite decide_False.
    + destruct (decide (e = email')) as [->|Hne'].
      * rewrite decide_False by done.
        destruct (String.ltb email email'); cbn [_search];
          by rewrite decide_True.
      * destruct (String.ltb email e) eqn:Hlt; cbn [_search];
          rewrite (decide_False (P := e = email')) by done;
          destruct (String.ltb email' e) eqn:Hlt'; try done.
        -- destruct (decide (email' = email)) as [->|?]; [congruence|done].
        -- destruct (decide (email' = email)) as [->|?]; [congruence|done].
Qed.

Lemma assign_role_shape email nr np t :
  _height (assign_role t email nr np) = _height t ∧
  emails (assign_role t email nr np) = emails t ∧
  heights (assign_role t email nr np) = heights t ∧
  ∀ lo hi, avl lo hi (assign_role t email nr np) = avl lo hi t.
Proof.
  induction t as [|e r p l (IHlh & IHle & IHls & IHla)
                     rt (IHrh & IHre & IHrs & IHra) h]; [done|].
  cbn [assign_role]. destruct (decide (e = email)).
  { split; [done|]. split; [by rewrite !emails_Node|done]. }
  destruct (String.ltb email e).
  - split; [done|]. split; [by rewrite !emails_Node, IHle|]. split.
    + cbn [heights]. by rewrite IHls.
    + intros lo hi. cbn [avl]. by rewrite IHla, IHlh.
  - split; [done|]. split; [by rewrite !emails_Node, IHre|]. split.
    + cbn [heights]. by rewrite IHrs.
    + intros lo hi. cbn [avl]. by rewrite IHra, IHrh.
Qed.

(** X28: [update_role] sets the role and the permissions that
    [show_role] answers for the email, when it answers at all, and those
    of no other email; the emails of the tree, the heights its nodes
    store and its AVL shape stay, and nothing is written when the email
    is not found. *)
Theorem update_role_sets_one_role self email new_role new_permissions :
  (∀ email',
     show_role (update_role self email new_role new_permissions) email'
     = if decide (email' = email)
       then (λ _, (new_role, new_permissions)) <$> show_role self email
       else show_role self email') ∧
  emails (root (update_role self email new_role new_permissions))
  = emails (root self) ∧
  heights (root (update_role self email new_role new_permissions))
  = heights (root self) ∧
  (∀ lo hi, avl lo hi (root (update_role self email new_role new_permissions))
            = avl lo hi (root self)) ∧
  file (update_role self email new_role new_permissions)
  = match show_role self email with
    | Some _ => Some (_serialize (assign_role (root self) email
                                    new_role new_permissions))
    | None => file self
    end.
Proof.
  pose proof (assign_role_shape email new_role new_permissions (root self))
    as (_ & Hem & Hhs & Havl).
  unfold update_role, show_role.
  destruct (_search (root self) email) as [|e r p l rt h] eqn:Hs.
  - split; [|done]. intros email'. destruct (decide (email' = email)) as [->|]; [|done].
    by rewrite Hs.
  - cbn [save root file]. split; [|done]. intros email'.
    pose proof (search_assign_role email new_role new_permissions email' (root self))
      as Hsa.
    rewrite Hs in Hsa.
    destruct (_search (assign_role _ _ _ _) email') as [|e' r' p' ? ? ?];
      destruct (decide (email' = email));
      destruct (_search (root self) email') as [|e'' r'' p'' ? ? ?];
      by simplify_eq/=.
Qed.

(** X29: a tree written by [save] is the tree a restart reads, heights
    included, and a document read at the start is written back
    unchanged. *)
Theorem roles_survive_restart :
  (∀ self, __init__ (file (save self)) = save self) ∧
  (∀ data, file (save (__init__ (Some data))) = Some data).
Proof.
  assert (∀ t, _deserialize (_serialize t) = t) as Hds.
  { induction t as [|e r p l IHl rt IHr h]; [done|].
    cbn [_serialize _deserialize]. by rewrite IHl, IHr. }
  assert (∀ d, _serialize (_deserialize d) = d) as Hsd.
  { induction d as [|e r p l IHl rt IHr h]; [done|].
    cbn [_serialize _deserialize]. by rewrite IHl, IHr. }
  split.
  - intros self. unfold __init__, load, save. cbn [file root]. by rewrite Hds.
  - intros data. unfold __init__, load, save. cbn [file root]. by rewrite Hsd.
Qed.

Lemma postorder_traversal_acc t : ∀ acc,
  _postorder_traversal t acc = acc ++ _postorder_traversal t [].
Proof.
  induction t as [|e r p l IHl rt IHr h]; intros acc.
  - by rewrite app_nil_r.
  - cbn [_postorder_traversal].
    rewrite (IHr (_postorder_traversal l acc)), (IHl acc).
    rewrite (IHr (_postorder_traversal l [])). by rewrite !app_assoc.
Qed.

(** X30: [list_roles_postorder] gives one line per entry of the tree,
    each entry once, the line of the root last. *)
Theorem list_roles_postorder_lines self :
  list_roles_postorder self
    ≡ₚ (λ x, role_line x.1 x.2.1 x.2.2) <$> entries (root self) ∧
  last (list_roles_postorder self)
  = match root self with
    | Null => None
    | Node e r p _ _ _ => Some (role_line e r p)
    end.
Proof.
  unfold list_roles_postorder. split.
  - induction (root self) as [|e r p l IHl rt IHr h]; [done|].
    cbn [_postorder_traversal entries].
    rewrite postorder_traversal_acc, IHl, IHr.
    rewrite fmap_app, fmap_cons. cbn [fst snd].
    rewrite <-app_assoc. f_equiv. by rewrite <-Permutation_cons_append.
  - destruct (root self) as [|e r p l rt h]; [done|].
    cbn [_postorder_traversal]. by rewrite last_snoc.
Qed.

End RoleFacts.
